(** * Archer-fish optics simulation (src/components/Fish.vue)

    A shallow embedding of the script of [Fish.vue]: the reactive state
    (the [ref]s), the derived values (the [computed]s), the functions and
    mouse handlers that mutate the state, and the three [watch]ers.

    Numbers.  JavaScript numbers are modelled by [num]: the IEEE special
    values [NaN], [Infinity] and [-Infinity] are kept with their
    JavaScript behaviour, and every finite value is an exact real number
    (no rounding, no overflow, one unsigned zero; a zero divisor behaves
    as [+0], which is what the subtractions [a - a] of this program
    produce).  The functions of [Math] are the real functions on finite
    arguments and follow ECMAScript on the special values.  The
    computeds of the critical angle, where one rounding at the boundary
    decides between an angle and [NaN], are embedded a second time in
    the module [Binary64], over binary64 numbers.

    Rendering.  [drawScene] and the functions it calls read the state and
    write to the canvas only: each is a function to the list of canvas
    commands it issues.  The handlers and the callbacks of the watchers,
    which call [drawScene] as their last step, are embedded without that
    call. *)

From Stdlib Require Import Reals Lra Lia ZArith Bool List Zfloor String.
From Stdlib Require Floats Uint63.
Import ListNotations.
Local Open Scope R_scope.

(** ** JavaScript numbers *)

Inductive num : Type :=
| NaN
| Infinity
| NegInfinity
| Fin (r : R).

Declare Scope js_scope.
Delimit Scope js_scope with js.
Bind Scope js_scope with num.

Definition Rltb (a b : R) : bool := if Rlt_dec a b then true else false.
Definition Rleb (a b : R) : bool := if Rle_dec a b then true else false.
Definition Reqb (a b : R) : bool := if Req_dec_T a b then true else false.

Definition inf_of (negative : bool) : num :=
  if negative then NegInfinity else Infinity.

(** [±Infinity * r] and [r / +0]: the sign of [r] decides, [0] gives [NaN]. *)
Definition inf_times (negative : bool) (r : R) : num :=
  if Rltb 0 r then inf_of negative
  else if Rltb r 0 then inf_of (negb negative)
  else NaN.

Definition neg (a : num) : num :=
  match a with
  | NaN => NaN
  | Infinity => NegInfinity
  | NegInfinity => Infinity
  | Fin r => Fin (- r)
  end.

Definition add (a b : num) : num :=
  match a, b with
  | NaN, _ | _, NaN => NaN
  | Fin p, Fin q => Fin (p + q)
  | Infinity, NegInfinity | NegInfinity, Infinity => NaN
  | Infinity, _ | _, Infinity => Infinity
  | NegInfinity, _ | _, NegInfinity => NegInfinity
  end.

Definition sub (a b : num) : num := add a (neg b).

Definition mul (a b : num) : num :=
  match a, b with
  | NaN, _ | _, NaN => NaN
  | Fin p, Fin q => Fin (p * q)
  | Infinity, Fin q | Fin q, Infinity => inf_times false q
  | NegInfinity, Fin q | Fin q, NegInfinity => inf_times true q
  | Infinity, Infinity | NegInfinity, NegInfinity => Infinity
  | Infinity, NegInfinity | NegInfinity, Infinity => NegInfinity
  end.

Definition div (a b : num) : num :=
  match a, b with
  | NaN, _ | _, NaN => NaN
  | Fin p, Fin q => if Reqb q 0 then inf_times false p else Fin (p / q)
  | Fin _, Infinity | Fin _, NegInfinity => Fin 0
  | Infinity, Fin q => if Rltb q 0 then NegInfinity else Infinity
  | NegInfinity, Fin q => if Rltb q 0 then Infinity else NegInfinity
  | _, _ => NaN
  end.

(** Comparisons: every comparison with [NaN] is false. *)
Definition lt (a b : num) : bool :=
  match a, b with
  | NaN, _ | _, NaN => false
  | Fin p, Fin q => Rltb p q
  | _, NegInfinity => false
  | NegInfinity, _ => true
  | Infinity, _ => false
  | Fin _, Infinity => true
  end.

Definition le (a b : num) : bool :=
  match a, b with
  | NaN, _ | _, NaN => false
  | Fin p, Fin q => Rleb p q
  | NegInfinity, _ => true
  | _, Infinity => true
  | Infinity, _ => false
  | Fin _, NegInfinity => false
  end.

Definition ge (a b : num) : bool := le b a.

(** [a == b] on numbers. *)
Definition eqb (a b : num) : bool :=
  match a, b with
  | Fin p, Fin q => Reqb p q
  | Infinity, Infinity | NegInfinity, NegInfinity => true
  | _, _ => false
  end.

(** [Object.is] without signed zeros: the same value, [NaN] included. *)
Definition sameValue (a b : num) : bool :=
  match a, b with
  | NaN, NaN => true
  | _, _ => eqb a b
  end.

Definition isNaN (a : num) : bool :=
  match a with NaN => true | _ => false end.

Definition isFinite (a : num) : bool :=
  match a with Fin _ => true | _ => false end.

Notation "a + b" := (add a b) : js_scope.
Notation "a - b" := (sub a b) : js_scope.
Notation "a * b" := (mul a b) : js_scope.
Notation "a / b" := (div a b) : js_scope.
Notation "- a" := (neg a) : js_scope.
Notation "a <? b" := (lt a b) (at level 70, no associativity) : js_scope.
Notation "a >=? b" := (ge a b) (at level 70, no associativity) : js_scope.

(** ** The [Math] object *)

Definition Math_PI : num := Fin PI.

Definition Math_sin (a : num) : num :=
  match a with Fin r => Fin (sin r) | _ => NaN end.

Definition Math_cos (a : num) : num :=
  match a with Fin r => Fin (cos r) | _ => NaN end.

Definition Math_asin (a : num) : num :=
  match a with
  | Fin r => if Rleb (-1) r && Rleb r 1 then Fin (asin r) else NaN
  | _ => NaN
  end.

Definition Math_abs (a : num) : num :=
  match a with
  | NaN => NaN
  | Infinity | NegInfinity => Infinity
  | Fin r => Fin (Rabs r)
  end.

Definition Math_sqrt (a : num) : num :=
  match a with
  | Fin r => if Rleb 0 r then Fin (sqrt r) else NaN
  | Infinity => Infinity
  | _ => NaN
  end.

Definition Math_max (a b : num) : num :=
  match a, b with
  | NaN, _ | _, NaN => NaN
  | _, _ => if lt a b then b else a
  end.

Definition Math_min (a b : num) : num :=
  match a, b with
  | NaN, _ | _, NaN => NaN
  | _, _ => if lt b a then b else a
  end.

(** The angle of the vector [(x, y)] in [(-PI, PI]]. *)
Definition Ratan2 (vy vx : R) : R :=
  if Rltb 0 vx then atan (vy / vx)
  else if Rltb vx 0 then
    (if Rleb 0 vy then atan (vy / vx) + PI else atan (vy / vx) - PI)
  else if Rltb 0 vy then PI / 2
  else if Rltb vy 0 then - (PI / 2)
  else 0.

Definition Math_atan2 (vy vx : num) : num :=
  match vy, vx with
  | NaN, _ | _, NaN => NaN
  | Fin p, Fin q => Fin (Ratan2 p q)
  | Infinity, Infinity => Fin (PI / 4)
  | Infinity, NegInfinity => Fin (3 * PI / 4)
  | Infinity, Fin _ => Fin (PI / 2)
  | NegInfinity, Infinity => Fin (- (PI / 4))
  | NegInfinity, NegInfinity => Fin (- (3 * PI / 4))
  | NegInfinity, Fin _ => Fin (- (PI / 2))
  | Fin _, Infinity => Fin 0
  | Fin p, NegInfinity => if Rltb p 0 then Fin (- PI) else Fin PI
  end.

(** [parseFloat(a.toFixed(1))]: the nearest multiple of one tenth, a tie
    going away from zero; [toFixed] prints a magnitude of [10^21] or more
    in full, and the special values by name, so these come back unchanged. *)
Definition roundTenth (r : R) : R :=
  if Rltb r 0 then - (IZR (Zfloor (- r * 10 + / 2)) / 10)
  else IZR (Zfloor (r * 10 + / 2)) / 10.

Definition toFixed1 (a : num) : num :=
  match a with
  | Fin r => if Rleb (10 ^ 21) (Rabs r) then Fin r else Fin (roundTenth r)
  | _ => a
  end.

(** ** The reactive state *)

Record Point : Type := mkPoint { x : num; y : num }.

Inductive DragTarget : Type :=
| DragLeftPoint
| DragRightPoint
| DragApparentPosition
| DragRealPosition
| DragViewport.

(** One field for each [ref] of the script that holds optical or
    interaction state ([canvas] and [ctx] belong to the renderer). *)
Record State : Type := mkState {
  refractiveIndex : num;
  leftPoint : Point;
  rightPoint : Point;
  apparentPosition : Point;
  lockRealPosition : bool;
  leftAngleDeg : num;
  rightAngleDeg : num;
  viewportOffset : Point;
  dragging : option DragTarget;
  dragStart : Point;
  updatingFromDrag : bool;
  updatingFromAngleChange : bool
}.

Definition waterLevelY : num := Fin 450.
Definition airIndex : num := Fin 1.

Definition initialState : State :=
  {| refractiveIndex := Fin 1.33;
     leftPoint := mkPoint (Fin 250) waterLevelY;
     rightPoint := mkPoint (Fin 550) waterLevelY;
     apparentPosition := mkPoint (Fin 400) (Fin 200);
     lockRealPosition := true;
     leftAngleDeg := Fin 30;
     rightAngleDeg := Fin 30;
     viewportOffset := mkPoint (Fin 0) (Fin 0);
     dragging := None;
     dragStart := mkPoint (Fin 0) (Fin 0);
     updatingFromDrag := false;
     updatingFromAngleChange := false |}.

(** Assignments to a [ref]. *)
Definition set_refractiveIndex (v : num) (s : State) : State :=
  mkState v (leftPoint s) (rightPoint s) (apparentPosition s)
    (lockRealPosition s) (leftAngleDeg s) (rightAngleDeg s)
    (viewportOffset s) (dragging s) (dragStart s) (updatingFromDrag s)
    (updatingFromAngleChange s).

Definition set_leftPoint (v : Point) (s : State) : State :=
  mkState (refractiveIndex s) v (rightPoint s) (apparentPosition s)
    (lockRealPosition s) (leftAngleDeg s) (rightAngleDeg s)
    (viewportOffset s) (dragging s) (dragStart s) (updatingFromDrag s)
    (updatingFromAngleChange s).

Definition set_rightPoint (v : Point) (s : State) : State :=
  mkState (refractiveIndex s) (leftPoint s) v (apparentPosition s)
    (lockRealPosition s) (leftAngleDeg s) (rightAngleDeg s)
    (viewportOffset s) (dragging s) (dragStart s) (updatingFromDrag s)
    (updatingFromAngleChange s).

Definition set_apparentPosition (v : Point) (s : State) : State :=
  mkState (refractiveIndex s) (leftPoint s) (rightPoint s) v
    (lockRealPosition s) (leftAngleDeg s) (rightAngleDeg s)
    (viewportOffset s) (dragging s) (dragStart s) (updatingFromDrag s)
    (updatingFromAngleChange s).

Definition set_lockRealPosition (v : bool) (s : State) : State :=
  mkState (refractiveIndex s) (leftPoint s) (rightPoint s)
    (apparentPosition s) v (leftAngleDeg s) (rightAngleDeg s)
    (viewportOffset s) (dragging s) (dragStart s) (updatingFromDrag s)
    (updatingFromAngleChange s).

Definition set_leftAngleDeg (v : num) (s : State) : State :=
  mkState (refractiveIndex s) (leftPoint s) (rightPoint s)
    (apparentPosition s) (lockRealPosition s) v (rightAngleDeg s)
    (viewportOffset s) (dragging s) (dragStart s) (updatingFromDrag s)
    (updatingFromAngleChange s).

Definition set_rightAngleDeg (v : num) (s : State) : State :=
  mkState (refractiveIndex s) (leftPoint s) (rightPoint s)
    (apparentPosition s) (lockRealPosition s) (leftAngleDeg s) v
    (viewportOffset s) (dragging s) (dragStart s) (updatingFromDrag s)
    (updatingFromAngleChange s).

Definition set_viewportOffset (v : Point) (s : State) : State :=
  mkState (refractiveIndex s) (leftPoint s) (rightPoint s)
    (apparentPosition s) (lockRealPosition s) (leftAngleDeg s)
    (rightAngleDeg s) v (dragging s) (dragStart s) (updatingFromDrag s)
    (updatingFromAngleChange s).

Definition set_dragging (v : option DragTarget) (s : State) : State :=
  mkState (refractiveIndex s) (leftPoint s) (rightPoint s)
    (apparentPosition s) (lockRealPosition s) (leftAngleDeg s)
    (rightAngleDeg s) (viewportOffset s) v (dragStart s)
    (updatingFromDrag s) (updatingFromAngleChange s).

Definition set_dragStart (v : Point) (s : State) : State :=
  mkState (refractiveIndex s) (leftPoint s) (rightPoint s)
    (apparentPosition s) (lockRealPosition s) (leftAngleDeg s)
    (rightAngleDeg s) (viewportOffset s) (dragging s) v
    (updatingFromDrag s) (updatingFromAngleChange s).

Definition set_updatingFromDrag (v : bool) (s : State) : State :=
  mkState (refractiveIndex s) (leftPoint s) (rightPoint s)
    (apparentPosition s) (lockRealPosition s) (leftAngleDeg s)
    (rightAngleDeg s) (viewportOffset s) (dragging s) (dragStart s) v
    (updatingFromAngleChange s).

(** ** Derived values (the [computed]s) *)

Section Computed.
Local Open Scope js_scope.

Definition criticalAngle (s : State) : num :=
  (Math_asin (airIndex / refractiveIndex s) * Fin 180) / Math_PI.

Definition distanceBetweenPoints (s : State) : num :=
  Math_abs (x (rightPoint s) - x (leftPoint s)).

Definition leftExceedsCritical (s : State) : bool :=
  leftAngleDeg s >=? criticalAngle s.

Definition rightExceedsCritical (s : State) : bool :=
  rightAngleDeg s >=? criticalAngle s.

Definition leftRefractedAngle (s : State) : num :=
  if leftExceedsCritical s then NaN
  else
    let incidentRad := (leftAngleDeg s * Math_PI) / Fin 180 in
    let refractedRad :=
      Math_asin ((refractiveIndex s / airIndex) * Math_sin incidentRad) in
    (refractedRad * Fin 180) / Math_PI.

Definition rightRefractedAngle (s : State) : num :=
  if rightExceedsCritical s then NaN
  else
    let incidentRad := (rightAngleDeg s * Math_PI) / Fin 180 in
    let refractedRad :=
      Math_asin ((refractiveIndex s / airIndex) * Math_sin incidentRad) in
    (refractedRad * Fin 180) / Math_PI.

Definition calculateRayPoint
    (startPoint : Point) (angleDeg length : num) (isLeft : bool) : Point :=
  let angleRad := (angleDeg * Math_PI) / Fin 180 in
  let xDirection := if isLeft then Fin (-1) else Fin 1 in
  let endX := x startPoint + length * Math_sin angleRad * xDirection in
  let endY := y startPoint - length * Math_cos angleRad in
  mkPoint endX endY.

(** The slope of the line from [p] to [q], and the intersection of the
    lines through [p1] with slope [m1] and through [p2] with slope [m2]:
    the expressions that [realPosition] and [updateApparentFromReal]
    both write out. *)
Definition slope (p q : Point) : num := (y q - y p) / (x q - x p).

Definition intersect (p1 : Point) (m1 : num) (p2 : Point) (m2 : num) : Point :=
  let ix := (m1 * x p1 - y p1 - (m2 * x p2 - y p2)) / (m1 - m2) in
  let iy := m1 * (ix - x p1) + y p1 in
  mkPoint ix iy.

(** [realPosition]: [None] is the source's [null]. *)
Definition realPosition (s : State) : option Point :=
  if leftExceedsCritical s || rightExceedsCritical s then None
  else
    let leftIsLeft := x (apparentPosition s) <? x (leftPoint s) in
    let rightIsLeft := x (apparentPosition s) <? x (rightPoint s) in
    let leftRayPoint :=
      calculateRayPoint (leftPoint s) (leftRefractedAngle s) (Fin 1000)
        leftIsLeft in
    let rightRayPoint :=
      calculateRayPoint (rightPoint s) (rightRefractedAngle s) (Fin 1000)
        rightIsLeft in
    let leftSlope := slope (leftPoint s) leftRayPoint in
    let rightSlope := slope (rightPoint s) rightRayPoint in
    Some (intersect (leftPoint s) leftSlope (rightPoint s) rightSlope).

End Computed.

(** ** Functions and mouse handlers *)

Section Handlers.
Local Open Scope js_scope.

(** Snell's law from air into water, on an angle in radians: the
    expression [Math.asin((airIndex / refractiveIndex.value) *
    Math.sin(incident))] that [updateApparentFromReal] and
    [updateAnglesFromRealPosition] apply to each side. *)
Definition airToWaterRad (s : State) (incidentRad : num) : num :=
  Math_asin ((airIndex / refractiveIndex s) * Math_sin incidentRad).

Definition updateApparentFromReal (s : State) : State :=
  if negb (lockRealPosition s) then s
  else
    match realPosition s with
    | None => s
    | Some realPos =>
      if (y realPos >=? waterLevelY)
         || leftExceedsCritical s || rightExceedsCritical s
      then s
      else
        let leftDx := x realPos - x (leftPoint s) in
        let leftDy := y realPos - y (leftPoint s) in
        let rightDx := x realPos - x (rightPoint s) in
        let rightDy := y realPos - y (rightPoint s) in
        let leftIncidentRad := Math_atan2 (Math_abs leftDx) (Math_abs leftDy) in
        let rightIncidentRad :=
          Math_atan2 (Math_abs rightDx) (Math_abs rightDy) in
        let leftWaterRad := airToWaterRad s leftIncidentRad in
        let rightWaterRad := airToWaterRad s rightIncidentRad in
        let leftIsLeft := leftDx <? Fin 0 in
        let rightIsLeft := rightDx <? Fin 0 in
        let leftWaterPoint :=
          calculateRayPoint (leftPoint s) ((leftWaterRad * Fin 180) / Math_PI)
            (Fin 1000) leftIsLeft in
        let rightWaterPoint :=
          calculateRayPoint (rightPoint s)
            ((rightWaterRad * Fin 180) / Math_PI) (Fin 1000) rightIsLeft in
        let leftSlope := slope (leftPoint s) leftWaterPoint in
        let rightSlope := slope (rightPoint s) rightWaterPoint in
        set_apparentPosition
          (intersect (leftPoint s) leftSlope (rightPoint s) rightSlope) s
    end.

Definition screenToWorld (s : State) (screenX screenY : num) : Point :=
  mkPoint (screenX - x (viewportOffset s)) (screenY - y (viewportOffset s)).

Definition worldToScreen (s : State) (worldX worldY : num) : Point :=
  mkPoint (worldX + x (viewportOffset s)) (worldY + y (viewportOffset s)).

Definition updateAnglesFromPositions (s : State) : State :=
  let leftDx := x (apparentPosition s) - x (leftPoint s) in
  let leftDy := y (apparentPosition s) - y (leftPoint s) in
  let rightDx := x (apparentPosition s) - x (rightPoint s) in
  let rightDy := y (apparentPosition s) - y (rightPoint s) in
  let leftAngle := Math_abs (Math_atan2 leftDx (- leftDy)) in
  let rightAngle := Math_abs (Math_atan2 rightDx (- rightDy)) in
  let s1 := set_leftAngleDeg (toFixed1 ((leftAngle * Fin 180) / Math_PI)) s in
  set_rightAngleDeg (toFixed1 ((rightAngle * Fin 180) / Math_PI)) s1.

Definition updateAnglesFromRealPosition (realPos : Point) (s : State) : State :=
  let leftDx := x realPos - x (leftPoint s) in
  let leftDy := y realPos - y (leftPoint s) in
  let rightDx := x realPos - x (rightPoint s) in
  let rightDy := y realPos - y (rightPoint s) in
  let leftIncidentAngle := Math_abs (Math_atan2 leftDx (- leftDy)) in
  let rightIncidentAngle := Math_abs (Math_atan2 rightDx (- rightDy)) in
  let leftWaterAngle := airToWaterRad s leftIncidentAngle in
  let rightWaterAngle := airToWaterRad s rightIncidentAngle in
  let s1 :=
    set_leftAngleDeg (toFixed1 ((leftWaterAngle * Fin 180) / Math_PI)) s in
  set_rightAngleDeg (toFixed1 ((rightWaterAngle * Fin 180) / Math_PI)) s1.

(** [isNearPoint] of [handleMouseDown], with its default threshold. *)
Definition isNearPoint (s : State) (screenX screenY : num) (point : Point)
  : bool :=
  let screenPoint := worldToScreen s (x point) (y point) in
  let dx := screenX - x screenPoint in
  let dy := screenY - y screenPoint in
  Math_sqrt (dx * dx + dy * dy) <? Fin 15.

(** The mouse handlers take [screenX] and [screenY], the pointer position
    relative to the canvas. *)
Definition handleMouseDown (screenX screenY : num) (s : State) : State :=
  let s1 := set_dragStart (mkPoint screenX screenY) s in
  let near := isNearPoint s1 screenX screenY in
  if near (leftPoint s1) then set_dragging (Some DragLeftPoint) s1
  else if near (rightPoint s1) then set_dragging (Some DragRightPoint) s1
  else if near (apparentPosition s1)
  then set_dragging (Some DragApparentPosition) s1
  else
    match realPosition s1 with
    | Some realPos =>
      if near realPos then set_dragging (Some DragRealPosition) s1
      else set_dragging (Some DragViewport) s1
    | None => set_dragging (Some DragViewport) s1
    end.

Definition handleMouseMove (screenX screenY : num) (s : State) : State :=
  let world := screenToWorld s screenX screenY in
  match dragging s with
  | None => s
  | Some DragViewport =>
    let offset :=
      mkPoint (x (viewportOffset s) + (screenX - x (dragStart s)))
              (y (viewportOffset s) + (screenY - y (dragStart s))) in
    set_dragStart (mkPoint screenX screenY) (set_viewportOffset offset s)
  | Some DragLeftPoint =>
    let s1 := set_leftPoint (mkPoint (x world) waterLevelY) s in
    let s2 := set_updatingFromDrag true s1 in
    let s3 := updateAnglesFromPositions s2 in
    set_updatingFromDrag false s3
  | Some DragRightPoint =>
    let s1 := set_rightPoint (mkPoint (x world) waterLevelY) s in
    let s2 := set_updatingFromDrag true s1 in
    let s3 := updateAnglesFromPositions s2 in
    set_updatingFromDrag false s3
  | Some DragApparentPosition =>
    if y world <? waterLevelY then
      let s1 := set_apparentPosition (mkPoint (x world) (y world)) s in
      let s2 := set_updatingFromDrag true s1 in
      let s3 := updateAnglesFromPositions s2 in
      set_updatingFromDrag false s3
    else s
  | Some DragRealPosition =>
    if (y world <? waterLevelY) && lockRealPosition s then
      let realPos := mkPoint (x world) (y world) in
      let s1 := set_updatingFromDrag true s in
      let s2 := updateAnglesFromRealPosition realPos s1 in
      let s3 := updateApparentFromReal s2 in
      set_updatingFromDrag false s3
    else s
  end.

Definition handleMouseUp (s : State) : State := set_dragging None s.

(** *** The callbacks of the three watchers *)

Definition clampAngle (a : num) : num :=
  Math_max (Fin 0) (Math_min (Fin 89.9) a).

Definition angleWatcher (s : State) : State :=
  if updatingFromDrag s then s
  else
    let s1 := set_leftAngleDeg (clampAngle (leftAngleDeg s)) s in
    let s2 := set_rightAngleDeg (clampAngle (rightAngleDeg s1)) s1 in
    updateApparentFromReal s2.

Definition refractiveIndexWatcher (s : State) : State :=
  if lockRealPosition s then updateApparentFromReal s else s.

Definition lockRealPositionWatcher (s : State) : State :=
  updateApparentFromReal s.

End Handlers.

(** ** The component: state, watchers and events

    The script registers its three watchers with [watch(source, callback)]
    and no options.  Vue then runs a callback not at the assignment that
    changes a source but afterwards, when the handler that made the
    assignment has returned: the watcher's job is queued, and when it runs
    it compares the sources with the values it saw last and calls the
    callback if they differ; a callback that changes its own sources
    queues its job again.  [anglesSeen], [indexSeen] and [lockSeen] are
    the values each watcher saw last. *)

Record Component : Type := mkComponent {
  state : State;
  anglesSeen : num * num;
  indexSeen : num;
  lockSeen : bool
}.

Definition setup (s : State) : Component :=
  {| state := s;
     anglesSeen := (leftAngleDeg s, rightAngleDeg s);
     indexSeen := refractiveIndex s;
     lockSeen := lockRealPosition s |}.

Definition with_state (s : State) (c : Component) : Component :=
  mkComponent s (anglesSeen c) (indexSeen c) (lockSeen c).

Definition anglesChanged (c : Component) : bool :=
  negb (sameValue (leftAngleDeg (state c)) (fst (anglesSeen c))
        && sameValue (rightAngleDeg (state c)) (snd (anglesSeen c))).

(** The bound Vue puts on a job that keeps queueing itself. *)
Definition RECURSION_LIMIT : nat := 100.

(** The job of the angle watcher once its sources are known to differ:
    call the callback and remember the values that were compared. *)
Definition angleWatcherJob (c : Component) : Component :=
  mkComponent (angleWatcher (state c))
    (leftAngleDeg (state c), rightAngleDeg (state c))
    (indexSeen c) (lockSeen c).

Fixpoint flushAngleWatcher (fuel : nat) (c : Component) : Component :=
  match fuel with
  | O => c
  | S fuel' =>
    if anglesChanged c then flushAngleWatcher fuel' (angleWatcherJob c)
    else c
  end.

Definition flushRefractiveIndexWatcher (c : Component) : Component :=
  if sameValue (refractiveIndex (state c)) (indexSeen c) then c
  else
    mkComponent (refractiveIndexWatcher (state c)) (anglesSeen c)
      (refractiveIndex (state c)) (lockSeen c).

Definition flushLockRealPositionWatcher (c : Component) : Component :=
  if Bool.eqb (lockRealPosition (state c)) (lockSeen c) then c
  else
    mkComponent (lockRealPositionWatcher (state c)) (anglesSeen c)
      (indexSeen c) (lockRealPosition (state c)).

(** The queued jobs run in the order the watchers were created. *)
Definition flushJobs (c : Component) : Component :=
  flushLockRealPositionWatcher
    (flushRefractiveIndexWatcher (flushAngleWatcher RECURSION_LIMIT c)).

(** What the page can do to the component: the mounted hook, the mouse
    events of the canvas, and the three bound inputs. *)
Inductive Event : Type :=
| Mounted
| MouseDown (screenX screenY : num)
| MouseMove (screenX screenY : num)
| MouseUp
| MouseLeave
| InputRefractiveIndex (v : num)
| InputLeftAngle (v : num)
| InputRightAngle (v : num)
| InputLockRealPosition (v : bool).

(** The synchronous part of an event. *)
Definition handle (e : Event) (s : State) : State :=
  match e with
  | Mounted =>
    updateAnglesFromPositions (set_viewportOffset (mkPoint (Fin 0) (Fin 0)) s)
  | MouseDown screenX screenY => handleMouseDown screenX screenY s
  | MouseMove screenX screenY => handleMouseMove screenX screenY s
  | MouseUp | MouseLeave => handleMouseUp s
  | InputRefractiveIndex v => set_refractiveIndex v s
  | InputLeftAngle v => set_leftAngleDeg v s
  | InputRightAngle v => set_rightAngleDeg v s
  | InputLockRealPosition v => set_lockRealPosition v s
  end.

(** An event: its handler, then the queued watcher jobs. *)
Definition dispatch (e : Event) (c : Component) : Component :=
  flushJobs (with_state (handle e (state c)) c).

Definition run (events : list Event) (c : Component) : Component :=
  fold_left (fun acc e => dispatch e acc) events c.

Definition initialComponent : Component := setup initialState.

(** ** The canvas

    The renderer writes to a 2D context.  A call of a method of the
    context, or an assignment to one of its properties, is a [Command];
    a drawing function returns the commands it issues, in order. *)

(** [a % b] on numbers: the remainder has the sign of [a]. *)
Definition Ztrunc (r : R) : Z := if Rltb r 0 then Zceil r else Zfloor r.

Definition rem (a b : num) : num :=
  match a, b with
  | NaN, _ | _, NaN => NaN
  | Infinity, _ | NegInfinity, _ => NaN
  | Fin p, Infinity | Fin p, NegInfinity => Fin p
  | Fin p, Fin q => if Reqb q 0 then NaN else Fin (p - q * IZR (Ztrunc (p / q)))
  end.

(** The text of [fillText]: a literal, or the template literal that
    prints a number [a] with [a.toFixed(1)] and the degree sign after
    it. *)
Inductive Text : Type :=
| Literal (s : string)
| Degrees (a : num).

Inductive Command : Type :=
| fillStyle (color : string)
| strokeStyle (color : string)
| lineWidth (w : num)
| font (f : string)
| setLineDash (segments : list num)
| save
| restore
| translate (tx ty : num)
| fillRect (rx ry w h : num)
| beginPath
| moveTo (px py : num)
| lineTo (px py : num)
| arc (cx cy radius startAngle endAngle : num) (counterclockwise : bool)
| stroke
| fill
| fillText (text : Text) (px py : num).

(** The canvas element: [canvas.value.width] and [canvas.value.height]. *)
Record Canvas : Type := mkCanvas { width : num; height : num }.

(** The canvas as the mounted hook leaves it. *)
Definition mountedCanvas : Canvas := mkCanvas (Fin 800) (Fin 600).

Section Rendering.
Local Open Scope js_scope.

Definition drawReflectedRay (point : Point) (incidentAngleDeg : num)
    (isLeft : bool) : list Command :=
  let incidentRad := (incidentAngleDeg * Math_PI) / Fin 180 in
  let reflectedRad := if isLeft then - incidentRad else incidentRad in
  let length := Fin 100 in
  let endX :=
    x point
    + length * Math_sin reflectedRad * (if isLeft then Fin (-1) else Fin 1) in
  let endY := y point + length * Math_cos reflectedRad in
  [strokeStyle "#ff6600"%string; lineWidth (Fin 1.5);
   beginPath; moveTo (x point) (y point); lineTo endX endY; stroke].

(** [for (let v = from; v <= to; v += step) body(v)]: [None] when the
    loop is still running after [fuel] rounds. *)
Fixpoint forUpTo (fuel : nat) (from to step : num)
    (body : num -> list Command) : option (list Command) :=
  if le from to then
    match fuel with
    | O => None
    | S fuel' =>
      match forUpTo fuel' (from + step) to step body with
      | Some rest => Some (body from ++ rest)
      | None => None
      end
    end
  else Some [].

Definition drawGrid (fuel : nat) (s : State) (width height : num)
  : option (list Command) :=
  let gridSize := Fin 50 in
  let startX := rem (- x (viewportOffset s)) gridSize - gridSize in
  let startY := rem (- y (viewportOffset s)) gridSize - gridSize in
  let endX := width - x (viewportOffset s) + gridSize in
  let endY := height - y (viewportOffset s) + gridSize in
  match forUpTo fuel startX endX gridSize
          (fun vx => [beginPath; moveTo vx startY; lineTo vx endY; stroke]) with
  | None => None
  | Some vertical =>
    match forUpTo fuel startY endY gridSize
            (fun vy => [beginPath; moveTo startX vy; lineTo endX vy; stroke]) with
    | None => None
    | Some horizontal =>
      Some ([strokeStyle "#2a2a2a"%string; lineWidth (Fin 0.5)]
            ++ vertical ++ horizontal)
    end
  end.

Definition drawAngle (center : Point) (angleDeg : num) (color : string)
    (isLeft : bool) : list Command :=
  let radius := Fin 30 in
  let angleRad := (angleDeg * Math_PI) / Fin 180 in
  let startAngle := - Math_PI / Fin 2 in
  let endAngle :=
    if isLeft then - Math_PI / Fin 2 - angleRad
    else - Math_PI / Fin 2 + angleRad in
  let textAngle := (startAngle + endAngle) / Fin 2 in
  let textX := x center + radius * Fin 1.3 * Math_cos textAngle in
  let textY := y center + radius * Fin 1.3 * Math_sin textAngle in
  [strokeStyle color; lineWidth (Fin 1);
   beginPath; moveTo (x center) (y center);
   arc (x center) (y center) radius startAngle endAngle isLeft; stroke;
   fillStyle color; font "12px Arial"%string;
   fillText (Degrees angleDeg) textX textY].

(** The last block of [drawScene]: the real position, the two refracted
    rays that meet in it and their angles. *)
Definition drawRealPosition (s : State) : list Command :=
  match realPosition s with
  | None => []
  | Some realPos =>
    if negb (isNaN (x realPos)) && negb (isNaN (y realPos)) then
      if (y realPos <? waterLevelY)
         && negb (leftExceedsCritical s) && negb (rightExceedsCritical s)
      then
        [strokeStyle "#ffaa00"%string; lineWidth (Fin 1.5);
         beginPath; moveTo (x (leftPoint s)) (y (leftPoint s));
         lineTo (x realPos) (y realPos); stroke;
         beginPath; moveTo (x (rightPoint s)) (y (rightPoint s));
         lineTo (x realPos) (y realPos); stroke;
         fillStyle "#ffff00"%string; beginPath;
         arc (x realPos) (y realPos) (Fin 8) (Fin 0) (Math_PI * Fin 2) false;
         fill;
         fillStyle "#ffffff"%string;
         fillText (Literal "I (Real)"%string) (x realPos + Fin 15) (y realPos)]
        ++ (if negb (isNaN (leftRefractedAngle s))
               && negb (isNaN (rightRefractedAngle s))
            then
              [fillStyle "#aaaaaa"%string; font "12px Arial"%string;
               fillText (Degrees (leftRefractedAngle s))
                 (x (leftPoint s) - Fin 40) (y (leftPoint s) - Fin 15);
               fillText (Degrees (rightRefractedAngle s))
                 (x (rightPoint s) + Fin 30) (y (rightPoint s) - Fin 15)]
            else [])
      else []
    else []
  end.

(** [drawScene]; [ctx] is [None] until the mounted hook has run. *)
Definition drawScene (fuel : nat) (ctx : option Canvas) (s : State)
  : option (list Command) :=
  match ctx with
  | None => Some []
  | Some canvas =>
    match drawGrid fuel s (width canvas) (height canvas) with
    | None => None
    | Some grid =>
      let offset := viewportOffset s in
      let leftIsLeft := x (apparentPosition s) <? x (leftPoint s) in
      let rightIsLeft := x (apparentPosition s) <? x (rightPoint s) in
      Some
        ([fillStyle "#121212"%string;
          fillRect (Fin 0) (Fin 0) (width canvas) (height canvas);
          save; translate (x offset) (y offset)]
         ++ grid
         ++ [strokeStyle "#0088ff"%string; lineWidth (Fin 2); beginPath;
             moveTo (Fin (-1000) - x offset) waterLevelY;
             lineTo (width canvas + Fin 1000 - x offset) waterLevelY; stroke;
             fillStyle "#ff4488"%string; beginPath;
             arc (x (apparentPosition s)) (y (apparentPosition s)) (Fin 8)
               (Fin 0) (Math_PI * Fin 2) false;
             fill;
             fillStyle "#ffffff"%string; font "14px Arial"%string;
             fillText (Literal "I' (Apparent)"%string)
               (x (apparentPosition s) + Fin 15) (y (apparentPosition s));
             fillStyle "#00ff88"%string; beginPath;
             arc (x (leftPoint s)) (y (leftPoint s)) (Fin 6) (Fin 0)
               (Math_PI * Fin 2) false;
             fill;
             beginPath;
             arc (x (rightPoint s)) (y (rightPoint s)) (Fin 6) (Fin 0)
               (Math_PI * Fin 2) false;
             fill;
             strokeStyle "#444444"%string; lineWidth (Fin 1);
             setLineDash [Fin 5; Fin 5];
             beginPath;
             moveTo (x (leftPoint s)) (waterLevelY - Fin 50);
             lineTo (x (leftPoint s)) (waterLevelY + Fin 50); stroke;
             beginPath;
             moveTo (x (rightPoint s)) (waterLevelY - Fin 50);
             lineTo (x (rightPoint s)) (waterLevelY + Fin 50); stroke;
             setLineDash [];
             strokeStyle "#ffffff"%string; lineWidth (Fin 1.5);
             beginPath;
             moveTo (x (apparentPosition s)) (y (apparentPosition s));
             lineTo (x (leftPoint s)) (y (leftPoint s)); stroke;
             beginPath;
             moveTo (x (apparentPosition s)) (y (apparentPosition s));
             lineTo (x (rightPoint s)) (y (rightPoint s)); stroke]
         ++ drawAngle (leftPoint s)
              (Math_min (leftAngleDeg s) (criticalAngle s)) "#ffffff"%string
              leftIsLeft
         ++ drawAngle (rightPoint s)
              (Math_min (rightAngleDeg s) (criticalAngle s)) "#ffffff"%string
              rightIsLeft
         ++ (if leftExceedsCritical s
             then drawAngle (leftPoint s) (criticalAngle s) "#ff0000"%string
                    leftIsLeft
             else [])
         ++ (if rightExceedsCritical s
             then drawAngle (rightPoint s) (criticalAngle s) "#ff0000"%string
                    rightIsLeft
             else [])
         ++ (if leftExceedsCritical s
             then drawReflectedRay (leftPoint s) (leftAngleDeg s) leftIsLeft
             else [])
         ++ (if rightExceedsCritical s
             then drawReflectedRay (rightPoint s) (rightAngleDeg s) rightIsLeft
             else [])
         ++ drawRealPosition s
         ++ [restore])
    end
  end.

End Rendering.

(** ** The messages of the page

    The two messages of the template: [v-if="leftAngleDeg > criticalAngle"]
    and [v-if="rightAngleDeg > criticalAngle"]. *)
Definition leftTotalInternalReflectionShown (s : State) : bool :=
  lt (criticalAngle s) (leftAngleDeg s).

Definition rightTotalInternalReflectionShown (s : State) : bool :=
  lt (criticalAngle s) (rightAngleDeg s).

(** ** The critical angle in binary64

    The numbers of the program are IEEE binary64 numbers, and [Math.sin]
    and [Math.asin] are the engine's.  The three computeds of the
    critical angle are embedded here over Rocq's binary64 numbers, whose
    arithmetic is the correctly rounded one of JavaScript.  ECMAScript
    leaves [Math.asin] and [Math.sin] to the engine; they are embedded
    as fdlibm computes them ([e_asin.c], [k_sin.c], [s_sin.c]), the
    library the engines took them from, coefficient by coefficient.
    [Math_sin] goes as far as fdlibm computes a sine without reducing
    its argument (below about a quarter of pi, which holds the critical
    angle of every index from 1.42 up); beyond that it is [None], the
    part of the library that is not embedded. *)

Module Binary64.
Import Uint63 PrimFloat.
Local Open Scope float_scope.

Definition Math_PI : float := 0x1.921fb54442d18p+1.

(** [__LO(w) = 0] on a normal number: the low 32 bits of its significand
    are cleared. *)
Definition clearLowWord (w : float) : float :=
  let (m, e) := frshiftexp w in
  let significand := Uint63.land (normfr_mantissa m) 0x1FFFFF00000000 in
  if Uint63.eqb (normfr_mantissa m) 0 then w
  else
    let r := ldshiftexp (of_uint63 significand) (Uint63.sub e 53) in
    if ltb w 0 then opp r else r.

(** The constants of [e_asin.c]. *)
Definition pio2_hi : float := 0x1.921fb54442d18p+0.
Definition pio2_lo : float := 0x1.1a62633145c07p-54.
Definition pio4_hi : float := 0x1.921fb54442d18p-1.
Definition pS0 : float := 0x1.5555555555555p-3.
Definition pS1 : float := -0x1.4d61203eb6f7dp-2.
Definition pS2 : float := 0x1.9c1550e884455p-3.
Definition pS3 : float := -0x1.48228b5688f3bp-5.
Definition pS4 : float := 0x1.9efe07501b288p-11.
Definition pS5 : float := 0x1.23de10dfdf709p-15.
Definition qS1 : float := -0x1.33a271c8a2d4bp+1.
Definition qS2 : float := 0x1.02ae59c598ac8p+1.
Definition qS3 : float := -0x1.6066c1b8d0159p-1.
Definition qS4 : float := 0x1.3b8c5b12e9282p-4.

(** [Math.asin]: the tests on the high word of [x] are written as the
    comparisons of [|x|] they amount to ([1], [0.5], [2^-27] and
    [0x3FEF3333], about 0.975). *)
Definition Math_asin (x : float) : float :=
  let ax := abs x in
  if ltb ax 1 then
    if ltb ax 0.5 then
      if ltb ax 0x1p-27 then x
      else
        let t := x * x in
        let p :=
          t * (pS0 + t * (pS1 + t * (pS2 + t * (pS3 + t * (pS4 + t * pS5)))))
        in
        let q := 1 + t * (qS1 + t * (qS2 + t * (qS3 + t * qS4))) in
        let w := p / q in
        x + x * w
    else
      let w := 1 - ax in
      let t := w * 0.5 in
      let p :=
        t * (pS0 + t * (pS1 + t * (pS2 + t * (pS3 + t * (pS4 + t * pS5)))))
      in
      let q := 1 + t * (qS1 + t * (qS2 + t * (qS3 + t * qS4))) in
      let s := sqrt t in
      let t :=
        if leb 0x1.f333300000000p-1 ax then
          let w := p / q in
          pio2_hi - (2 * (s + s * w) - pio2_lo)
        else
          let w := clearLowWord s in
          let c := (t - w * w) / (s + w) in
          let r := p / q in
          let p := 2 * s * r - (pio2_lo - 2 * c) in
          let q := pio4_hi - 2 * w in
          pio4_hi - (p - q) in
      if ltb 0 x then t else - t
  else if eqb ax 1 then x * pio2_hi + x * pio2_lo
  else (x - x) / (x - x).

(** The constants of [k_sin.c]. *)
Definition S1 : float := -0x1.5555555555549p-3.
Definition S2 : float := 0x1.111111110f8a6p-7.
Definition S3 : float := -0x1.a01a019c161d5p-13.
Definition S4 : float := 0x1.71de357b1fe7dp-19.
Definition S5 : float := -0x1.ae5e68a2b9cebp-26.
Definition S6 : float := 0x1.5d93a5acfd57cp-33.

(** [__kernel_sin(x, 0, 0)]. *)
Definition kernel_sin (x : float) : float :=
  if ltb (abs x) 0x1p-27 then x
  else
    let z := x * x in
    let v := z * x in
    let r := S2 + z * (S3 + z * (S4 + z * (S5 + z * S6))) in
    x + v * (S1 + z * r).

(** [Math.sin] where the high word of [|x|] is at most [0x3FE921FB]. *)
Definition Math_sin (x : float) : option float :=
  if ltb (abs x) 0x1.921fcp-1 then Some (kernel_sin x) else None.

Definition airIndex : float := 1.0.

(** [criticalAngle], and [leftExceedsCritical] and [leftRefractedAngle]
    with their twins of the right side, as functions of the values of
    the refs they read. *)
Definition criticalAngle (refractiveIndex : float) : float :=
  (Math_asin (airIndex / refractiveIndex) * 180) / Math_PI.

Definition exceedsCritical (refractiveIndex angleDeg : float) : bool :=
  leb (criticalAngle refractiveIndex) angleDeg.

Definition refractedAngle (refractiveIndex angleDeg : float) : option float :=
  if exceedsCritical refractiveIndex angleDeg then Some nan
  else
    let incidentRad := (angleDeg * Math_PI) / 180 in
    match Math_sin incidentRad with
    | Some sine =>
      let refractedRad := Math_asin ((refractiveIndex / airIndex) * sine) in
      Some ((refractedRad * 180) / Math_PI)
    | None => None
    end.

End Binary64.

(** ** States and predicates the statements use *)

(** The slopes of the two refracted rays that [realPosition] intersects. *)
Definition realLeftSlope (s : State) : num :=
  slope (leftPoint s)
    (calculateRayPoint (leftPoint s) (leftRefractedAngle s) (Fin 1000)
       (lt (x (apparentPosition s)) (x (leftPoint s)))).

Definition realRightSlope (s : State) : num :=
  slope (rightPoint s)
    (calculateRayPoint (rightPoint s) (rightRefractedAngle s) (Fin 1000)
       (lt (x (apparentPosition s)) (x (rightPoint s)))).

(** The two slopes [realPosition] has computed are equal:
    [leftSlope == rightSlope], the case in which it divides by
    [leftSlope - rightSlope = 0], or by [NaN] when both slopes are the
    same infinity. *)
Definition raysParallel (s : State) : bool :=
  eqb (realLeftSlope s) (realRightSlope s).

Definition pointsOnInterface (s : State) : Prop :=
  y (leftPoint s) = waterLevelY /\ y (rightPoint s) = waterLevelY.

(** Both angle fields set, as the two inputs leave them. *)
Definition withAngles (l r : num) (s : State) : State :=
  set_rightAngleDeg r (set_leftAngleDeg l s).

(** The two sides compute their flag and their refracted angle by the
    same expressions; these are the expressions, on the index and the
    angle of a side. *)
Definition exceedsCriticalOf (n angleDeg : num) : bool :=
  ge angleDeg (div (mul (Math_asin (div airIndex n)) (Fin 180)) Math_PI).

Definition refractedAngleOf (n angleDeg : num) : num :=
  if exceedsCriticalOf n angleDeg then NaN
  else
    div (mul (Math_asin (mul (div n airIndex)
                           (Math_sin (div (mul angleDeg Math_PI) (Fin 180)))))
           (Fin 180)) Math_PI.

(** The critical angle in degrees, as a real number. *)
Definition criticalDeg (n : R) : R := asin (1 / n) * 180 / PI.

(** The horizontal direction of a ray: [xDirection] of [calculateRayPoint]. *)
Definition direction (isLeft : bool) : R := if isLeft then -1 else 1.

(** The cotangent of an angle given in degrees. *)
Definition cotDeg (a : R) : R := cos (a * PI / 180) / sin (a * PI / 180).

(** No watcher has a change of its sources left to react to. *)
Definition settled (c : Component) : Prop :=
  anglesChanged c = false /\
  indexSeen c = refractiveIndex (state c) /\
  lockSeen c = lockRealPosition (state c).

(** An angle the clamp of the angle watcher leaves as it is. *)
Definition clamped (a : num) : Prop :=
  a = NaN \/ exists r, a = Fin r /\ 0 <= r <= 89.9.

(** What the callbacks of the watchers have no assignment to: everything
    but the two angles and the apparent position. *)
Definition outsideWatchers (s : State) :=
  (refractiveIndex s, leftPoint s, rightPoint s, lockRealPosition s,
   viewportOffset s, dragging s, dragStart s, updatingFromDrag s,
   updatingFromAngleChange s).

(** The optical state: everything but the viewport and the drag in
    progress. *)
Definition scene (s : State) :=
  (refractiveIndex s, leftPoint s, rightPoint s, apparentPosition s,
   lockRealPosition s, leftAngleDeg s, rightAngleDeg s).

(** The distance on the screen between the pointer at [(sx, sy)] and the
    world point [(px, py)], under the viewport offset [(ox, oy)]. *)
Definition screenDistance (ox oy sx sy px py : R) : R :=
  sqrt ((sx - (px + ox)) * (sx - (px + ox))
        + (sy - (py + oy)) * (sy - (py + oy))).

(** The component is mounted, the coupling mode is switched off, and 0
    is typed into both angle inputs. *)
Definition verticalRays : list Event :=
  [Mounted; InputLockRealPosition false;
   InputLeftAngle (Fin 0); InputRightAngle (Fin 0)].

(** * Properties *)

(** ** Comparisons of reals as booleans *)

Lemma Rltb_true (a b : R) : a < b -> Rltb a b = true.
Proof. intros H; unfold Rltb; destruct (Rlt_dec a b); [reflexivity | contradiction]. Qed.

Lemma Rltb_false (a b : R) : b <= a -> Rltb a b = false.
Proof. intros H; unfold Rltb; destruct (Rlt_dec a b); [lra | reflexivity]. Qed.

Lemma Rleb_true (a b : R) : a <= b -> Rleb a b = true.
Proof. intros H; unfold Rleb; destruct (Rle_dec a b); [reflexivity | contradiction]. Qed.

Lemma Rleb_false (a b : R) : b < a -> Rleb a b = false.
Proof. intros H; unfold Rleb; destruct (Rle_dec a b); [lra | reflexivity]. Qed.

Lemma Reqb_true (a b : R) : a = b -> Reqb a b = true.
Proof. intros H; unfold Reqb; destruct (Req_dec_T a b); [reflexivity | contradiction]. Qed.

Lemma Reqb_false (a b : R) : a <> b -> Reqb a b = false.
Proof. intros H; unfold Reqb; destruct (Req_dec_T a b); [contradiction | reflexivity]. Qed.

Lemma Rltb_spec (a b : R) : Rltb a b = true <-> a < b.
Proof.
  unfold Rltb; destruct (Rlt_dec a b) as [e | ne]; split; intros H;
    [exact e | reflexivity | discriminate H | destruct (ne H)].
Qed.

Lemma Rleb_spec (a b : R) : Rleb a b = true <-> a <= b.
Proof.
  unfold Rleb; destruct (Rle_dec a b) as [e | ne]; split; intros H;
    [exact e | reflexivity | discriminate H | destruct (ne H)].
Qed.

Lemma Reqb_spec (a b : R) : Reqb a b = true <-> a = b.
Proof.
  unfold Reqb; destruct (Req_dec_T a b) as [e | ne]; split; intros H;
    [exact e | reflexivity | discriminate H | destruct (ne H)].
Qed.

(** ** Arithmetic on finite numbers *)

Lemma add_Fin (a b : R) : add (Fin a) (Fin b) = Fin (a + b).
Proof. reflexivity. Qed.

Lemma sub_Fin (a b : R) : sub (Fin a) (Fin b) = Fin (a - b).
Proof. reflexivity. Qed.

Lemma mul_Fin (a b : R) : mul (Fin a) (Fin b) = Fin (a * b).
Proof. reflexivity. Qed.

Lemma div_Fin (a b : R) : b <> 0 -> div (Fin a) (Fin b) = Fin (a / b).
Proof. intros H; simpl; rewrite Reqb_false by assumption; reflexivity. Qed.

Lemma div_Fin_zero (a : R) : div (Fin a) (Fin 0) = inf_times false a.
Proof. simpl; rewrite Reqb_true by reflexivity; reflexivity. Qed.

Lemma lt_Fin (a b : R) : lt (Fin a) (Fin b) = Rltb a b.
Proof. reflexivity. Qed.

Lemma ge_Fin (a b : R) : ge (Fin a) (Fin b) = Rleb b a.
Proof. reflexivity. Qed.

Lemma ge_NaN_r (a : num) : ge a NaN = false.
Proof. destruct a; reflexivity. Qed.

Lemma PI_neq0' : PI <> 0.
Proof. pose proof PI_RGT_0; lra. Qed.

(** Degrees to radians and back, on finite angles. *)
Lemma toRad_Fin (a : R) :
  div (mul (Fin a) Math_PI) (Fin 180) = Fin (a * PI / 180).
Proof. unfold Math_PI; rewrite mul_Fin, div_Fin by lra; reflexivity. Qed.

Lemma toDeg_Fin (a : R) :
  div (mul (Fin a) (Fin 180)) Math_PI = Fin (a * 180 / PI).
Proof. unfold Math_PI; rewrite mul_Fin, div_Fin by apply PI_neq0'; reflexivity. Qed.

Lemma Math_asin_Fin (a : R) : -1 <= a <= 1 -> Math_asin (Fin a) = Fin (asin a).
Proof. intros [H1 H2]; simpl; rewrite !Rleb_true by assumption; reflexivity. Qed.

Lemma Math_asin_out (a : R) : a < -1 \/ 1 < a -> Math_asin (Fin a) = NaN.
Proof.
  intros [H | H]; simpl.
  - rewrite (Rleb_false (-1) a) by assumption; reflexivity.
  - rewrite (Rleb_false a 1) by assumption; rewrite andb_false_r; reflexivity.
Qed.

(** ** What each function leaves alone *)

Lemma updateApparentFromReal_cases (s : State) :
  updateApparentFromReal s = s \/
  exists p, updateApparentFromReal s = set_apparentPosition p s.
Proof.
  unfold updateApparentFromReal.
  destruct (negb (lockRealPosition s)); [left; reflexivity |].
  destruct (realPosition s) as [realPos |]; [| left; reflexivity].
  destruct (ge (y realPos) waterLevelY || leftExceedsCritical s
            || rightExceedsCritical s);
    [left; reflexivity | right; eexists; reflexivity].
Qed.

Lemma updateApparentFromReal_leftPoint (s : State) :
  leftPoint (updateApparentFromReal s) = leftPoint s.
Proof. destruct (updateApparentFromReal_cases s) as [-> | [p ->]]; reflexivity. Qed.

Lemma updateApparentFromReal_rightPoint (s : State) :
  rightPoint (updateApparentFromReal s) = rightPoint s.
Proof. destruct (updateApparentFromReal_cases s) as [-> | [p ->]]; reflexivity. Qed.

Lemma updateApparentFromReal_leftAngleDeg (s : State) :
  leftAngleDeg (updateApparentFromReal s) = leftAngleDeg s.
Proof. destruct (updateApparentFromReal_cases s) as [-> | [p ->]]; reflexivity. Qed.

Lemma updateApparentFromReal_rightAngleDeg (s : State) :
  rightAngleDeg (updateApparentFromReal s) = rightAngleDeg s.
Proof. destruct (updateApparentFromReal_cases s) as [-> | [p ->]]; reflexivity. Qed.

Lemma updateApparentFromReal_updatingFromDrag (s : State) :
  updatingFromDrag (updateApparentFromReal s) = updatingFromDrag s.
Proof. destruct (updateApparentFromReal_cases s) as [-> | [p ->]]; reflexivity. Qed.

Lemma updateApparentFromReal_pointsOnInterface (s : State) :
  pointsOnInterface s -> pointsOnInterface (updateApparentFromReal s).
Proof.
  unfold pointsOnInterface.
  rewrite updateApparentFromReal_leftPoint, updateApparentFromReal_rightPoint.
  trivial.
Qed.

Lemma angleWatcher_pointsOnInterface (s : State) :
  pointsOnInterface s -> pointsOnInterface (angleWatcher s).
Proof.
  intros H; unfold angleWatcher.
  destruct (updatingFromDrag s); [assumption |].
  apply updateApparentFromReal_pointsOnInterface; exact H.
Qed.

Lemma handleMouseDown_pointsOnInterface (sx sy : num) (s : State) :
  pointsOnInterface s -> pointsOnInterface (handleMouseDown sx sy s).
Proof.
  intros H; unfold handleMouseDown.
  repeat match goal with
  | |- context [if ?b then _ else _] => destruct b
  | |- context [match ?o with Some _ => _ | None => _ end] => destruct o
  end; exact H.
Qed.

Lemma handleMouseMove_pointsOnInterface (sx sy : num) (s : State) :
  pointsOnInterface s -> pointsOnInterface (handleMouseMove sx sy s).
Proof.
  intros H; unfold handleMouseMove.
  destruct (dragging s) as [[| | | |] |]; try exact H.
  - split; [reflexivity | apply H].
  - split; [apply H | reflexivity].
  - destruct (lt _ _); exact H.
  - destruct (_ && _); [| exact H].
    unfold pointsOnInterface; cbn [set_updatingFromDrag leftPoint rightPoint].
    rewrite updateApparentFromReal_leftPoint, updateApparentFromReal_rightPoint.
    exact H.
Qed.

Lemma handle_pointsOnInterface (e : Event) (s : State) :
  pointsOnInterface s -> pointsOnInterface (handle e s).
Proof.
  intros H; destruct e; cbn [handle]; try exact H.
  - apply handleMouseDown_pointsOnInterface; exact H.
  - apply handleMouseMove_pointsOnInterface; exact H.
Qed.

Lemma flushAngleWatcher_pointsOnInterface (fuel : nat) (c : Component) :
  pointsOnInterface (state c) ->
  pointsOnInterface (state (flushAngleWatcher fuel c)).
Proof.
  revert c; induction fuel as [| fuel IH]; intros c H; cbn [flushAngleWatcher].
  - exact H.
  - destruct (anglesChanged c); [| exact H].
    apply IH; unfold angleWatcherJob; cbn [state].
    apply angleWatcher_pointsOnInterface; exact H.
Qed.

Lemma flushJobs_pointsOnInterface (c : Component) :
  pointsOnInterface (state c) -> pointsOnInterface (state (flushJobs c)).
Proof.
  intros H; unfold flushJobs.
  apply (flushAngleWatcher_pointsOnInterface RECURSION_LIMIT) in H.
  set (c1 := flushAngleWatcher RECURSION_LIMIT c) in *.
  assert (H2 : pointsOnInterface (state (flushRefractiveIndexWatcher c1))).
  { unfold flushRefractiveIndexWatcher.
    destruct (sameValue _ _); [exact H |].
    cbn [state]; unfold refractiveIndexWatcher.
    destruct (lockRealPosition (state c1)); [| exact H].
    apply updateApparentFromReal_pointsOnInterface; exact H. }
  set (c2 := flushRefractiveIndexWatcher c1) in *.
  unfold flushLockRealPositionWatcher.
  destruct (Bool.eqb _ _); [exact H2 |].
  cbn [state]; apply updateApparentFromReal_pointsOnInterface; exact H2.
Qed.

Lemma dispatch_pointsOnInterface (e : Event) (c : Component) :
  pointsOnInterface (state c) -> pointsOnInterface (state (dispatch e c)).
Proof.
  intros H; unfold dispatch.
  apply flushJobs_pointsOnInterface; cbn [with_state state].
  apply handle_pointsOnInterface; exact H.
Qed.

Lemma run_cons (e : Event) (events : list Event) (c : Component) :
  run (e :: events) c = run events (dispatch e c).
Proof. reflexivity. Qed.

Lemma run_pointsOnInterface (events : list Event) (c : Component) :
  pointsOnInterface (state c) -> pointsOnInterface (state (run events c)).
Proof.
  revert c.
  induction events as [| e events IH]; intros c H.
  - exact H.
  - rewrite run_cons; apply IH, dispatch_pointsOnInterface; exact H.
Qed.

(** ** C9, C10 and the guards of the update and of the drags *)

(** The guard of [updateApparentFromReal]: it returns the state it was
    given, with the apparent position and everything else as they were,
    whenever [realPosition] is [null], or lies at or below the interface
    ([y >= waterLevelY]), or either side is in total internal
    reflection.  A real position that is a point of [NaN] coordinates
    passes all four tests; the section on C8 below follows it. *)
Lemma updateApparentFromReal_guarded (s : State) :
  realPosition s = None \/
  (exists p, realPosition s = Some p /\ ge (y p) waterLevelY = true) \/
  leftExceedsCritical s = true \/ rightExceedsCritical s = true ->
  updateApparentFromReal s = s.
Proof.
  intros H; unfold updateApparentFromReal.
  destruct (negb (lockRealPosition s)); [reflexivity |].
  destruct H as [H | [[p [Hp Hy]] | [H | H]]].
  - rewrite H; reflexivity.
  - rewrite Hp, Hy; reflexivity.
  - destruct (realPosition s); [| reflexivity].
    rewrite H, orb_true_r; reflexivity.
  - destruct (realPosition s); [| reflexivity].
    rewrite H, orb_true_r; reflexivity.
Qed.

(** C9.  The component has exactly two refraction points, the fields
    [leftPoint] and [rightPoint] of its state, and both lie on the
    interface ([y = waterLevelY]) in the initial state and after every
    sequence of events: a drag of a refraction point writes [waterLevelY]
    as its [y] and nothing else assigns to the two points. *)
Theorem C9_refractionPoints_on_interface (events : list Event) :
  y (leftPoint (state (run events initialComponent))) = waterLevelY /\
  y (rightPoint (state (run events initialComponent))) = waterLevelY.
Proof.
  apply run_pointsOnInterface.
  split; reflexivity.
Qed.

(** C10.  While the apparent position is being dragged, the mouse-move
    handler accepts the pointer's world position only when its [y] is
    strictly less than [waterLevelY]: then it becomes the apparent
    position; for every other target ([y >= waterLevelY], or a [y] that
    compares false) the handler returns the state unchanged, the apparent
    position and both angles included. *)
Theorem C10_apparent_drag_guard (screenX screenY : num) (s : State) :
  dragging s = Some DragApparentPosition ->
  let world := screenToWorld s screenX screenY in
  (lt (y world) waterLevelY = true ->
   apparentPosition (handleMouseMove screenX screenY s) = world) /\
  (lt (y world) waterLevelY = false ->
   handleMouseMove screenX screenY s = s) /\
  (ge (y world) waterLevelY = true ->
   apparentPosition (handleMouseMove screenX screenY s) = apparentPosition s /\
   leftAngleDeg (handleMouseMove screenX screenY s) = leftAngleDeg s /\
   rightAngleDeg (handleMouseMove screenX screenY s) = rightAngleDeg s).
Proof.
  intros Hd world.
  assert (Hstep : handleMouseMove screenX screenY s
                  = if lt (y world) waterLevelY
                    then set_updatingFromDrag false
                           (updateAnglesFromPositions
                              (set_updatingFromDrag true
                                 (set_apparentPosition
                                    (mkPoint (x world) (y world)) s)))
                    else s).
  { unfold handleMouseMove; rewrite Hd; reflexivity. }
  assert (Hrej : lt (y world) waterLevelY = false ->
                 handleMouseMove screenX screenY s = s).
  { intros Hlt; rewrite Hstep, Hlt; reflexivity. }
  split; [| split; [exact Hrej |]].
  - intros Hlt; rewrite Hstep, Hlt; destruct world; reflexivity.
  - intros Hge.
    assert (Hlt : lt (y world) waterLevelY = false).
    { destruct (y world) as [| | | r]; try reflexivity; try discriminate Hge.
      unfold waterLevelY in *; rewrite ge_Fin in Hge; rewrite lt_Fin.
      apply Rleb_spec in Hge; apply Rltb_false; exact Hge. }
    rewrite (Hrej Hlt); repeat split.
Qed.

(** ** Snell's law and the critical angle *)

Lemma leftRefractedAngle_eq (s : State) :
  leftRefractedAngle s = refractedAngleOf (refractiveIndex s) (leftAngleDeg s).
Proof. reflexivity. Qed.

Lemma rightRefractedAngle_eq (s : State) :
  rightRefractedAngle s = refractedAngleOf (refractiveIndex s) (rightAngleDeg s).
Proof. reflexivity. Qed.

Lemma leftExceedsCritical_eq (s : State) :
  leftExceedsCritical s = exceedsCriticalOf (refractiveIndex s) (leftAngleDeg s).
Proof. reflexivity. Qed.

Lemma rightExceedsCritical_eq (s : State) :
  rightExceedsCritical s = exceedsCriticalOf (refractiveIndex s) (rightAngleDeg s).
Proof. reflexivity. Qed.

Lemma asin_lt_of_lt_sin (v a : R) :
  -1 <= v <= 1 -> - (PI / 2) <= a <= PI / 2 -> v < sin a -> asin v < a.
Proof.
  intros Hv Ha H.
  destruct (Rlt_dec (asin v) a) as [Hlt | Hge]; [exact Hlt | exfalso].
  apply Rnot_lt_le in Hge.
  pose proof (asin_bound v) as Hb.
  assert (Hs : sin a <= sin (asin v)) by (apply sin_incr_1; lra).
  rewrite sin_asin in Hs by assumption; lra.
Qed.

Lemma asin_gt_of_sin_lt (v a : R) :
  -1 <= v <= 1 -> - (PI / 2) <= a <= PI / 2 -> sin a < v -> a < asin v.
Proof.
  intros Hv Ha H.
  destruct (Rlt_dec a (asin v)) as [Hlt | Hge]; [exact Hlt | exfalso].
  apply Rnot_lt_le in Hge.
  pose proof (asin_bound v) as Hb.
  assert (Hs : sin (asin v) <= sin a) by (apply sin_incr_1; lra).
  rewrite sin_asin in Hs by assumption; lra.
Qed.

Lemma asin_increasing (u v : R) : -1 <= u -> u < v -> v <= 1 -> asin u < asin v.
Proof.
  intros Hu Huv Hv.
  apply asin_lt_of_lt_sin; [lra | apply asin_bound |].
  rewrite sin_asin by lra; exact Huv.
Qed.

Lemma asin_monotone (u v : R) : -1 <= u -> u <= v -> v <= 1 -> asin u <= asin v.
Proof.
  intros Hu [Huv | ->] Hv; [left; apply asin_increasing; assumption | right; reflexivity].
Qed.

Lemma asin_nonneg (v : R) : 0 <= v <= 1 -> 0 <= asin v.
Proof.
  intros [H0 H1]; rewrite <- asin_0; apply asin_monotone; lra.
Qed.

Lemma asin_pos (v : R) : 0 < v <= 1 -> 0 < asin v.
Proof.
  intros [H0 H1]; rewrite <- asin_0; apply asin_increasing; lra.
Qed.

Lemma inv_index_range (n : R) : 1 <= n -> 0 < 1 / n <= 1.
Proof.
  intros Hn; split.
  - apply Rdiv_lt_0_compat; lra.
  - apply Rmult_le_reg_r with n; [lra |]. field_simplify; lra.
Qed.

Lemma criticalDeg_range (n : R) : 1 <= n -> 0 < criticalDeg n <= 90.
Proof.
  intros Hn; unfold criticalDeg.
  pose proof (inv_index_range n Hn) as Hr.
  pose proof (asin_pos (1 / n) Hr) as Hp.
  pose proof (asin_bound (1 / n)) as Hb.
  pose proof PI_RGT_0 as Hpi.
  split.
  - apply Rdiv_lt_0_compat; lra.
  - apply Rmult_le_reg_r with PI; [exact Hpi |].
    unfold Rdiv; rewrite Rmult_assoc, Rinv_l by lra; lra.
Qed.

Lemma criticalDeg_one : criticalDeg 1 = 90.
Proof.
  unfold criticalDeg; replace (1 / 1) with 1 by field.
  rewrite asin_1; field; apply PI_neq0'.
Qed.

Lemma deg_rad_lt (a b : R) : a < b -> a * PI / 180 < b * PI / 180.
Proof. intros H; pose proof PI_RGT_0; nra. Qed.

Lemma criticalDeg_rad (n : R) : criticalDeg n * PI / 180 = asin (1 / n).
Proof. unfold criticalDeg; field; apply PI_neq0'. Qed.

(** Below the critical angle the argument of the arcsine stays below 1. *)
Lemma below_critical_sin (n a : R) :
  1 <= n -> 0 <= a -> a < criticalDeg n ->
  0 <= n * sin (a * PI / 180) < 1.
Proof.
  intros Hn Ha Hlt.
  pose proof (inv_index_range n Hn) as Hr.
  pose proof (asin_bound (1 / n)) as Hb.
  pose proof PI_RGT_0 as Hpi.
  apply deg_rad_lt in Hlt; rewrite criticalDeg_rad in Hlt.
  assert (H0 : 0 <= a * PI / 180) by nra.
  assert (Hs : sin (a * PI / 180) < sin (asin (1 / n)))
    by (apply sin_increasing_1; lra).
  rewrite sin_asin in Hs by lra.
  assert (Hs0 : 0 <= sin (a * PI / 180)) by (apply sin_ge_0; lra).
  split; [nra |].
  apply Rmult_lt_compat_l with (r := n) in Hs; [| lra].
  replace (n * (1 / n)) with 1 in Hs by (field; lra); exact Hs.
Qed.

Lemma criticalAngle_Fin (s : State) (n : R) :
  refractiveIndex s = Fin n -> 1 <= n ->
  criticalAngle s = Fin (criticalDeg n).
Proof.
  intros Hs Hn; unfold criticalAngle, airIndex; rewrite Hs.
  pose proof (inv_index_range n Hn) as Hr.
  rewrite div_Fin by lra.
  rewrite Math_asin_Fin by lra.
  rewrite toDeg_Fin; reflexivity.
Qed.

Lemma criticalAngle_NaN (s : State) (n : R) :
  refractiveIndex s = Fin n -> -1 < n < 1 -> criticalAngle s = NaN.
Proof.
  intros Hs Hn; unfold criticalAngle, airIndex; rewrite Hs.
  destruct (Req_dec_T n 0) as [-> | Hn0].
  - rewrite div_Fin_zero; unfold inf_times.
    rewrite Rltb_true by lra; reflexivity.
  - rewrite div_Fin by assumption.
    rewrite Math_asin_out; [reflexivity |].
    destruct (Rlt_dec n 0) as [Hneg | Hpos].
    + left. apply Rmult_lt_reg_r with (- n); [lra |].
      replace (1 / n * - n) with (-1) by (field; lra); lra.
    + right. apply Rmult_lt_reg_r with n; [lra |].
      replace (1 / n * n) with 1 by (field; lra); lra.
Qed.

Lemma exceedsCriticalOf_Fin (n a : R) :
  1 <= n -> exceedsCriticalOf (Fin n) (Fin a) = Rleb (criticalDeg n) a.
Proof.
  intros Hn; unfold exceedsCriticalOf, airIndex.
  pose proof (inv_index_range n Hn) as Hr.
  rewrite div_Fin by lra.
  rewrite Math_asin_Fin by lra.
  rewrite toDeg_Fin; reflexivity.
Qed.

(** The refracted angle of a side that is below the critical angle. *)
Lemma refractedAngleOf_below (n a : R) :
  1 <= n -> 0 <= a -> a < criticalDeg n ->
  refractedAngleOf (Fin n) (Fin a)
  = Fin (asin (n * sin (a * PI / 180)) * 180 / PI).
Proof.
  intros Hn Ha Hlt; unfold refractedAngleOf.
  rewrite exceedsCriticalOf_Fin by assumption.
  rewrite Rleb_false by assumption.
  pose proof (below_critical_sin n a Hn Ha Hlt) as Hsin.
  rewrite toRad_Fin; unfold airIndex; rewrite div_Fin by lra.
  cbn [Math_sin]; rewrite mul_Fin.
  replace (n / 1 * sin (a * PI / 180)) with (n * sin (a * PI / 180)) by field.
  rewrite Math_asin_Fin by lra.
  rewrite toDeg_Fin; reflexivity.
Qed.

Lemma refractedAngleOf_beyond (n a : R) :
  1 <= n -> criticalDeg n <= a -> refractedAngleOf (Fin n) (Fin a) = NaN.
Proof.
  intros Hn Hge; unfold refractedAngleOf.
  rewrite exceedsCriticalOf_Fin by assumption.
  rewrite Rleb_true by assumption; reflexivity.
Qed.

Lemma rad_deg_lt (t b : R) : t < b * PI / 180 -> t * 180 / PI < b.
Proof.
  intros H; pose proof PI_RGT_0 as Hpi.
  apply Rmult_lt_reg_r with (PI / 180); [lra |].
  replace (t * 180 / PI * (PI / 180)) with t by (field; lra); lra.
Qed.

Lemma rad_deg_le (t b : R) : b * PI / 180 <= t -> b <= t * 180 / PI.
Proof.
  intros H; pose proof PI_RGT_0 as Hpi.
  apply Rmult_le_reg_r with (PI / 180); [lra |].
  replace (t * 180 / PI * (PI / 180)) with t by (field; lra); lra.
Qed.

Lemma rad_deg_gt (t b : R) : b * PI / 180 < t -> b < t * 180 / PI.
Proof.
  intros H; pose proof PI_RGT_0 as Hpi.
  apply Rmult_lt_reg_r with (PI / 180); [lra |].
  replace (t * 180 / PI * (PI / 180)) with t by (field; lra); lra.
Qed.

(** A valid refracted angle: finite, at least the incident angle, below 90. *)
Lemma refracted_valid (n a : R) :
  1 <= n -> 0 <= a -> a < criticalDeg n ->
  a <= asin (n * sin (a * PI / 180)) * 180 / PI < 90.
Proof.
  intros Hn Ha Hlt.
  pose proof (below_critical_sin n a Hn Ha Hlt) as Hsin.
  pose proof (criticalDeg_range n Hn) as Hc.
  pose proof PI_RGT_0 as Hpi.
  assert (Hrad : 0 <= a * PI / 180 < PI / 2) by (split; nra).
  assert (Hs1 : 0 <= sin (a * PI / 180) <= 1).
  { split; [apply sin_ge_0; lra | apply SIN_bound]. }
  split.
  - apply rad_deg_le.
    rewrite <- (asin_sin (a * PI / 180)) at 1 by lra.
    apply asin_monotone; [lra | nra | lra].
  - apply rad_deg_lt.
    replace (90 * PI / 180) with (PI / 2) by field.
    rewrite <- asin_1; apply asin_increasing; lra.
Qed.

(** As the incident angle approaches the critical angle from below, the
    refracted angle approaches 90 degrees. *)
Lemma refracted_near_90 (n eps : R) :
  1 <= n -> 0 < eps ->
  exists delta, 0 < delta /\
    forall a, 0 <= a -> criticalDeg n - delta < a < criticalDeg n ->
      90 - eps < asin (n * sin (a * PI / 180)) * 180 / PI.
Proof.
  intros Hn Heps.
  pose proof PI_RGT_0 as Hpi.
  pose proof (criticalDeg_range n Hn) as Hc.
  pose proof (inv_index_range n Hn) as Hr.
  destruct (Rlt_dec 90 eps) as [Hbig | Hsmall].
  - exists 1; split; [lra |]; intros a Ha [_ Hlt].
    pose proof (refracted_valid n a Hn Ha Hlt); lra.
  - apply Rnot_lt_le in Hsmall.
    set (b := (90 - eps) * PI / 180).
    assert (Hb : 0 <= b < PI / 2) by (unfold b; split; nra).
    assert (Hsb : 0 <= sin b < 1).
    { split; [apply sin_ge_0; lra |].
      rewrite <- sin_PI2; apply sin_increasing_1; lra. }
    set (u := sin b / n).
    assert (Hu : 0 <= u < 1 / n).
    { unfold u; split.
      - apply Rmult_le_pos; [lra | left; apply Rinv_0_lt_compat; lra].
      - unfold Rdiv; apply Rmult_lt_compat_r; [apply Rinv_0_lt_compat; lra | lra]. }
    assert (Hau : asin u < asin (1 / n)) by (apply asin_increasing; lra).
    exists (criticalDeg n - asin u * 180 / PI); split.
    + assert (asin u * 180 / PI < criticalDeg n); [| lra].
      unfold criticalDeg; unfold Rdiv; apply Rmult_lt_compat_r;
        [apply Rinv_0_lt_compat; lra | lra].
    + intros a Ha [Hlo Hhi].
      pose proof (below_critical_sin n a Hn Ha Hhi) as Hsin.
      pose proof (asin_bound u) as Hbu.
      pose proof (asin_nonneg u ltac:(lra)) as Hu0.
      assert (Harad : asin u < a * PI / 180).
      { replace (asin u) with ((asin u * 180 / PI) * PI / 180) by (field; lra).
        apply deg_rad_lt; lra. }
      assert (Ha2 : a * PI / 180 < PI / 2) by nra.
      assert (Hsu : u < sin (a * PI / 180)).
      { rewrite <- (sin_asin u) by lra. apply sin_increasing_1; lra. }
      assert (Hnb : sin b < n * sin (a * PI / 180)).
      { apply Rmult_lt_compat_l with (r := n) in Hsu; [| lra].
        unfold u in Hsu.
        replace (n * (sin b / n)) with (sin b) in Hsu by (field; lra).
        exact Hsu. }
      apply rad_deg_gt; fold b.
      rewrite <- (asin_sin b) by lra.
      apply asin_increasing; lra.
Qed.

(** ** Numeric bounds *)

Lemma PI_bounds : 3.14159 < PI < 3.14160.
Proof.
  pose proof (PI_2_3_7_ineq 3) as [Hl Hu].
  unfold PI_2_3_7_tg, tg_alt, Ratan_seq in Hl, Hu.
  simpl in Hl, Hu.
  split; lra.
Qed.

Lemma INR_fact_IZR (n : nat) : INR (fact n) = IZR (Z.of_nat (fact n)).
Proof. apply INR_IZR_INZ. Qed.

Lemma sin_lower (a : R) :
  0 <= a <= PI -> a - a ^ 3 / 6 + a ^ 5 / 120 - a ^ 7 / 5040 <= sin a.
Proof.
  intros [H0 H1].
  destruct (SIN a H0 H1) as [Hl _].
  unfold sin_lb, sin_approx, sin_term in Hl.
  cbn [sum_f_R0] in Hl.
  rewrite !INR_fact_IZR in Hl.
  cbn [Nat.mul Nat.add] in Hl.
  change (Z.of_nat (fact 1)) with 1%Z in Hl.
  change (Z.of_nat (fact 3)) with 6%Z in Hl.
  change (Z.of_nat (fact 5)) with 120%Z in Hl.
  change (Z.of_nat (fact 7)) with 5040%Z in Hl.
  simpl pow in Hl; simpl; lra.
Qed.

Lemma sin_upper (a : R) :
  0 <= a <= PI ->
  sin a <= a - a ^ 3 / 6 + a ^ 5 / 120 - a ^ 7 / 5040 + a ^ 9 / 362880.
Proof.
  intros [H0 H1].
  destruct (SIN a H0 H1) as [_ Hu].
  unfold sin_ub, sin_approx, sin_term in Hu.
  cbn [sum_f_R0] in Hu.
  rewrite !INR_fact_IZR in Hu.
  cbn [Nat.mul Nat.add] in Hu.
  change (Z.of_nat (fact 1)) with 1%Z in Hu.
  change (Z.of_nat (fact 3)) with 6%Z in Hu.
  change (Z.of_nat (fact 5)) with 120%Z in Hu.
  change (Z.of_nat (fact 7)) with 5040%Z in Hu.
  replace (Z.of_nat (fact 9)) with 362880%Z in Hu by (vm_compute; reflexivity).
  simpl pow in Hu; simpl; lra.
Qed.

(** [asin v] in degrees lies between two rational angles when the sine
    polynomials at rational enclosures of those angles separate [v]. *)
Lemma asin_deg_upper (v d lo : R) :
  -1 <= v <= 1 -> 0 <= lo -> lo <= d * PI / 180 -> d <= 90 ->
  v < lo - lo ^ 3 / 6 + lo ^ 5 / 120 - lo ^ 7 / 5040 ->
  asin v * 180 / PI < d.
Proof.
  intros Hv Hlo Hd H90 Hpoly.
  pose proof PI_RGT_0 as Hpi.
  assert (Hd2 : d * PI / 180 <= PI / 2) by nra.
  apply rad_deg_lt, asin_lt_of_lt_sin; [exact Hv | lra |].
  assert (Hs : sin lo <= sin (d * PI / 180)) by (apply sin_incr_1; lra).
  pose proof (sin_lower lo ltac:(lra)); lra.
Qed.

Lemma asin_deg_lower (v d hi : R) :
  -1 <= v <= 1 -> 0 <= d -> d * PI / 180 <= hi -> hi <= PI / 2 ->
  hi - hi ^ 3 / 6 + hi ^ 5 / 120 - hi ^ 7 / 5040 + hi ^ 9 / 362880 < v ->
  d < asin v * 180 / PI.
Proof.
  intros Hv Hd0 Hd Hhi Hpoly.
  pose proof PI_RGT_0 as Hpi.
  assert (Hd2 : 0 <= d * PI / 180) by nra.
  apply rad_deg_gt, asin_gt_of_sin_lt; [exact Hv | lra |].
  assert (Hs : sin (d * PI / 180) <= sin hi) by (apply sin_incr_1; lra).
  pose proof (sin_upper hi ltac:(lra)); lra.
Qed.

(** The critical angle of water, [n = 1.33]: 48.75 degrees to two places. *)
Lemma criticalDeg_water : 48.75 < criticalDeg 1.33 < 48.76.
Proof.
  pose proof PI_bounds as [Pl Pu].
  unfold criticalDeg; split.
  - apply asin_deg_lower with (hi := 48.75 * 3.1416 / 180); lra.
  - apply asin_deg_upper with (lo := 48.76 * 3.14159 / 180); lra.
Qed.

(** The refracted angle of a 30 degree ray leaving water: 41.68 degrees. *)
Lemma refractedDeg_water_30 : 41.68 < asin 0.665 * 180 / PI < 41.69.
Proof.
  pose proof PI_bounds as [Pl Pu].
  split.
  - apply asin_deg_lower with (hi := 41.68 * 3.1416 / 180); lra.
  - apply asin_deg_upper with (lo := 41.69 * 3.14159 / 180); lra.
Qed.

(** ** C2, C3, C7: the critical angle and Snell's law *)

Lemma side_below_critical (n a : R) :
  1 <= n -> 0 <= a -> a < criticalDeg n ->
  exceedsCriticalOf (Fin n) (Fin a) = false /\
  exists r, refractedAngleOf (Fin n) (Fin a) = Fin r /\ a <= r < 90.
Proof.
  intros Hn Ha Hlt; split.
  - rewrite exceedsCriticalOf_Fin by assumption; apply Rleb_false; exact Hlt.
  - eexists; split; [apply refractedAngleOf_below; assumption |].
    apply refracted_valid; assumption.
Qed.

Lemma side_beyond_critical (n a : R) :
  1 <= n -> criticalDeg n <= a ->
  exceedsCriticalOf (Fin n) (Fin a) = true /\
  refractedAngleOf (Fin n) (Fin a) = NaN.
Proof.
  intros Hn Hge; split.
  - rewrite exceedsCriticalOf_Fin by assumption; apply Rleb_true; exact Hge.
  - apply refractedAngleOf_beyond; assumption.
Qed.

Lemma snell_below_critical (n a : R) :
  1 <= n -> 0 <= a -> a < criticalDeg n ->
  sin (asin (n * sin (a * PI / 180)) * 180 / PI * PI / 180)
  = n * sin (a * PI / 180).
Proof.
  intros Hn Ha Hlt.
  pose proof (below_critical_sin n a Hn Ha Hlt) as Hsin.
  pose proof PI_RGT_0 as Hpi.
  replace (asin (n * sin (a * PI / 180)) * 180 / PI * PI / 180)
    with (asin (n * sin (a * PI / 180))) by (field; lra).
  apply sin_asin; lra.
Qed.

(** The boundary in exact arithmetic.  For a refractive index [n] in the
    supported range [1 <= n <= 2] the critical angle is the finite angle
    [criticalDeg n]; the TIR flag of a side is [angle >= criticalAngle];
    an angle [0 <= a] strictly below the critical angle is not flagged
    and its water-to-air refracted angle is the angle [r] of Snell's law,
    [sin r = n sin a], with [a <= r < 90]; an angle at or beyond the
    critical angle is flagged and its refracted angle is the TIR marker
    [NaN]; and just below the critical angle the refracted angle is as
    close to 90 degrees as one wishes.  This is what the expressions of
    the script mean when no operation rounds; what the rounded operations
    do one step below the critical angle is the next theorem. *)
Lemma critical_angle_boundary_exact (n : R) :
  1 <= n <= 2 ->
  (forall s : State, refractiveIndex s = Fin n ->
     criticalAngle s = Fin (criticalDeg n) /\
     leftExceedsCritical s = ge (leftAngleDeg s) (criticalAngle s) /\
     rightExceedsCritical s = ge (rightAngleDeg s) (criticalAngle s) /\
     (forall a, 0 <= a -> leftAngleDeg s = Fin a ->
        (a < criticalDeg n ->
         leftExceedsCritical s = false /\
         exists r, leftRefractedAngle s = Fin r /\ a <= r < 90 /\
                   sin (r * PI / 180) = n * sin (a * PI / 180)) /\
        (criticalDeg n <= a ->
         leftExceedsCritical s = true /\ leftRefractedAngle s = NaN)) /\
     (forall a, 0 <= a -> rightAngleDeg s = Fin a ->
        (a < criticalDeg n ->
         rightExceedsCritical s = false /\
         exists r, rightRefractedAngle s = Fin r /\ a <= r < 90 /\
                   sin (r * PI / 180) = n * sin (a * PI / 180)) /\
        (criticalDeg n <= a ->
         rightExceedsCritical s = true /\ rightRefractedAngle s = NaN))) /\
  (forall eps, 0 < eps ->
     exists delta, 0 < delta /\
       forall (s : State) (a : R),
         refractiveIndex s = Fin n ->
         0 <= a -> criticalDeg n - delta < a < criticalDeg n ->
         (leftAngleDeg s = Fin a ->
          exists r, leftRefractedAngle s = Fin r /\ 90 - eps < r < 90) /\
         (rightAngleDeg s = Fin a ->
          exists r, rightRefractedAngle s = Fin r /\ 90 - eps < r < 90)).
Proof.
  intros [Hn _]; split.
  - intros s Hs.
    split; [apply criticalAngle_Fin; assumption |].
    split; [reflexivity |]. split; [reflexivity |].
    split; intros a Ha Hang.
    + rewrite leftExceedsCritical_eq, leftRefractedAngle_eq, Hs, Hang.
      split; [| apply side_beyond_critical; assumption].
      intros Hlt; split; [apply side_below_critical; assumption |].
      eexists; split; [apply refractedAngleOf_below; assumption |].
      split; [apply refracted_valid | apply snell_below_critical];
        assumption.
    + rewrite rightExceedsCritical_eq, rightRefractedAngle_eq, Hs, Hang.
      split; [| apply side_beyond_critical; assumption].
      intros Hlt; split; [apply side_below_critical; assumption |].
      eexists; split; [apply refractedAngleOf_below; assumption |].
      split; [apply refracted_valid | apply snell_below_critical];
        assumption.
  - intros eps Heps.
    destruct (refracted_near_90 n eps Hn Heps) as [delta [Hd Hnear]].
    exists delta; split; [exact Hd |].
    intros s a Hs Ha Hwin.
    pose proof (Hnear a Ha Hwin) as Hr.
    destruct Hwin as [_ Hlt].
    pose proof (refracted_valid n a Hn Ha Hlt) as Hv.
    split; intros Hang; eexists.
    + rewrite leftRefractedAngle_eq, Hs, Hang.
      split; [apply refractedAngleOf_below; assumption | lra].
    + rewrite rightRefractedAngle_eq, Hs, Hang.
      split; [apply refractedAngleOf_below; assumption | lra].
Qed.

Lemma critical_angle_boundary_exact_water :
  criticalAngle initialState = Fin (criticalDeg 1.33) /\
  leftExceedsCritical initialState = false /\
  exists r, leftRefractedAngle initialState = Fin r /\ 30 <= r < 90 /\
            sin (r * PI / 180) = 1.33 * sin (30 * PI / 180).
Proof.
  assert (Hn : 1 <= 1.33 <= 2) by lra.
  destruct (critical_angle_boundary_exact 1.33 Hn) as [Hstate _].
  destruct (Hstate initialState eq_refl) as [Hc [_ [_ [Hleft _]]]].
  split; [exact Hc |].
  destruct (Hleft 30 ltac:(lra) eq_refl) as [Hbelow _].
  apply Hbelow.
  pose proof criticalDeg_water; lra.
Qed.

Section CriticalAngleBinary64.
Import PrimFloat.
Local Open Scope float_scope.

(** The scenario of the page in binary64: index 1.33 (the double
    nearest to it) and 30 degrees give the refracted angle 41.68... of
    Snell's law, unflagged. *)
Lemma refractedAngle_binary64_water :
  Binary64.exceedsCritical 0x1.547ae147ae148p+0 30 = false /\
  Binary64.refractedAngle 0x1.547ae147ae148p+0 30
  = Some 0x1.4d7567040cfdp+5.
Proof. vm_compute; split; reflexivity. Qed.

(** C2, what the code does.  The index is 1.51, that is the double
    [0x1.828f5c28f5c29p+0] the number input yields for it, inside the
    supported range.  The critical angle the script computes is
    [c = 41.471823767423423] ([0x1.4bc64b8a14791p+5]).  Take for the
    incident angle the double just below it, [a = 41.471823767423416]:
    [a < c], the TIR flag of the side, [a >= c], is false, and the
    script goes on to the refracted angle.  The sine of [a] in radians
    is [0x1.5312a6254c4abp-1], its product with the index rounds to
    [1.0000000000000002], one step above 1; nothing clamps it, and
    [Math.asin] of it is [NaN].  So for an angle strictly below the
    critical angle the refraction computation returns [NaN], the value
    it returns for total internal reflection, and no valid angle, while
    the flag says there is none.  At the critical angle itself the side
    is flagged. *)
Theorem C2_unclamped_arcsine_below_critical_angle :
  let refractiveIndex := 0x1.828f5c28f5c29p+0 in
  let c := Binary64.criticalAngle refractiveIndex in
  let a := next_down c in
  leb 1 refractiveIndex && leb refractiveIndex 2 = true /\
  c = 0x1.4bc64b8a14791p+5 /\
  a = 0x1.4bc64b8a1479p+5 /\
  ltb 0 a && ltb a c = true /\
  Binary64.exceedsCritical refractiveIndex a = false /\
  Binary64.Math_sin ((a * Binary64.Math_PI) / 180)
  = Some 0x1.5312a6254c4abp-1 /\
  (refractiveIndex / Binary64.airIndex) * 0x1.5312a6254c4abp-1
  = 0x1.0000000000001p+0 /\
  ltb 1 0x1.0000000000001p+0 = true /\
  is_nan (Binary64.Math_asin 0x1.0000000000001p+0) = true /\
  Binary64.refractedAngle refractiveIndex a = Some nan /\
  Binary64.exceedsCritical refractiveIndex c = true /\
  Binary64.refractedAngle refractiveIndex c = Some nan.
Proof.
  intros refractiveIndex c a.
  assert (Hc : c = 0x1.4bc64b8a14791p+5) by (vm_compute; reflexivity).
  assert (Ha : a = 0x1.4bc64b8a1479p+5) by (vm_compute; reflexivity).
  split; [reflexivity |].
  split; [exact Hc |]. split; [exact Ha |].
  rewrite Hc, Ha; unfold refractiveIndex.
  repeat split; vm_compute; reflexivity.
Qed.

End CriticalAngleBinary64.



(** At [n = 1] the critical angle is the ordinary angle 90, not a marker
    of an undefined value (C7 as stated fails here). *)
Lemma C7_counterexample :
  refractiveIndex (set_refractiveIndex (Fin 1) initialState) = Fin 1 /\
  criticalAngle (set_refractiveIndex (Fin 1) initialState) = Fin 90 /\
  isNaN (criticalAngle (set_refractiveIndex (Fin 1) initialState)) = false.
Proof.
  assert (H : criticalAngle (set_refractiveIndex (Fin 1) initialState) = Fin 90).
  { rewrite (criticalAngle_Fin (set_refractiveIndex (Fin 1) initialState) 1 eq_refl)
      by lra.
    rewrite criticalDeg_one; reflexivity. }
  rewrite H; repeat split.
Qed.

Lemma no_tir_without_critical (n angleDeg : num) :
  div (mul (Math_asin (div airIndex n)) (Fin 180)) Math_PI = NaN ->
  exceedsCriticalOf n angleDeg = false.
Proof.
  intros H; unfold exceedsCriticalOf; rewrite H; apply ge_NaN_r.
Qed.

Lemma inv_index_range_negative (n : R) : n <= -1 -> -1 <= 1 / n < 0.
Proof.
  intros Hn.
  assert (Hinv : / n < 0) by (apply Rinv_lt_0_compat; lra).
  assert (Hone : n * / n = 1) by (apply Rinv_r; lra).
  unfold Rdiv; split; nra.
Qed.

Lemma criticalDeg_negative (n : R) :
  n <= -1 -> -90 <= asin (1 / n) * 180 / PI < 0.
Proof.
  intros Hn.
  pose proof (inv_index_range_negative n Hn) as Hr.
  pose proof (asin_bound (1 / n)) as Hb.
  pose proof PI_RGT_0 as Hpi.
  assert (Hneg : asin (1 / n) < 0).
  { rewrite <- asin_0; apply asin_increasing; lra. }
  assert (Hinv : 0 < / PI) by (apply Rinv_0_lt_compat; lra).
  assert (Hone : PI * / PI = 1) by (apply Rinv_r; lra).
  unfold Rdiv; split; nra.
Qed.

Lemma criticalAngle_negative (s : State) (n : R) :
  refractiveIndex s = Fin n -> n <= -1 ->
  criticalAngle s = Fin (asin (1 / n) * 180 / PI).
Proof.
  intros Hs Hn; unfold criticalAngle, airIndex; rewrite Hs.
  pose proof (inv_index_range_negative n Hn) as Hr.
  rewrite div_Fin by lra.
  rewrite Math_asin_Fin by lra.
  apply toDeg_Fin.
Qed.

Lemma exceedsCriticalOf_negative (n a : R) :
  n <= -1 -> 0 <= a -> exceedsCriticalOf (Fin n) (Fin a) = true.
Proof.
  intros Hn Ha; unfold exceedsCriticalOf, airIndex.
  pose proof (inv_index_range_negative n Hn) as Hr.
  pose proof (criticalDeg_negative n Hn) as Hc.
  rewrite div_Fin by lra.
  rewrite Math_asin_Fin by lra.
  rewrite toDeg_Fin, ge_Fin.
  apply Rleb_true; lra.
Qed.

(** C7, amended.  [criticalAngle] evaluates [asin(1/n)] in degrees for
    every [n] and rejects none.  For [n >= 1] that is the critical angle;
    at [n = 1] it is the ordinary angle 90, and no angle below 90 is
    flagged as total internal reflection.  For [-1 < n < 1] it is [NaN],
    and no side is flagged whatever the angles are.  For [n <= -1] it is
    an ordinary negative angle, from -90 up to 0 excluded: every angle
    from 0 up is flagged on either side, and the real position is
    absent. *)
Theorem C7_critical_angle_of_index (s : State) (n : R) :
  refractiveIndex s = Fin n ->
  (1 <= n -> criticalAngle s = Fin (asin (1 / n) * 180 / PI)) /\
  (n = 1 -> criticalAngle s = Fin 90) /\
  (-1 < n < 1 ->
   criticalAngle s = NaN /\
   leftExceedsCritical s = false /\ rightExceedsCritical s = false) /\
  (n = 1 ->
   forall a, a < 90 ->
     (leftAngleDeg s = Fin a -> leftExceedsCritical s = false) /\
     (rightAngleDeg s = Fin a -> rightExceedsCritical s = false)) /\
  (n <= -1 ->
   criticalAngle s = Fin (asin (1 / n) * 180 / PI) /\
   -90 <= asin (1 / n) * 180 / PI < 0 /\
   forall a, 0 <= a ->
     (leftAngleDeg s = Fin a ->
      leftExceedsCritical s = true /\ leftRefractedAngle s = NaN /\
      realPosition s = None) /\
     (rightAngleDeg s = Fin a ->
      rightExceedsCritical s = true /\ rightRefractedAngle s = NaN /\
      realPosition s = None)).
Proof.
  intros Hs.
  split; [intros Hn; apply criticalAngle_Fin; assumption |].
  split.
  { intros ->; rewrite (criticalAngle_Fin s 1 Hs) by lra.
    rewrite criticalDeg_one; reflexivity. }
  split.
  { intros Hn.
    pose proof (criticalAngle_NaN s n Hs Hn) as Hc.
    split; [exact Hc |].
    split.
    - rewrite leftExceedsCritical_eq; apply no_tir_without_critical; exact Hc.
    - rewrite rightExceedsCritical_eq; apply no_tir_without_critical; exact Hc. }
  split.
  { intros -> a Ha; split; intros Hang.
    - rewrite leftExceedsCritical_eq, Hs, Hang, exceedsCriticalOf_Fin by lra.
      rewrite criticalDeg_one; apply Rleb_false; lra.
    - rewrite rightExceedsCritical_eq, Hs, Hang, exceedsCriticalOf_Fin by lra.
      rewrite criticalDeg_one; apply Rleb_false; lra. }
  intros Hn.
  split; [apply criticalAngle_negative; assumption |].
  split; [apply criticalDeg_negative; assumption |].
  intros a Ha; split; intros Hang.
  - assert (Hex : leftExceedsCritical s = true).
    { rewrite leftExceedsCritical_eq, Hs, Hang.
      apply exceedsCriticalOf_negative; assumption. }
    split; [exact Hex |].
    split.
    + rewrite leftRefractedAngle_eq; unfold refractedAngleOf.
      rewrite <- leftExceedsCritical_eq, Hex; reflexivity.
    + unfold realPosition; rewrite Hex; reflexivity.
  - assert (Hex : rightExceedsCritical s = true).
    { rewrite rightExceedsCritical_eq, Hs, Hang.
      apply exceedsCriticalOf_negative; assumption. }
    split; [exact Hex |].
    split.
    + rewrite rightRefractedAngle_eq; unfold refractedAngleOf.
      rewrite <- rightExceedsCritical_eq, Hex; reflexivity.
    + unfold realPosition; rewrite Hex, orb_true_r; reflexivity.
Qed.

Lemma C7_witness :
  refractiveIndex initialState = Fin 1.33 /\
  criticalAngle initialState = Fin (asin (1 / 1.33) * 180 / PI).
Proof.
  split; [reflexivity |].
  destruct (C7_critical_angle_of_index initialState 1.33 eq_refl) as [H _].
  apply H; lra.
Defined.

Lemma updateApparentFromReal_guarded_beyond_critical :
  leftExceedsCritical (withAngles (Fin 50) (Fin 30) initialState) = true /\
  updateApparentFromReal (withAngles (Fin 50) (Fin 30) initialState)
  = withAngles (Fin 50) (Fin 30) initialState.
Proof.
  assert (H : leftExceedsCritical (withAngles (Fin 50) (Fin 30) initialState)
              = true).
  { rewrite leftExceedsCritical_eq.
    cbn [withAngles set_rightAngleDeg set_leftAngleDeg refractiveIndex
         leftAngleDeg initialState].
    rewrite exceedsCriticalOf_Fin by lra.
    apply Rleb_true; pose proof criticalDeg_water; lra. }
  split; [exact H |].
  apply updateApparentFromReal_guarded.
  right; right; left; exact H.
Qed.

Lemma C10_witness :
  dragging (set_dragging (Some DragApparentPosition) initialState)
  = Some DragApparentPosition /\
  handleMouseMove (Fin 400) (Fin 500)
    (set_dragging (Some DragApparentPosition) initialState)
  = set_dragging (Some DragApparentPosition) initialState.
Proof.
  split; [reflexivity |].
  apply (C10_apparent_drag_guard (Fin 400) (Fin 500)
           (set_dragging (Some DragApparentPosition) initialState) eq_refl).
  cbn; apply Rltb_false; lra.
Defined.

(** ** Rays and their intersection *)

Lemma direction_sq (isLeft : bool) : direction isLeft * direction isLeft = 1.
Proof. destruct isLeft; unfold direction; lra. Qed.

Lemma calculateRayPoint_Fin (px py a len : R) (isLeft : bool) :
  calculateRayPoint (mkPoint (Fin px) (Fin py)) (Fin a) (Fin len) isLeft
  = mkPoint (Fin (px + len * sin (a * PI / 180) * direction isLeft))
            (Fin (py - len * cos (a * PI / 180))).
Proof.
  unfold calculateRayPoint; rewrite toRad_Fin.
  destruct isLeft; reflexivity.
Qed.

(** The slope of a ray that leaves the normal: minus the cotangent of its
    angle, mirrored by the side. *)
Lemma ray_slope (px py a : R) (isLeft : bool) :
  sin (a * PI / 180) <> 0 ->
  slope (mkPoint (Fin px) (Fin py))
    (calculateRayPoint (mkPoint (Fin px) (Fin py)) (Fin a) (Fin 1000) isLeft)
  = Fin (- cos (a * PI / 180) / sin (a * PI / 180) * direction isLeft).
Proof.
  intros Hsin; rewrite calculateRayPoint_Fin.
  unfold slope; cbn [x y]; rewrite !sub_Fin.
  assert (Hd : direction isLeft <> 0) by (destruct isLeft; unfold direction; lra).
  rewrite div_Fin.
  - f_equal. pose proof (direction_sq isLeft) as Hsq.
    replace (px + 1000 * sin (a * PI / 180) * direction isLeft - px)
      with (1000 * sin (a * PI / 180) * direction isLeft) by ring.
    replace (py - 1000 * cos (a * PI / 180) - py)
      with (- (1000 * cos (a * PI / 180))) by ring.
    destruct isLeft; unfold direction; field; assumption.
  - replace (px + 1000 * sin (a * PI / 180) * direction isLeft - px)
      with (1000 * sin (a * PI / 180) * direction isLeft) by ring.
    apply Rmult_integral_contrapositive_currified; [| exact Hd].
    apply Rmult_integral_contrapositive_currified; [lra | exact Hsin].
Qed.

(** A ray along the normal has no finite slope: [-1000 / 0]. *)
Lemma ray_slope_vertical (px py a : R) (isLeft : bool) :
  sin (a * PI / 180) = 0 -> 0 < cos (a * PI / 180) ->
  slope (mkPoint (Fin px) (Fin py))
    (calculateRayPoint (mkPoint (Fin px) (Fin py)) (Fin a) (Fin 1000) isLeft)
  = NegInfinity.
Proof.
  intros Hsin Hcos; rewrite calculateRayPoint_Fin.
  unfold slope; cbn [x y]; rewrite !sub_Fin, Hsin.
  replace (px + 1000 * 0 * direction isLeft - px) with 0 by ring.
  rewrite div_Fin_zero; unfold inf_times.
  rewrite Rltb_false by nra.
  rewrite Rltb_true by nra.
  reflexivity.
Qed.

Lemma intersect_Fin (x1 y1 m1 x2 y2 m2 : R) :
  m1 <> m2 ->
  intersect (mkPoint (Fin x1) (Fin y1)) (Fin m1)
            (mkPoint (Fin x2) (Fin y2)) (Fin m2)
  = mkPoint (Fin ((m1 * x1 - y1 - (m2 * x2 - y2)) / (m1 - m2)))
            (Fin (m1 * ((m1 * x1 - y1 - (m2 * x2 - y2)) / (m1 - m2) - x1) + y1)).
Proof.
  intros Hm; unfold intersect; cbn [x y].
  rewrite !mul_Fin, !sub_Fin, div_Fin by lra.
  reflexivity.
Qed.

(** *** Parallel rays *)

Lemma nonfinite_sub_l (a b : num) : isFinite a = false -> isFinite (sub a b) = false.
Proof. destruct a, b; intros H; try reflexivity; discriminate. Qed.

Lemma nonfinite_add_l (a b : num) : isFinite a = false -> isFinite (add a b) = false.
Proof. destruct a, b; intros H; try reflexivity; discriminate. Qed.

Lemma nonfinite_inf_times (negative : bool) (r : R) :
  isFinite (inf_times negative r) = false.
Proof.
  unfold inf_times.
  destruct (Rltb 0 r); [destruct negative; reflexivity |].
  destruct (Rltb r 0); [destruct negative; reflexivity | reflexivity].
Qed.

Lemma nonfinite_mul_r (a b : num) : isFinite b = false -> isFinite (mul a b) = false.
Proof.
  destruct a, b; intros H; try reflexivity; try discriminate;
    apply nonfinite_inf_times.
Qed.

Lemma nonfinite_div_zero (a : num) : isFinite (div a (Fin 0)) = false.
Proof.
  destruct a; try reflexivity.
  - cbn; destruct (Rltb 0 0); reflexivity.
  - cbn; destruct (Rltb 0 0); reflexivity.
  - rewrite div_Fin_zero; apply nonfinite_inf_times.
Qed.

Lemma div_NaN_r (a : num) : div a NaN = NaN.
Proof. destruct a; reflexivity. Qed.

(** The intersection of two lines of equal slope has no finite coordinate. *)
Lemma intersect_parallel (p1 p2 : Point) (m1 m2 : num) :
  eqb m1 m2 = true ->
  isFinite (x (intersect p1 m1 p2 m2)) = false /\
  isFinite (y (intersect p1 m1 p2 m2)) = false.
Proof.
  intros Heq.
  assert (Hx : isFinite (x (intersect p1 m1 p2 m2)) = false).
  { unfold intersect; cbn [x].
    destruct m1 as [| | | r1], m2 as [| | | r2]; try discriminate Heq.
    - cbn [sub neg add]; rewrite div_NaN_r; reflexivity.
    - cbn [sub neg add]; rewrite div_NaN_r; reflexivity.
    - cbn [eqb] in Heq; apply Reqb_spec in Heq; subst r2.
      rewrite (sub_Fin r1 r1).
      replace (r1 - r1) with 0 by ring.
      apply nonfinite_div_zero. }
  split; [exact Hx |].
  unfold intersect in *; cbn [x y] in *.
  apply nonfinite_add_l, nonfinite_mul_r, nonfinite_sub_l; exact Hx.
Qed.

Lemma realPosition_unfold (s : State) :
  realPosition s =
  if leftExceedsCritical s || rightExceedsCritical s then None
  else Some (intersect (leftPoint s) (realLeftSlope s)
                       (rightPoint s) (realRightSlope s)).
Proof. reflexivity. Qed.

(** ** C1: parallel rays *)

Lemma mul_NaN_r (a : num) : mul a NaN = NaN.
Proof. destruct a; reflexivity. Qed.

Lemma airToWaterRad_NaN (s : State) : airToWaterRad s NaN = NaN.
Proof. unfold airToWaterRad; cbn [Math_sin]; rewrite mul_NaN_r; reflexivity. Qed.

Lemma refractedAngleOf_zero (n : R) :
  1 <= n -> refractedAngleOf (Fin n) (Fin 0) = Fin 0.
Proof.
  intros Hn.
  pose proof (criticalDeg_range n Hn) as Hc.
  rewrite refractedAngleOf_below by lra.
  f_equal.
  replace (0 * PI / 180) with 0 by field.
  rewrite sin_0, Rmult_0_r, asin_0; field; apply PI_neq0'.
Qed.

(** Both angles 0 in the initial configuration: neither side is in total
    internal reflection, both rays run along the normal, their slopes are
    equal ([-Infinity]), and [realPosition] is not [null] but the point
    [(NaN, NaN)], which [updateApparentFromReal] then takes for a valid
    real position and carries into the apparent position (C1 as stated
    fails here). *)
Lemma C1_counterexample :
  let s := withAngles (Fin 0) (Fin 0) initialState in
  leftExceedsCritical s = false /\
  rightExceedsCritical s = false /\
  raysParallel s = true /\
  realPosition s = Some (mkPoint NaN NaN) /\
  apparentPosition (updateApparentFromReal s) = mkPoint NaN NaN.
Proof.
  intros s.
  assert (Hidx : refractiveIndex s = Fin 1.33) by reflexivity.
  assert (HL : leftExceedsCritical s = false).
  { rewrite leftExceedsCritical_eq, Hidx.
    change (leftAngleDeg s) with (Fin 0).
    rewrite exceedsCriticalOf_Fin by lra.
    apply Rleb_false; pose proof (criticalDeg_range 1.33); lra. }
  assert (HR : rightExceedsCritical s = false).
  { rewrite rightExceedsCritical_eq, Hidx.
    change (rightAngleDeg s) with (Fin 0).
    rewrite exceedsCriticalOf_Fin by lra.
    apply Rleb_false; pose proof (criticalDeg_range 1.33); lra. }
  assert (Hz : 0 * PI / 180 = 0) by field.
  assert (HmL : realLeftSlope s = NegInfinity).
  { unfold realLeftSlope; rewrite leftRefractedAngle_eq, Hidx.
    change (leftAngleDeg s) with (Fin 0).
    rewrite refractedAngleOf_zero by lra.
    change (leftPoint s) with (mkPoint (Fin 250) (Fin 450)).
    apply ray_slope_vertical; rewrite Hz; [apply sin_0 | rewrite cos_0; lra]. }
  assert (HmR : realRightSlope s = NegInfinity).
  { unfold realRightSlope; rewrite rightRefractedAngle_eq, Hidx.
    change (rightAngleDeg s) with (Fin 0).
    rewrite refractedAngleOf_zero by lra.
    change (rightPoint s) with (mkPoint (Fin 550) (Fin 450)).
    apply ray_slope_vertical; rewrite Hz; [apply sin_0 | rewrite cos_0; lra]. }
  assert (Hreal : realPosition s = Some (mkPoint NaN NaN)).
  { rewrite realPosition_unfold, HL, HR, HmL, HmR.
    cbn [orb]; unfold intersect.
    replace (sub NegInfinity NegInfinity) with NaN by reflexivity.
    rewrite div_NaN_r; reflexivity. }
  split; [exact HL |]. split; [exact HR |].
  split; [unfold raysParallel; rewrite HmL, HmR; reflexivity |].
  split; [exact Hreal |].
  unfold updateApparentFromReal.
  change (lockRealPosition s) with true.
  rewrite Hreal, HL, HR.
  cbn [negb x y sub add neg ge le waterLevelY orb Math_abs Math_atan2].
  rewrite !airToWaterRad_NaN.
  reflexivity.
Qed.

(** C1, amended.  [realPosition] returns the absent marker [null] exactly
    when a side is in total internal reflection; it has no test for
    parallel rays.  When neither side is and the two slopes it has
    computed are equal ([leftSlope == rightSlope]), it returns a point,
    and neither coordinate of that point is a finite number: each is [NaN]
    or an infinity.  The condition is on the computed slopes, not on the
    angles: which pairs of angles give equal slopes is a matter of the
    arithmetic; both angles 0, where both slopes are [-Infinity], is a
    pair for which they are equal in any. *)
Theorem C1_realPosition_parallel (s : State) :
  (realPosition s = None <->
   leftExceedsCritical s || rightExceedsCritical s = true) /\
  (leftExceedsCritical s = false -> rightExceedsCritical s = false ->
   raysParallel s = true ->
   exists p, realPosition s = Some p /\
             isFinite (x p) = false /\ isFinite (y p) = false).
Proof.
  split.
  - rewrite realPosition_unfold.
    destruct (leftExceedsCritical s || rightExceedsCritical s);
      split; intros H; try reflexivity; discriminate H.
  - intros HL HR Hpar.
    rewrite realPosition_unfold, HL, HR; cbn [orb].
    eexists; split; [reflexivity |].
    apply intersect_parallel; exact Hpar.
Qed.

Lemma C1_witness :
  let s := withAngles (Fin 0) (Fin 0) initialState in
  exists p, realPosition s = Some p /\
            isFinite (x p) = false /\ isFinite (y p) = false.
Proof.
  intros s.
  assert (Hz : 0 * PI / 180 = 0) by field.
  assert (Hc : exceedsCriticalOf (Fin 1.33) (Fin 0) = false).
  { rewrite exceedsCriticalOf_Fin by lra.
    apply Rleb_false; pose proof (criticalDeg_range 1.33); lra. }
  apply (C1_realPosition_parallel s); [exact Hc | exact Hc |].
  unfold raysParallel, realLeftSlope, realRightSlope.
  rewrite leftRefractedAngle_eq, rightRefractedAngle_eq.
  change (refractiveIndex s) with (Fin 1.33).
  change (leftAngleDeg s) with (Fin 0).
  change (rightAngleDeg s) with (Fin 0).
  rewrite refractedAngleOf_zero by lra.
  change (leftPoint s) with (mkPoint (Fin 250) (Fin 450)).
  change (rightPoint s) with (mkPoint (Fin 550) (Fin 450)).
  assert (Hs0 : sin (0 * PI / 180) = 0) by (rewrite Hz; apply sin_0).
  assert (Hc0 : 0 < cos (0 * PI / 180)) by (rewrite Hz, cos_0; lra).
  rewrite !ray_slope_vertical by assumption.
  reflexivity.
Defined.

(** ** C4: the scenario and the symmetric configuration *)

Lemma refractedAngleOf_positive (n a : R) :
  1 <= n -> 0 < a -> a < criticalDeg n ->
  exists r, refractedAngleOf (Fin n) (Fin a) = Fin r /\ 0 < r < 90 /\
            r = asin (n * sin (a * PI / 180)) * 180 / PI.
Proof.
  intros Hn Ha Hlt; eexists; split;
    [apply refractedAngleOf_below; [assumption | lra | assumption] |].
  pose proof (refracted_valid n a Hn ltac:(lra) Hlt).
  split; [lra | reflexivity].
Qed.

Lemma acute_sin_cos (r : R) :
  0 < r < 90 -> 0 < sin (r * PI / 180) /\ 0 < cos (r * PI / 180).
Proof.
  intros [H0 H90]; pose proof PI_RGT_0 as Hpi.
  assert (Hr : 0 < r * PI / 180 < PI / 2) by (split; nra).
  split; [apply sin_gt_0; lra | apply cos_gt_0; lra].
Qed.

(** Equal angles, the apparent position centred between the two
    refraction points: the rays cross above the interface at the midpoint. *)
Lemma realPosition_symmetric (s : State) (n a lx rx : R) :
  refractiveIndex s = Fin n -> 1 <= n ->
  leftAngleDeg s = Fin a -> rightAngleDeg s = Fin a ->
  0 < a -> a < criticalDeg n ->
  leftPoint s = mkPoint (Fin lx) waterLevelY ->
  rightPoint s = mkPoint (Fin rx) waterLevelY ->
  lx <> rx ->
  x (apparentPosition s) = Fin ((lx + rx) / 2) ->
  exists ry,
    realPosition s = Some (mkPoint (Fin ((lx + rx) / 2)) (Fin ry)) /\ ry < 450.
Proof.
  intros Hs Hn HaL HaR Ha Hlt HpL HpR Hne Hax.
  destruct (refractedAngleOf_positive n a Hn Ha Hlt) as [r [Hr [Hr90 _]]].
  destruct (acute_sin_cos r Hr90) as [Hsin Hcos].
  destruct (side_below_critical n a Hn ltac:(lra) Hlt) as [Hex _].
  set (c := cos (r * PI / 180) / sin (r * PI / 180)).
  assert (Hc : 0 < c) by (apply Rdiv_lt_0_compat; assumption).
  rewrite realPosition_unfold.
  rewrite leftExceedsCritical_eq, rightExceedsCritical_eq, Hs, HaL, HaR, Hex.
  cbn [orb].
  unfold realLeftSlope, realRightSlope.
  rewrite leftRefractedAngle_eq, rightRefractedAngle_eq, Hs, HaL, HaR, Hr.
  rewrite HpL, HpR, Hax; unfold waterLevelY; cbn [x].
  rewrite !ray_slope by lra.
  rewrite !lt_Fin.
  destruct (Rlt_dec lx rx) as [Hlr | Hrl].
  - rewrite (Rltb_false ((lx + rx) / 2) lx) by lra.
    rewrite (Rltb_true ((lx + rx) / 2) rx) by lra.
    unfold direction.
    replace (- cos (r * PI / 180) / sin (r * PI / 180) * 1) with (- c)
      by (unfold c; field; lra).
    replace (- cos (r * PI / 180) / sin (r * PI / 180) * -1) with c
      by (unfold c; field; lra).
    rewrite intersect_Fin by lra.
    replace ((- c * lx - 450 - (c * rx - 450)) / (- c - c))
      with ((lx + rx) / 2) by (field; lra).
    eexists; split; [reflexivity | nra].
  - assert (Hgt : rx < lx) by lra.
    rewrite (Rltb_true ((lx + rx) / 2) lx) by lra.
    rewrite (Rltb_false ((lx + rx) / 2) rx) by lra.
    unfold direction.
    replace (- cos (r * PI / 180) / sin (r * PI / 180) * 1) with (- c)
      by (unfold c; field; lra).
    replace (- cos (r * PI / 180) / sin (r * PI / 180) * -1) with c
      by (unfold c; field; lra).
    rewrite intersect_Fin by lra.
    replace ((c * lx - 450 - (- c * rx - 450)) / (c - - c))
      with ((lx + rx) / 2) by (field; lra).
    eexists; split; [reflexivity | nra].
Qed.

Lemma refractedAngleOf_water_30 :
  refractedAngleOf (Fin 1.33) (Fin 30) = Fin (asin 0.665 * 180 / PI).
Proof.
  rewrite refractedAngleOf_below;
    [| lra | lra | pose proof criticalDeg_water; lra].
  replace (30 * PI / 180) with (PI / 6) by field.
  rewrite sin_PI6.
  replace (1.33 * (1 / 2)) with 0.665 by lra.
  reflexivity.
Qed.

(** In the scenario both refracted angles are more than half a degree
    away from 41.1 degrees (C4 as stated fails on this value). *)
Lemma C4_counterexample :
  exists r,
    leftRefractedAngle initialState = Fin r /\
    rightRefractedAngle initialState = Fin r /\
    41.1 + 0.5 < r.
Proof.
  exists (asin 0.665 * 180 / PI).
  split; [exact refractedAngleOf_water_30 |].
  split; [exact refractedAngleOf_water_30 |].
  pose proof refractedDeg_water_30; lra.
Qed.

(** C4, amended.  In the scenario ([n = 1.33], refraction points at
    [x = 250] and [x = 550] on [y = 450], both angles 30 degrees, which is
    the initial state): the critical angle is 48.75 degrees to two places;
    both water-to-air refracted angles are 41.68 degrees to two places;
    [realPosition] is a point with [x = 400] and [y < 450].  In general,
    with both angles equal, above 0 and below the critical angle, and the
    position that classifies the sides centred between two distinct
    refraction points, [realPosition] is a point above the interface whose
    [x] is the midpoint of the two refraction points. *)
Theorem C4_scenario_and_symmetry :
  (exists c, criticalAngle initialState = Fin c /\ 48.75 < c < 48.76) /\
  (exists r, leftRefractedAngle initialState = Fin r /\
             rightRefractedAngle initialState = Fin r /\
             41.68 < r < 41.69) /\
  (exists ry, realPosition initialState = Some (mkPoint (Fin 400) (Fin ry)) /\
              ry < 450) /\
  (forall (s : State) (n a lx rx : R),
     refractiveIndex s = Fin n -> 1 <= n ->
     leftAngleDeg s = Fin a -> rightAngleDeg s = Fin a ->
     0 < a -> a < criticalDeg n ->
     leftPoint s = mkPoint (Fin lx) waterLevelY ->
     rightPoint s = mkPoint (Fin rx) waterLevelY ->
     lx <> rx ->
     x (apparentPosition s) = Fin ((lx + rx) / 2) ->
     exists ry,
       realPosition s = Some (mkPoint (Fin ((lx + rx) / 2)) (Fin ry)) /\
       ry < 450).
Proof.
  split.
  { exists (criticalDeg 1.33); split; [| exact criticalDeg_water].
    apply criticalAngle_Fin; [reflexivity | lra]. }
  split.
  { exists (asin 0.665 * 180 / PI).
    split; [exact refractedAngleOf_water_30 |].
    split; [exact refractedAngleOf_water_30 | exact refractedDeg_water_30]. }
  split.
  { pose proof criticalDeg_water as Hc.
    destruct (realPosition_symmetric initialState 1.33 30 250 550)
      as [ry [Hreal Hry]]; try reflexivity; try lra.
    - cbn [apparentPosition initialState x]; f_equal; lra.
    - exists ry; split; [| exact Hry].
      rewrite Hreal; do 3 f_equal; lra. }
  exact realPosition_symmetric.
Qed.

Lemma C4_witness :
  let s := withAngles (Fin 40) (Fin 40) initialState in
  exists ry,
    realPosition s = Some (mkPoint (Fin ((250 + 550) / 2)) (Fin ry)) /\
    ry < 450.
Proof.
  intros s.
  destruct C4_scenario_and_symmetry as [_ [_ [_ Hsym]]].
  apply (Hsym s 1.33 40 250 550); try reflexivity; try lra.
  - pose proof criticalDeg_water; lra.
  - cbn [s withAngles set_rightAngleDeg set_leftAngleDeg apparentPosition
         initialState x]; f_equal; lra.
Defined.

(** ** Angles recovered from points on a ray *)

Lemma Ratan2_right (vy vx : R) : 0 < vx -> Ratan2 vy vx = atan (vy / vx).
Proof. intros H; unfold Ratan2; rewrite Rltb_true by assumption; reflexivity. Qed.

Lemma atan_tangent (t : R) :
  0 < t < PI / 2 -> atan (sin t / cos t) = t.
Proof.
  intros Ht; change (sin t / cos t) with (tan t).
  apply atan_tan; lra.
Qed.

(** A point strictly above the start of a ray of angle [a], on the line of
    that ray: the angle and the side computed from the point are the
    ray's. *)
Lemma on_ray_angles (a dx dy : R) (isLeft : bool) :
  0 < a < 90 ->
  dy = - cos (a * PI / 180) / sin (a * PI / 180) * direction isLeft * dx ->
  dy < 0 ->
  Ratan2 (Rabs dx) (Rabs dy) = a * PI / 180 /\
  Rabs (Ratan2 dx (- dy)) = a * PI / 180 /\
  Rltb dx 0 = isLeft.
Proof.
  intros Ha Hdy Hneg.
  destruct (acute_sin_cos a Ha) as [Hsin Hcos].
  pose proof PI_RGT_0 as Hpi.
  set (t := a * PI / 180) in *.
  assert (Ht : 0 < t < PI / 2) by (unfold t; split; nra).
  set (c := cos t / sin t).
  assert (Hc : 0 < c) by (apply Rdiv_lt_0_compat; assumption).
  assert (Hdy' : dy = - c * direction isLeft * dx)
    by (rewrite Hdy; unfold c; field; lra).
  assert (Hinv : sin t / cos t = 1 / c) by (unfold c; field; lra).
  destruct isLeft; unfold direction in Hdy'.
  - assert (Hdx : dx < 0) by nra.
    rewrite (Rabs_left dx) by assumption.
    rewrite (Rabs_left dy) by assumption.
    rewrite !Ratan2_right by lra.
    replace (- dx / - dy) with (sin t / cos t)
      by (rewrite Hinv, Hdy'; field; lra).
    replace (dx / - dy) with (- (sin t / cos t))
      by (rewrite Hinv, Hdy'; field; lra).
    rewrite atan_opp, atan_tangent by assumption.
    rewrite Rabs_left by lra.
    repeat split; [lra | apply Rltb_true; assumption].
  - assert (Hdx : 0 < dx) by nra.
    rewrite (Rabs_right dx) by lra.
    rewrite (Rabs_left dy) by assumption.
    rewrite !Ratan2_right by lra.
    replace (dx / - dy) with (sin t / cos t)
      by (rewrite Hinv, Hdy'; field; lra).
    rewrite atan_tangent by assumption.
    rewrite Rabs_right by lra.
    repeat split; apply Rltb_false; lra.
Qed.

Lemma intersect_finite_inv (x1 x2 w m1 m2 px py : R) :
  intersect (mkPoint (Fin x1) (Fin w)) (Fin m1)
            (mkPoint (Fin x2) (Fin w)) (Fin m2)
  = mkPoint (Fin px) (Fin py) ->
  m1 <> m2 /\ py - w = m1 * (px - x1) /\ py - w = m2 * (px - x2).
Proof.
  intros H.
  destruct (Req_dec_T m1 m2) as [Heq | Hne].
  - exfalso.
    destruct (intersect_parallel (mkPoint (Fin x1) (Fin w))
                (mkPoint (Fin x2) (Fin w)) (Fin m1) (Fin m2)) as [Hx _].
    + cbn [eqb]; apply Reqb_true; exact Heq.
    + rewrite H in Hx; discriminate Hx.
  - rewrite intersect_Fin in H by assumption.
    injection H as Hx Hy.
    split; [exact Hne |].
    assert (Hd : m1 - m2 <> 0) by lra.
    assert (Hpx : px * (m1 - m2) = m1 * x1 - w - (m2 * x2 - w)).
    { rewrite <- Hx; field; exact Hd. }
    split; [rewrite <- Hy, Hx; ring |].
    rewrite <- Hy, Hx; nra.
Qed.

(** Snell's law from air into water undoes the refraction out of water. *)
Lemma airToWaterRad_refracted (s : State) (n a : R) :
  refractiveIndex s = Fin n -> 1 <= n -> 0 <= a -> a < criticalDeg n ->
  airToWaterRad s
    (Fin (asin (n * sin (a * PI / 180)) * 180 / PI * PI / 180))
  = Fin (a * PI / 180).
Proof.
  intros Hs Hn Ha Hlt.
  pose proof (below_critical_sin n a Hn Ha Hlt) as Hsin.
  pose proof (criticalDeg_range n Hn) as Hc.
  pose proof PI_RGT_0 as Hpi.
  unfold airToWaterRad, airIndex; rewrite Hs, div_Fin by lra.
  cbn [Math_sin]; rewrite mul_Fin.
  replace (asin (n * sin (a * PI / 180)) * 180 / PI * PI / 180)
    with (asin (n * sin (a * PI / 180))) by (field; lra).
  rewrite sin_asin by lra.
  replace (1 / n * (n * sin (a * PI / 180))) with (sin (a * PI / 180))
    by (field; lra).
  assert (Hrad : 0 <= a * PI / 180 <= PI / 2) by (split; nra).
  rewrite Math_asin_Fin.
  - rewrite asin_sin by lra; reflexivity.
  - pose proof (SIN_bound (a * PI / 180)); lra.
Qed.

(** ** The apparent position derived from the real position *)

Lemma realPosition_finite_inv (s : State) (n aL aR lx rx px py : R) :
  refractiveIndex s = Fin n -> 1 <= n ->
  leftAngleDeg s = Fin aL -> rightAngleDeg s = Fin aR ->
  0 < aL -> aL < criticalDeg n -> 0 < aR -> aR < criticalDeg n ->
  leftPoint s = mkPoint (Fin lx) waterLevelY ->
  rightPoint s = mkPoint (Fin rx) waterLevelY ->
  realPosition s = Some (mkPoint (Fin px) (Fin py)) ->
  exists (rL rR : R) (bL bR : bool),
    rL = asin (n * sin (aL * PI / 180)) * 180 / PI /\
    rR = asin (n * sin (aR * PI / 180)) * 180 / PI /\
    0 < rL < 90 /\ 0 < rR < 90 /\
    py - 450
    = - cos (rL * PI / 180) / sin (rL * PI / 180) * direction bL * (px - lx) /\
    py - 450
    = - cos (rR * PI / 180) / sin (rR * PI / 180) * direction bR * (px - rx).
Proof.
  intros Hs Hn HaL HaR HL0 HLc HR0 HRc HpL HpR Hreal.
  destruct (refractedAngleOf_positive n aL Hn HL0 HLc) as [rL [HrL [HrL90 HrLeq]]].
  destruct (refractedAngleOf_positive n aR Hn HR0 HRc) as [rR [HrR [HrR90 HrReq]]].
  destruct (acute_sin_cos rL HrL90) as [HsinL HcosL].
  destruct (acute_sin_cos rR HrR90) as [HsinR HcosR].
  destruct (side_below_critical n aL Hn ltac:(lra) HLc) as [HexL _].
  destruct (side_below_critical n aR Hn ltac:(lra) HRc) as [HexR _].
  rewrite realPosition_unfold in Hreal.
  rewrite leftExceedsCritical_eq, rightExceedsCritical_eq in Hreal.
  rewrite Hs, HaL, HaR, HexL, HexR in Hreal; cbn [orb] in Hreal.
  unfold realLeftSlope, realRightSlope in Hreal.
  rewrite leftRefractedAngle_eq, rightRefractedAngle_eq in Hreal.
  rewrite Hs, HaL, HaR, HrL, HrR, HpL, HpR in Hreal.
  unfold waterLevelY in Hreal.
  rewrite !ray_slope in Hreal by lra.
  match type of Hreal with
  | Some ?p = _ => assert (Hp : p = mkPoint (Fin px) (Fin py)) by congruence
  end.
  apply intersect_finite_inv in Hp.
  destruct Hp as [_ [H1 H2]].
  exists rL, rR.
  eexists; eexists.
  split; [exact HrLeq |]. split; [exact HrReq |].
  split; [exact HrL90 |]. split; [exact HrR90 |].
  split; [exact H1 | exact H2].
Qed.

Lemma updateApparentFromReal_finite (s : State) (n aL aR lx rx px py : R) :
  lockRealPosition s = true ->
  refractiveIndex s = Fin n -> 1 <= n ->
  leftAngleDeg s = Fin aL -> rightAngleDeg s = Fin aR ->
  0 < aL -> aL < criticalDeg n -> 0 < aR -> aR < criticalDeg n ->
  leftPoint s = mkPoint (Fin lx) waterLevelY ->
  rightPoint s = mkPoint (Fin rx) waterLevelY ->
  realPosition s = Some (mkPoint (Fin px) (Fin py)) -> py < 450 ->
  updateApparentFromReal s
  = set_apparentPosition
      (intersect
         (mkPoint (Fin lx) (Fin 450))
         (Fin (- cos (aL * PI / 180) / sin (aL * PI / 180)
               * direction (Rltb (px - lx) 0)))
         (mkPoint (Fin rx) (Fin 450))
         (Fin (- cos (aR * PI / 180) / sin (aR * PI / 180)
               * direction (Rltb (px - rx) 0)))) s.
Proof.
  intros Hlock Hs Hn HaL HaR HL0 HLc HR0 HRc HpL HpR Hreal Hpy.
  destruct (realPosition_finite_inv s n aL aR lx rx px py)
    as [rL [rR [bL [bR [HrL [HrR [HrL90 [HrR90 [HlineL HlineR]]]]]]]]];
    try assumption.
  destruct (on_ray_angles rL (px - lx) (py - 450) bL HrL90 HlineL ltac:(lra))
    as [HincL _].
  destruct (on_ray_angles rR (px - rx) (py - 450) bR HrR90 HlineR ltac:(lra))
    as [HincR _].
  destruct (side_below_critical n aL Hn ltac:(lra) HLc) as [HexL _].
  destruct (side_below_critical n aR Hn ltac:(lra) HRc) as [HexR _].
  pose proof (criticalDeg_range n Hn) as Hc.
  destruct (acute_sin_cos aL ltac:(lra)) as [HsinL HcosL].
  destruct (acute_sin_cos aR ltac:(lra)) as [HsinR HcosR].
  pose proof PI_RGT_0 as Hpi.
  unfold updateApparentFromReal.
  rewrite Hlock, Hreal; cbn [negb x y].
  rewrite leftExceedsCritical_eq, rightExceedsCritical_eq, Hs, HaL, HaR.
  rewrite HexL, HexR.
  unfold waterLevelY at 1; rewrite ge_Fin, Rleb_false by assumption.
  cbn [orb].
  rewrite HpL, HpR; unfold waterLevelY; cbn [x y].
  rewrite !sub_Fin; cbn [Math_abs Math_atan2].
  rewrite HincL, HincR, HrL, HrR.
  rewrite !(airToWaterRad_refracted s n) by (assumption || lra).
  rewrite !toDeg_Fin.
  replace (aL * PI / 180 * 180 / PI) with aL by (field; lra).
  replace (aR * PI / 180 * 180 / PI) with aR by (field; lra).
  rewrite !lt_Fin.
  rewrite !ray_slope by lra.
  reflexivity.
Qed.


Lemma clampAngle_in_range (a : R) :
  0 <= a <= 89.9 -> clampAngle (Fin a) = Fin a.
Proof.
  intros [H0 H1]; unfold clampAngle.
  cbn [Math_min lt].
  destruct (Rltb a 89.9) eqn:E1; cbn [Math_max lt].
  - destruct (Rltb 0 a) eqn:E2; [reflexivity |].
    f_equal; unfold Rltb in E2; destruct (Rlt_dec 0 a); [discriminate | lra].
  - rewrite Rltb_true by lra.
    f_equal; unfold Rltb in E1; destruct (Rlt_dec a 89.9); [discriminate | lra].
Qed.

Lemma set_angles_same (s : State) :
  set_rightAngleDeg (rightAngleDeg s) (set_leftAngleDeg (leftAngleDeg s) s) = s.
Proof. destruct s; reflexivity. Qed.

(** With both angles inside the clamp range and no drag in progress, the
    angle watcher's callback is [updateApparentFromReal]. *)
Lemma angleWatcher_in_range (s : State) (aL aR : R) :
  updatingFromDrag s = false ->
  leftAngleDeg s = Fin aL -> rightAngleDeg s = Fin aR ->
  0 <= aL <= 89.9 -> 0 <= aR <= 89.9 ->
  angleWatcher s = updateApparentFromReal s.
Proof.
  intros Hflag HaL HaR HrL HrR; unfold angleWatcher; rewrite Hflag.
  cbn [rightAngleDeg set_leftAngleDeg].
  rewrite HaL, HaR, !clampAngle_in_range by assumption.
  rewrite <- HaL, <- HaR, set_angles_same; reflexivity.
Qed.


(** ** The apparent position between the two refraction points *)

Lemma cotDeg_pos (a : R) : 0 < a < 90 -> 0 < cotDeg a.
Proof.
  intros Ha; destruct (acute_sin_cos a Ha) as [Hs Hc].
  unfold cotDeg; apply Rdiv_lt_0_compat; assumption.
Qed.

Lemma slope_cotDeg (a : R) (isLeft : bool) :
  0 < a < 90 ->
  - cos (a * PI / 180) / sin (a * PI / 180) * direction isLeft
  = - cotDeg a * direction isLeft.
Proof.
  intros Ha; destruct (acute_sin_cos a Ha) as [Hs Hc].
  unfold cotDeg; field; lra.
Qed.

(** Two rays that lean towards each other, from [lx < rx], with
    cotangents [kL] and [kR]: they cross strictly between the two points
    and above the interface. *)
Lemma intersect_converging (lx rx kL kR : R) :
  lx < rx -> 0 < kL -> 0 < kR ->
  intersect (mkPoint (Fin lx) (Fin 450)) (Fin (- kL * 1))
            (mkPoint (Fin rx) (Fin 450)) (Fin (- kR * -1))
  = mkPoint (Fin ((kL * lx + kR * rx) / (kL + kR)))
            (Fin (450 - kL * kR * (rx - lx) / (kL + kR))) /\
  lx < (kL * lx + kR * rx) / (kL + kR) < rx /\
  450 - kL * kR * (rx - lx) / (kL + kR) < 450.
Proof.
  intros Hlr HkL HkR.
  assert (Hsum : 0 < kL + kR) by lra.
  split; [| split].
  - rewrite intersect_Fin by lra.
    f_equal; f_equal; field; lra.
  - split.
    + apply Rmult_lt_reg_r with (kL + kR); [exact Hsum |].
      replace ((kL * lx + kR * rx) / (kL + kR) * (kL + kR))
        with (kL * lx + kR * rx) by (field; lra).
      nra.
    + apply Rmult_lt_reg_r with (kL + kR); [exact Hsum |].
      replace ((kL * lx + kR * rx) / (kL + kR) * (kL + kR))
        with (kL * lx + kR * rx) by (field; lra).
      nra.
  - assert (0 < kL * kR * (rx - lx) / (kL + kR)); [| lra].
    apply Rdiv_lt_0_compat; [| exact Hsum].
    apply Rmult_lt_0_compat; [apply Rmult_lt_0_compat; assumption | lra].
Qed.

(** With the apparent position between the two refraction points and
    both angles above 0 and below the critical angle, the real position
    exists, and [updateApparentFromReal] puts the apparent position where
    the two rays of the angles cross: again between the two points and
    above the interface. *)
Lemma updateApparentFromReal_between (s : State) (n aL aR lx rx ax : R) :
  lockRealPosition s = true ->
  refractiveIndex s = Fin n -> 1 <= n ->
  leftAngleDeg s = Fin aL -> rightAngleDeg s = Fin aR ->
  0 < aL -> aL < criticalDeg n -> 0 < aR -> aR < criticalDeg n ->
  leftPoint s = mkPoint (Fin lx) waterLevelY ->
  rightPoint s = mkPoint (Fin rx) waterLevelY ->
  lx < rx ->
  x (apparentPosition s) = Fin ax -> lx <= ax < rx ->
  let qx := (cotDeg aL * lx + cotDeg aR * rx) / (cotDeg aL + cotDeg aR) in
  let qy :=
    450 - cotDeg aL * cotDeg aR * (rx - lx) / (cotDeg aL + cotDeg aR) in
  updateApparentFromReal s = set_apparentPosition (mkPoint (Fin qx) (Fin qy)) s /\
  lx < qx < rx /\ qy < 450 /\
  exists px py,
    realPosition s = Some (mkPoint (Fin px) (Fin py)) /\
    lx < px < rx /\ py < 450.
Proof.
  intros Hlock Hs Hn HaL HaR HL0 HLc HR0 HRc HpL HpR Hlr Hax Hbetween qx qy.
  pose proof (criticalDeg_range n Hn) as Hc.
  destruct (refractedAngleOf_positive n aL Hn HL0 HLc) as [rL [HrL [HrL90 _]]].
  destruct (refractedAngleOf_positive n aR Hn HR0 HRc) as [rR [HrR [HrR90 _]]].
  destruct (acute_sin_cos rL HrL90) as [HsinL HcosL].
  destruct (acute_sin_cos rR HrR90) as [HsinR HcosR].
  destruct (side_below_critical n aL Hn ltac:(lra) HLc) as [HexL _].
  destruct (side_below_critical n aR Hn ltac:(lra) HRc) as [HexR _].
  pose proof (cotDeg_pos rL HrL90) as HkL.
  pose proof (cotDeg_pos rR HrR90) as HkR.
  pose proof (cotDeg_pos aL ltac:(lra)) as HcL.
  pose proof (cotDeg_pos aR ltac:(lra)) as HcR.
  destruct (intersect_converging lx rx (cotDeg rL) (cotDeg rR) Hlr HkL HkR)
    as [Hreal [Hpx Hpy]].
  destruct (intersect_converging lx rx (cotDeg aL) (cotDeg aR) Hlr HcL HcR)
    as [Happ [Hqx Hqy]].
  set (px := (cotDeg rL * lx + cotDeg rR * rx) / (cotDeg rL + cotDeg rR)) in *.
  set (py := 450 - cotDeg rL * cotDeg rR * (rx - lx) / (cotDeg rL + cotDeg rR)) in *.
  assert (HrealPos : realPosition s = Some (mkPoint (Fin px) (Fin py))).
  { rewrite realPosition_unfold.
    rewrite leftExceedsCritical_eq, rightExceedsCritical_eq, Hs, HaL, HaR.
    rewrite HexL, HexR; cbn [orb].
    unfold realLeftSlope, realRightSlope.
    rewrite leftRefractedAngle_eq, rightRefractedAngle_eq, Hs, HaL, HaR.
    rewrite HrL, HrR, HpL, HpR, Hax; unfold waterLevelY; cbn [x].
    rewrite !ray_slope by lra.
    rewrite !lt_Fin, (Rltb_false ax lx), (Rltb_true ax rx) by lra.
    rewrite !slope_cotDeg by assumption.
    unfold direction; rewrite Hreal; reflexivity. }
  split.
  - rewrite (updateApparentFromReal_finite s n aL aR lx rx px py)
      by (assumption || lra).
    rewrite (Rltb_false (px - lx) 0), (Rltb_true (px - rx) 0) by lra.
    rewrite !slope_cotDeg by lra.
    unfold direction; rewrite Happ; reflexivity.
  - split; [exact Hqx |]. split; [exact Hqy |].
    exists px, py; split; [exact HrealPos |]. split; [exact Hpx | exact Hpy].
Qed.

(** ** Rounding to one decimal *)

Lemma pow_10_21_large (r : R) : Rabs r <= 1000 -> Rleb (10 ^ 21) (Rabs r) = false.
Proof.
  intros H; apply Rleb_false.
  assert (H21 : 1000 < 10 ^ 21) by (simpl; lra).
  lra.
Qed.

Lemma roundTenth_eq (r : R) (k : Z) :
  0 <= r -> IZR k <= r * 10 + / 2 < IZR k + 1 -> roundTenth r = IZR k / 10.
Proof.
  intros Hr Hk; unfold roundTenth.
  rewrite Rltb_false by assumption.
  rewrite (Zfloor_eq k) by assumption; reflexivity.
Qed.

Lemma toFixed1_eq (r : R) (k : Z) :
  0 <= r <= 1000 -> IZR k <= r * 10 + / 2 < IZR k + 1 ->
  toFixed1 (Fin r) = Fin (IZR k / 10).
Proof.
  intros Hr Hk; unfold toFixed1.
  rewrite pow_10_21_large by (rewrite Rabs_right; lra).
  rewrite (roundTenth_eq r k) by (lra || assumption); reflexivity.
Qed.




Lemma toFixed1_near_90 (w : R) : 89.95 <= w < 90.05 -> toFixed1 (Fin w) = Fin 90.
Proof.
  intros Hw; rewrite (toFixed1_eq w 900) by lra.
  f_equal; lra.
Qed.

(** ** Numeric bounds on tangents and arctangents *)

Lemma cos_deg_sin (d : R) : cos (d * PI / 180) = sin ((90 - d) * PI / 180).
Proof.
  replace ((90 - d) * PI / 180) with (PI / 2 - d * PI / 180) by field.
  symmetry; apply sin_shift.
Qed.

Lemma sin_deg_lower (d lo : R) :
  0 <= lo -> lo <= d * PI / 180 -> d <= 90 ->
  lo - lo ^ 3 / 6 + lo ^ 5 / 120 - lo ^ 7 / 5040 <= sin (d * PI / 180).
Proof.
  intros Hlo Hd H90.
  pose proof PI_RGT_0 as Hpi.
  assert (Hd2 : d * PI / 180 <= PI / 2) by nra.
  assert (Hs : sin lo <= sin (d * PI / 180)) by (apply sin_incr_1; lra).
  pose proof (sin_lower lo ltac:(lra)); lra.
Qed.

Lemma sin_deg_upper (d hi : R) :
  0 <= d -> d * PI / 180 <= hi -> hi <= PI / 2 ->
  sin (d * PI / 180)
  <= hi - hi ^ 3 / 6 + hi ^ 5 / 120 - hi ^ 7 / 5040 + hi ^ 9 / 362880.
Proof.
  intros Hd0 Hd Hhi.
  pose proof PI_RGT_0 as Hpi.
  assert (Hd2 : 0 <= d * PI / 180) by nra.
  assert (Hs : sin (d * PI / 180) <= sin hi) by (apply sin_incr_1; lra).
  pose proof (sin_upper hi ltac:(lra)); lra.
Qed.

(** [tan d <= v] and [v < tan d] for an angle [d] in degrees, decided on
    rational enclosures of [d] and of [90 - d] in radians. *)
Lemma tan_deg_le (d v hi lo : R) :
  0 < d < 90 -> 0 <= v ->
  d * PI / 180 <= hi -> hi <= PI / 2 ->
  0 <= lo -> lo <= (90 - d) * PI / 180 ->
  hi - hi ^ 3 / 6 + hi ^ 5 / 120 - hi ^ 7 / 5040 + hi ^ 9 / 362880
  <= v * (lo - lo ^ 3 / 6 + lo ^ 5 / 120 - lo ^ 7 / 5040) ->
  sin (d * PI / 180) <= v * cos (d * PI / 180).
Proof.
  intros Hd Hv Hhi1 Hhi2 Hlo1 Hlo2 Hpoly.
  rewrite cos_deg_sin.
  pose proof (sin_deg_upper d hi ltac:(lra) Hhi1 Hhi2) as Hu.
  pose proof (sin_deg_lower (90 - d) lo Hlo1 Hlo2 ltac:(lra)) as Hl.
  nra.
Qed.

Lemma tan_deg_gt (d v lo hi : R) :
  0 < d < 90 -> 0 <= v ->
  0 <= lo -> lo <= d * PI / 180 ->
  (90 - d) * PI / 180 <= hi -> hi <= PI / 2 ->
  v * (hi - hi ^ 3 / 6 + hi ^ 5 / 120 - hi ^ 7 / 5040 + hi ^ 9 / 362880)
  < lo - lo ^ 3 / 6 + lo ^ 5 / 120 - lo ^ 7 / 5040 ->
  v * cos (d * PI / 180) < sin (d * PI / 180).
Proof.
  intros Hd Hv Hlo1 Hlo2 Hhi1 Hhi2 Hpoly.
  rewrite cos_deg_sin.
  pose proof (sin_deg_lower d lo Hlo1 Hlo2 ltac:(lra)) as Hl.
  pose proof (sin_deg_upper (90 - d) hi ltac:(lra) Hhi1 Hhi2) as Hu.
  nra.
Qed.

Lemma atan_deg_lower (v d : R) :
  0 < d < 90 -> sin (d * PI / 180) <= v * cos (d * PI / 180) ->
  d <= atan v * 180 / PI.
Proof.
  intros Hd Htan.
  destruct (acute_sin_cos d Hd) as [Hs Hc].
  pose proof PI_RGT_0 as Hpi.
  assert (Hr : 0 < d * PI / 180 < PI / 2) by (split; nra).
  apply rad_deg_le.
  rewrite <- (atan_tan (d * PI / 180)) by lra.
  assert (Ht : tan (d * PI / 180) <= v).
  { unfold tan. apply Rmult_le_reg_r with (cos (d * PI / 180)); [exact Hc |].
    replace (sin (d * PI / 180) / cos (d * PI / 180) * cos (d * PI / 180))
      with (sin (d * PI / 180)) by (field; lra).
    exact Htan. }
  destruct Ht as [Hlt | Heq];
    [left; apply atan_increasing; exact Hlt | right; rewrite Heq; reflexivity].
Qed.

Lemma atan_deg_upper (v d : R) :
  0 < d < 90 -> v * cos (d * PI / 180) < sin (d * PI / 180) ->
  atan v * 180 / PI < d.
Proof.
  intros Hd Htan.
  destruct (acute_sin_cos d Hd) as [Hs Hc].
  pose proof PI_RGT_0 as Hpi.
  assert (Hr : 0 < d * PI / 180 < PI / 2) by (split; nra).
  apply rad_deg_lt.
  rewrite <- (atan_tan (d * PI / 180)) by lra.
  apply atan_increasing.
  unfold tan. apply Rmult_lt_reg_r with (cos (d * PI / 180)); [exact Hc |].
  replace (sin (d * PI / 180) / cos (d * PI / 180) * cos (d * PI / 180))
    with (sin (d * PI / 180)) by (field; lra).
  exact Htan.
Qed.

(** The angle of the vector (150, 250), 30.96 degrees, prints as 31.0. *)
Lemma atan_06_deg : 30.95 <= atan 0.6 * 180 / PI < 31.05.
Proof.
  pose proof PI_bounds as [Pl Pu].
  split.
  - apply atan_deg_lower; [lra |].
    apply tan_deg_le with (hi := 30.95 * 3.1416 / 180)
                          (lo := 59.05 * 3.14159 / 180); lra.
  - apply atan_deg_upper; [lra |].
    apply tan_deg_gt with (lo := 31.05 * 3.14159 / 180)
                          (hi := 58.95 * 3.1416 / 180); lra.
Qed.

(** The angle of the vector (150, 200), 36.87 degrees, prints as 36.9. *)
Lemma atan_075_deg : 36.85 <= atan 0.75 * 180 / PI < 36.95.
Proof.
  pose proof PI_bounds as [Pl Pu].
  split.
  - apply atan_deg_lower; [lra |].
    apply tan_deg_le with (hi := 36.85 * 3.1416 / 180)
                          (lo := 53.15 * 3.14159 / 180); lra.
  - apply atan_deg_upper; [lra |].
    apply tan_deg_gt with (lo := 36.95 * 3.14159 / 180)
                          (hi := 53.05 * 3.1416 / 180); lra.
Qed.

Lemma cotDeg_31 : 235 < 150 * cotDeg 31 < 265.
Proof.
  pose proof PI_bounds as [Pl Pu].
  destruct (acute_sin_cos 31 ltac:(lra)) as [Hs Hc].
  assert (H1 : 0.57 * cos (31 * PI / 180) < sin (31 * PI / 180)).
  { apply tan_deg_gt with (lo := 31 * 3.14159 / 180)
                          (hi := 59 * 3.1416 / 180); lra. }
  assert (H2 : sin (31 * PI / 180) <= 0.63 * cos (31 * PI / 180)).
  { apply tan_deg_le with (hi := 31 * 3.1416 / 180)
                          (lo := 59 * 3.14159 / 180); lra. }
  unfold cotDeg; split.
  - apply Rmult_lt_reg_r with (sin (31 * PI / 180)); [exact Hs |].
    replace (150 * (cos (31 * PI / 180) / sin (31 * PI / 180))
             * sin (31 * PI / 180))
      with (150 * cos (31 * PI / 180)) by (field; lra).
    lra.
  - apply Rmult_lt_reg_r with (sin (31 * PI / 180)); [exact Hs |].
    replace (150 * (cos (31 * PI / 180) / sin (31 * PI / 180))
             * sin (31 * PI / 180))
      with (150 * cos (31 * PI / 180)) by (field; lra).
    lra.
Qed.

Lemma cotDeg_36_9 : 150 * cotDeg 36.9 < 200.
Proof.
  pose proof PI_bounds as [Pl Pu].
  destruct (acute_sin_cos 36.9 ltac:(lra)) as [Hs Hc].
  assert (H1 : 0.75 * cos (36.9 * PI / 180) < sin (36.9 * PI / 180)).
  { apply tan_deg_gt with (lo := 36.9 * 3.14159 / 180)
                          (hi := 53.1 * 3.1416 / 180); lra. }
  unfold cotDeg.
  apply Rmult_lt_reg_r with (sin (36.9 * PI / 180)); [exact Hs |].
  replace (150 * (cos (36.9 * PI / 180) / sin (36.9 * PI / 180))
           * sin (36.9 * PI / 180))
    with (150 * cos (36.9 * PI / 180)) by (field; lra).
  lra.
Qed.

(** ** The jobs of the watchers *)

Lemma sameValue_refl (a : num) : sameValue a a = true.
Proof. destruct a; try reflexivity; cbn; apply Reqb_true; reflexivity. Qed.

Lemma clampAngle_Fin (r : R) :
  exists r', clampAngle (Fin r) = Fin r' /\ 0 <= r' <= 89.9.
Proof.
  unfold clampAngle; cbn [Math_min lt]; unfold Rltb at 1.
  destruct (Rlt_dec r 89.9); cbn [Math_max lt]; unfold Rltb;
    destruct (Rlt_dec 0 _); eexists; (split; [reflexivity | lra]).
Qed.

Lemma clampAngle_Infinity : clampAngle Infinity = Fin 89.9.
Proof.
  unfold clampAngle; cbn [Math_min lt Math_max].
  rewrite Rltb_true by lra; reflexivity.
Qed.

Lemma clampAngle_NegInfinity : clampAngle NegInfinity = Fin 0.
Proof.
  reflexivity.
Qed.

Lemma clampAngle_idempotent (a : num) : clampAngle (clampAngle a) = clampAngle a.
Proof.
  destruct a as [| | | r].
  - reflexivity.
  - rewrite clampAngle_Infinity; apply clampAngle_in_range; lra.
  - rewrite clampAngle_NegInfinity; apply clampAngle_in_range; lra.
  - destruct (clampAngle_Fin r) as [r' [-> Hr']].
    apply clampAngle_in_range; exact Hr'.
Qed.

Lemma angleWatcher_running (s : State) :
  updatingFromDrag s = false ->
  leftAngleDeg (angleWatcher s) = clampAngle (leftAngleDeg s) /\
  rightAngleDeg (angleWatcher s) = clampAngle (rightAngleDeg s) /\
  updatingFromDrag (angleWatcher s) = false.
Proof.
  intros H; unfold angleWatcher; rewrite H.
  rewrite updateApparentFromReal_leftAngleDeg,
          updateApparentFromReal_rightAngleDeg,
          updateApparentFromReal_updatingFromDrag.
  repeat split; exact H.
Qed.

Lemma flushAngleWatcher_stop (fuel : nat) (c : Component) :
  anglesChanged c = false -> flushAngleWatcher fuel c = c.
Proof. intros H; destruct fuel; cbn [flushAngleWatcher]; [| rewrite H]; reflexivity. Qed.

(** When the angles differ from what the watcher saw last and no drag is
    in progress, the flush leaves both angles clamped: the callback runs,
    and runs once more if the clamp itself changed an angle. *)
Lemma flushAngleWatcher_clamps (fuel : nat) (c : Component) :
  updatingFromDrag (state c) = false ->
  anglesChanged c = true ->
  leftAngleDeg (state (flushAngleWatcher (S (S fuel)) c))
  = clampAngle (leftAngleDeg (state c)) /\
  rightAngleDeg (state (flushAngleWatcher (S (S fuel)) c))
  = clampAngle (rightAngleDeg (state c)).
Proof.
  intros Hflag Hch.
  cbn [flushAngleWatcher]; rewrite Hch.
  set (c1 := angleWatcherJob c).
  destruct (angleWatcher_running (state c) Hflag) as [HL1 [HR1 Hf1]].
  change (angleWatcher (state c)) with (state c1) in HL1, HR1, Hf1.
  destruct (anglesChanged c1) eqn:Hch1; [| rewrite <- HL1, <- HR1; split; reflexivity].
  set (c2 := angleWatcherJob c1).
  destruct (angleWatcher_running (state c1) Hf1) as [HL2 [HR2 Hf2]].
  change (angleWatcher (state c1)) with (state c2) in HL2, HR2, Hf2.
  rewrite HL1, clampAngle_idempotent in HL2.
  rewrite HR1, clampAngle_idempotent in HR2.
  assert (Hch2 : anglesChanged c2 = false).
  { unfold anglesChanged.
    change (anglesSeen c2) with (leftAngleDeg (state c1), rightAngleDeg (state c1)).
    cbn [fst snd]; rewrite HL2, HR2, HL1, HR1, !sameValue_refl; reflexivity. }
  rewrite flushAngleWatcher_stop by exact Hch2.
  split; assumption.
Qed.

Lemma flushRefractiveIndexWatcher_angles (c : Component) :
  leftAngleDeg (state (flushRefractiveIndexWatcher c)) = leftAngleDeg (state c) /\
  rightAngleDeg (state (flushRefractiveIndexWatcher c)) = rightAngleDeg (state c).
Proof.
  unfold flushRefractiveIndexWatcher.
  destruct (sameValue _ _); [split; reflexivity |].
  cbn [state]; unfold refractiveIndexWatcher.
  destruct (lockRealPosition (state c)); [| split; reflexivity].
  rewrite updateApparentFromReal_leftAngleDeg,
          updateApparentFromReal_rightAngleDeg; split; reflexivity.
Qed.

Lemma flushLockRealPositionWatcher_angles (c : Component) :
  leftAngleDeg (state (flushLockRealPositionWatcher c)) = leftAngleDeg (state c) /\
  rightAngleDeg (state (flushLockRealPositionWatcher c)) = rightAngleDeg (state c).
Proof.
  unfold flushLockRealPositionWatcher.
  destruct (Bool.eqb _ _); [split; reflexivity |].
  cbn [state]; unfold lockRealPositionWatcher.
  rewrite updateApparentFromReal_leftAngleDeg,
          updateApparentFromReal_rightAngleDeg; split; reflexivity.
Qed.

Lemma flushJobs_clamps (c : Component) :
  updatingFromDrag (state c) = false ->
  anglesChanged c = true ->
  leftAngleDeg (state (flushJobs c)) = clampAngle (leftAngleDeg (state c)) /\
  rightAngleDeg (state (flushJobs c)) = clampAngle (rightAngleDeg (state c)).
Proof.
  intros Hflag Hch; unfold flushJobs.
  destruct (flushLockRealPositionWatcher_angles
              (flushRefractiveIndexWatcher
                 (flushAngleWatcher RECURSION_LIMIT c))) as [-> ->].
  destruct (flushRefractiveIndexWatcher_angles
              (flushAngleWatcher RECURSION_LIMIT c)) as [-> ->].
  change RECURSION_LIMIT with (S (S 98)).
  apply flushAngleWatcher_clamps; assumption.
Qed.

Lemma clampAngle_90 : clampAngle (Fin 90) = Fin 89.9.
Proof.
  unfold clampAngle; cbn [Math_min lt]; rewrite Rltb_false by lra.
  cbn [Math_max lt]; rewrite Rltb_true by lra; reflexivity.
Qed.

Lemma updateApparentFromReal_refractiveIndex (s : State) :
  refractiveIndex (updateApparentFromReal s) = refractiveIndex s.
Proof. destruct (updateApparentFromReal_cases s) as [-> | [p ->]]; reflexivity. Qed.

Lemma updateApparentFromReal_lockRealPosition (s : State) :
  lockRealPosition (updateApparentFromReal s) = lockRealPosition s.
Proof. destruct (updateApparentFromReal_cases s) as [-> | [p ->]]; reflexivity. Qed.

Lemma flushRefractiveIndexWatcher_idle (c : Component) :
  indexSeen c = refractiveIndex (state c) -> flushRefractiveIndexWatcher c = c.
Proof.
  intros H; unfold flushRefractiveIndexWatcher.
  rewrite H, sameValue_refl; reflexivity.
Qed.

Lemma flushLockRealPositionWatcher_idle (c : Component) :
  lockSeen c = lockRealPosition (state c) -> flushLockRealPositionWatcher c = c.
Proof.
  intros H; unfold flushLockRealPositionWatcher.
  rewrite H, Bool.eqb_reflx; reflexivity.
Qed.

(** No source of any watcher has changed: nothing runs. *)
Lemma flushJobs_idle (c : Component) :
  anglesChanged c = false ->
  indexSeen c = refractiveIndex (state c) ->
  lockSeen c = lockRealPosition (state c) ->
  flushJobs c = c.
Proof.
  intros Ha Hi Hl; unfold flushJobs.
  rewrite flushAngleWatcher_stop by exact Ha.
  rewrite flushRefractiveIndexWatcher_idle by exact Hi.
  apply flushLockRealPositionWatcher_idle; exact Hl.
Qed.

(** The angles have changed, to values inside the clamp range, and no
    drag is in progress: the callback of the angle watcher runs once and
    amounts to [updateApparentFromReal]. *)
Lemma flushJobs_angles_once (c : Component) (aL aR : R) :
  updatingFromDrag (state c) = false ->
  leftAngleDeg (state c) = Fin aL -> rightAngleDeg (state c) = Fin aR ->
  0 <= aL <= 89.9 -> 0 <= aR <= 89.9 ->
  anglesChanged c = true ->
  indexSeen c = refractiveIndex (state c) ->
  lockSeen c = lockRealPosition (state c) ->
  flushJobs c
  = mkComponent (updateApparentFromReal (state c)) (Fin aL, Fin aR)
      (indexSeen c) (lockSeen c).
Proof.
  intros Hflag HaL HaR HrL HrR Hch Hi Hl; unfold flushJobs.
  change RECURSION_LIMIT with (S (S 98)).
  cbn [flushAngleWatcher]; rewrite Hch.
  assert (Hjob : angleWatcherJob c
                 = mkComponent (updateApparentFromReal (state c))
                     (Fin aL, Fin aR) (indexSeen c) (lockSeen c)).
  { unfold angleWatcherJob.
    rewrite (angleWatcher_in_range (state c) aL aR) by assumption.
    rewrite HaL, HaR; reflexivity. }
  rewrite Hjob.
  set (c1 := mkComponent _ _ _ _).
  assert (Hch1 : anglesChanged c1 = false).
  { unfold anglesChanged, c1; cbn [state anglesSeen fst snd].
    rewrite updateApparentFromReal_leftAngleDeg,
            updateApparentFromReal_rightAngleDeg, HaL, HaR.
    rewrite !sameValue_refl; reflexivity. }
  rewrite Hch1.
  rewrite flushRefractiveIndexWatcher_idle
    by (unfold c1; cbn [state indexSeen];
        rewrite updateApparentFromReal_refractiveIndex; exact Hi).
  apply flushLockRealPositionWatcher_idle.
  unfold c1; cbn [state lockSeen].
  rewrite updateApparentFromReal_lockRealPosition; exact Hl.
Qed.

(** Equal angles, the apparent position between the refraction points. *)
Lemma updateApparentFromReal_between_equal (s : State) (n a lx rx ax : R) :
  lockRealPosition s = true ->
  refractiveIndex s = Fin n -> 1 <= n ->
  leftAngleDeg s = Fin a -> rightAngleDeg s = Fin a ->
  0 < a -> a < criticalDeg n ->
  leftPoint s = mkPoint (Fin lx) waterLevelY ->
  rightPoint s = mkPoint (Fin rx) waterLevelY ->
  lx < rx ->
  x (apparentPosition s) = Fin ax -> lx <= ax < rx ->
  updateApparentFromReal s
  = set_apparentPosition
      (mkPoint (Fin ((lx + rx) / 2)) (Fin (450 - cotDeg a * (rx - lx) / 2))) s.
Proof.
  intros Hlock Hs Hn HaL HaR Ha0 Hac HpL HpR Hlr Hax Hbetween.
  destruct (updateApparentFromReal_between s n a a lx rx ax) as [Hupd _];
    try assumption.
  rewrite Hupd.
  pose proof (criticalDeg_range n Hn) as Hc.
  pose proof (cotDeg_pos a ltac:(lra)) as Hk.
  replace ((cotDeg a * lx + cotDeg a * rx) / (cotDeg a + cotDeg a))
    with ((lx + rx) / 2) by (field; lra).
  replace (450 - cotDeg a * cotDeg a * (rx - lx) / (cotDeg a + cotDeg a))
    with (450 - cotDeg a * (rx - lx) / 2) by (field; lra).
  reflexivity.
Qed.

Lemma Rabs_atan (v : R) :
  0 <= v -> Rabs (atan v) = atan v /\ Rabs (atan (- v)) = atan v.
Proof.
  intros Hv.
  assert (H0 : 0 <= atan v).
  { rewrite <- atan_0; destruct Hv as [Hv | <-];
      [left; apply atan_increasing; exact Hv | right; reflexivity]. }
  split.
  - apply Rabs_right; lra.
  - rewrite atan_opp, Rabs_Ropp; apply Rabs_right; lra.
Qed.

(** The angles [updateAnglesFromPositions] derives from an apparent
    position above the interface. *)
Lemma updateAnglesFromPositions_above (s : State) (lx rx ax ay : R) :
  leftPoint s = mkPoint (Fin lx) waterLevelY ->
  rightPoint s = mkPoint (Fin rx) waterLevelY ->
  apparentPosition s = mkPoint (Fin ax) (Fin ay) -> ay < 450 ->
  updateAnglesFromPositions s
  = withAngles
      (toFixed1 (Fin (Rabs (atan ((ax - lx) / (450 - ay))) * 180 / PI)))
      (toFixed1 (Fin (Rabs (atan ((ax - rx) / (450 - ay))) * 180 / PI))) s.
Proof.
  intros HpL HpR Hap Hay.
  unfold updateAnglesFromPositions, withAngles.
  rewrite HpL, HpR, Hap; unfold waterLevelY; cbn [x y].
  rewrite !sub_Fin; cbn [neg Math_atan2].
  rewrite !Ratan2_right by lra.
  replace (- (ay - 450)) with (450 - ay) by ring.
  cbn [Math_abs]; rewrite !toDeg_Fin; reflexivity.
Qed.

Lemma sqrt_ge_15 (v : R) : 225 <= v -> 15 <= sqrt v.
Proof.
  intros Hv.
  replace 15 with (sqrt 225).
  - apply sqrt_le_1; lra.
  - replace 225 with (15 * 15) by lra; apply sqrt_square; lra.
Qed.

Lemma sqrt_lt_15 (v : R) : 0 <= v < 225 -> sqrt v < 15.
Proof.
  intros Hv.
  replace 15 with (sqrt 225).
  - apply sqrt_lt_1; lra.
  - replace 225 with (15 * 15) by lra; apply sqrt_square; lra.
Qed.

Lemma isNearPoint_Fin (s : State) (ox oy sx sy px py : R) :
  viewportOffset s = mkPoint (Fin ox) (Fin oy) ->
  isNearPoint s (Fin sx) (Fin sy) (mkPoint (Fin px) (Fin py))
  = Rltb (sqrt ((sx - (px + ox)) * (sx - (px + ox))
                + (sy - (py + oy)) * (sy - (py + oy)))) 15.
Proof.
  intros Hoff; unfold isNearPoint, worldToScreen; rewrite Hoff; cbn [x y].
  rewrite !add_Fin, !sub_Fin, !mul_Fin, add_Fin.
  cbn [Math_sqrt]; rewrite Rleb_true; [reflexivity |].
  pose proof (Rle_0_sqr (sx - (px + ox))) as H1.
  pose proof (Rle_0_sqr (sy - (py + oy))) as H2.
  unfold Rsqr in H1, H2; lra.
Qed.

(** ** The mounted component *)

Lemma toFixed1_31 (w : R) : 30.95 <= w < 31.05 -> toFixed1 (Fin w) = Fin 31.
Proof.
  intros Hw; rewrite (toFixed1_eq w 310) by lra.
  f_equal; lra.
Qed.

(** The mounted hook derives 31.0 for both angles from the initial
    apparent position. *)
Lemma mounted_angles :
  handle Mounted initialState = withAngles (Fin 31) (Fin 31) initialState.
Proof.
  cbn [handle].
  rewrite (updateAnglesFromPositions_above _ 250 550 400 200)
    by (reflexivity || lra).
  replace (450 - 200) with 250 by lra.
  replace ((400 - 250) / 250) with 0.6 by lra.
  replace ((400 - 550) / 250) with (- (0.6)) by lra.
  destruct (Rabs_atan 0.6 ltac:(lra)) as [-> ->].
  rewrite (toFixed1_31 _ atan_06_deg).
  reflexivity.
Qed.

(** After the mounted hook the angle watcher has put the apparent
    position where the rays of 31 degrees cross. *)
Lemma after_mounted :
  dispatch Mounted initialComponent
  = mkComponent
      (set_apparentPosition
         (mkPoint (Fin ((250 + 550) / 2))
                  (Fin (450 - cotDeg 31 * (550 - 250) / 2)))
         (withAngles (Fin 31) (Fin 31) initialState))
      (Fin 31, Fin 31) (Fin 1.33) true.
Proof.
  pose proof criticalDeg_water as Hcrit.
  unfold dispatch; cbn [state initialComponent setup].
  rewrite mounted_angles.
  rewrite (flushJobs_angles_once _ 31 31); try reflexivity; try lra.
  - cbn [state with_state indexSeen lockSeen].
    rewrite (updateApparentFromReal_between_equal _ 1.33 31 250 550 400);
      try reflexivity; lra.
  - unfold anglesChanged; cbn; rewrite Reqb_false by lra; reflexivity.
Qed.

(** ** C5: the cycle angle, apparent position, angle *)








(** ** C6: the suppress flag and the angle watcher *)

(** The guard of the callback: a call made while [updatingFromDrag] is
    set changes nothing. *)
Lemma angleWatcher_suppressed (s : State) :
  updatingFromDrag s = true -> angleWatcher s = s.
Proof. intros H; unfold angleWatcher; rewrite H; reflexivity. Qed.

(** Every drag branch of the mouse-move handler leaves the flag cleared
    when it has set it. *)
Lemma handleMouseMove_releases_flag (sx sy : num) (s : State) :
  updatingFromDrag s = false ->
  updatingFromDrag (handleMouseMove sx sy s) = false.
Proof.
  intros H; unfold handleMouseMove.
  destruct (dragging s) as [[| | | |] |]; try exact H; try reflexivity.
  - destruct (lt _ _); [reflexivity | exact H].
  - destruct (_ && _); [reflexivity | exact H].
Qed.

(** A steep vector is within a twentieth of a degree of the horizontal. *)
Lemma atan_steep (v : R) : 1700 <= v -> 89.95 <= atan v * 180 / PI < 90.
Proof.
  intros Hv.
  pose proof PI_bounds as [Pl Pu].
  pose proof (atan_bound v) as [_ Hub].
  split.
  - apply rad_deg_le.
    set (t := 89.95 * PI / 180).
    assert (Ht : 0 < t < PI / 2) by (unfold t; split; lra).
    assert (Hcos : 0.0008 < cos t).
    { rewrite <- sin_shift.
      set (lo := 3.14159 / 3600).
      assert (Hlo : lo <= PI / 2 - t) by (unfold lo, t; lra).
      assert (Hs : sin lo <= sin (PI / 2 - t))
        by (apply sin_incr_1; unfold lo in *; lra).
      pose proof (sin_lower lo ltac:(unfold lo; lra)) as Hp.
      assert (0.0008 < lo - lo ^ 3 / 6 + lo ^ 5 / 120 - lo ^ 7 / 5040)
        by (unfold lo; lra).
      lra. }
    assert (Htan : tan t < 1700).
    { unfold tan. apply Rmult_lt_reg_r with (cos t); [lra |].
      unfold Rdiv; rewrite Rmult_assoc, Rinv_l, Rmult_1_r by lra.
      pose proof (SIN_bound t); nra. }
    left. rewrite <- (atan_tan t) by lra.
    apply atan_increasing; lra.
  - apply rad_deg_lt.
    replace (90 * PI / 180) with (PI / 2) by field.
    lra.
Qed.

Lemma atan_steep_pos (v : R) : 1700 <= v -> 0 < atan v.
Proof.
  intros Hv; rewrite <- atan_0; apply atan_increasing; lra.
Qed.

Lemma steep_ratio (a b : R) : 0 < b -> 1700 * b <= a -> 1700 <= a / b.
Proof.
  intros Hb Hab.
  apply Rmult_le_reg_r with b; [exact Hb |].
  replace (a / b * b) with a by (field; lra); exact Hab.
Qed.

(** The apparent position dragged to a point that lies, seen from both
    refraction points, far to the right and barely above the interface:
    the handler rounds both angles to 90. *)
Lemma drag_steep (s : State) (lx rx ox oy sx sy : R) :
  dragging s = Some DragApparentPosition ->
  leftPoint s = mkPoint (Fin lx) waterLevelY ->
  rightPoint s = mkPoint (Fin rx) waterLevelY ->
  viewportOffset s = mkPoint (Fin ox) (Fin oy) ->
  sy - oy < 450 ->
  1700 * (450 - (sy - oy)) <= sx - ox - lx ->
  1700 * (450 - (sy - oy)) <= sx - ox - rx ->
  leftAngleDeg (handleMouseMove (Fin sx) (Fin sy) s) = Fin 90 /\
  rightAngleDeg (handleMouseMove (Fin sx) (Fin sy) s) = Fin 90 /\
  updatingFromDrag (handleMouseMove (Fin sx) (Fin sy) s) = false.
Proof.
  intros Hd HpL HpR Hoff Hy HdxL HdxR.
  unfold handleMouseMove, screenToWorld; rewrite Hd, Hoff; cbn [x y].
  rewrite !sub_Fin; unfold waterLevelY.
  rewrite lt_Fin, Rltb_true by lra.
  cbn [leftAngleDeg rightAngleDeg updatingFromDrag set_updatingFromDrag].
  unfold updateAnglesFromPositions.
  cbn [leftAngleDeg rightAngleDeg set_leftAngleDeg set_rightAngleDeg
       apparentPosition leftPoint rightPoint set_updatingFromDrag
       set_apparentPosition].
  rewrite HpL, HpR; unfold waterLevelY; cbn [x y].
  rewrite !sub_Fin; cbn [neg Math_atan2].
  rewrite !Ratan2_right by lra.
  assert (HvL : 1700 <= (sx - ox - lx) / - (sy - oy - 450))
    by (apply steep_ratio; lra).
  assert (HvR : 1700 <= (sx - ox - rx) / - (sy - oy - 450))
    by (apply steep_ratio; lra).
  cbn [Math_abs].
  rewrite !Rabs_right by (left; apply atan_steep_pos; assumption).
  rewrite !toDeg_Fin.
  pose proof (atan_steep _ HvL).
  pose proof (atan_steep _ HvR).
  rewrite !toFixed1_near_90 by lra.
  repeat split.
Qed.

(** A drag to a point far to the right of both refraction points and
    barely above the interface: the handler writes 90 into both angles
    and clears the flag; the angle watcher then runs with the flag
    cleared and clamps both angles to 89.9. *)
Lemma steep_drag_is_clamped
    (c : Component) (lx rx ox oy sx sy : R) :
  dragging (state c) = Some DragApparentPosition ->
  leftPoint (state c) = mkPoint (Fin lx) waterLevelY ->
  rightPoint (state c) = mkPoint (Fin rx) waterLevelY ->
  viewportOffset (state c) = mkPoint (Fin ox) (Fin oy) ->
  sy - oy < 450 ->
  1700 * (450 - (sy - oy)) <= sx - ox - lx ->
  1700 * (450 - (sy - oy)) <= sx - ox - rx ->
  sameValue (Fin 90) (fst (anglesSeen c)) = false ->
  let handled := handleMouseMove (Fin sx) (Fin sy) (state c) in
  let after := state (dispatch (MouseMove (Fin sx) (Fin sy)) c) in
  leftAngleDeg handled = Fin 90 /\ rightAngleDeg handled = Fin 90 /\
  updatingFromDrag handled = false /\
  angleWatcher handled <> handled /\
  leftAngleDeg after = Fin 89.9 /\ rightAngleDeg after = Fin 89.9.
Proof.
  intros Hd HpL HpR Hoff Hy HdxL HdxR Hseen handled after.
  destruct (drag_steep (state c) lx rx ox oy sx sy Hd HpL HpR Hoff Hy HdxL HdxR)
    as [HL [HR Hflag]].
  fold handled in HL, HR, Hflag.
  split; [exact HL |]. split; [exact HR |]. split; [exact Hflag |].
  split.
  { intros Heq.
    destruct (angleWatcher_running handled Hflag) as [Hc _].
    rewrite Heq, HL, clampAngle_90 in Hc.
    injection Hc as Hc; lra. }
  unfold after, dispatch; cbn [handle]; fold handled.
  destruct (flushJobs_clamps (with_state handled c)) as [HfL HfR].
  - exact Hflag.
  - unfold anglesChanged; cbn [state with_state anglesSeen].
    rewrite HL, Hseen; reflexivity.
  - cbn [state with_state] in HfL, HfR.
    rewrite HfL, HfR, HL, HR, clampAngle_90; split; reflexivity.
Qed.

Lemma steep_drag_is_clamped_example :
  let c :=
    setup (set_viewportOffset (mkPoint (Fin (-1500)) (Fin 0))
             (set_dragging (Some DragApparentPosition) initialState)) in
  leftAngleDeg (handleMouseMove (Fin 750) (Fin 449) (state c)) = Fin 90 /\
  leftAngleDeg (state (dispatch (MouseMove (Fin 750) (Fin 449)) c)) = Fin 89.9.
Proof.
  intros c.
  destruct (steep_drag_is_clamped c 250 550 (-1500) 0 750 449)
    as [HL [_ [_ [_ [HaL _]]]]]; try reflexivity; try lra.
  - cbn; apply Reqb_false; lra.
  - split; [exact HL | exact HaL].
Qed.

Lemma toFixed1_36_9 (w : R) : 36.85 <= w < 36.95 -> toFixed1 (Fin w) = Fin 36.9.
Proof.
  intros Hw; rewrite (toFixed1_eq w 369) by lra.
  f_equal; lra.
Qed.

(** A press at the canvas position (400, 200) grabs the apparent
    position. *)
Lemma after_mouseDown :
  run [Mounted; MouseDown (Fin 400) (Fin 200)] initialComponent
  = mkComponent
      (set_dragging (Some DragApparentPosition)
         (set_dragStart (mkPoint (Fin 400) (Fin 200))
            (set_apparentPosition
               (mkPoint (Fin ((250 + 550) / 2))
                        (Fin (450 - cotDeg 31 * (550 - 250) / 2)))
               (withAngles (Fin 31) (Fin 31) initialState))))
      (Fin 31, Fin 31) (Fin 1.33) true.
Proof.
  rewrite !run_cons, after_mounted.
  change (run [] ?c) with c.
  unfold dispatch; cbn [handle state with_state].
  set (s1 := set_apparentPosition _ _).
  unfold handleMouseDown.
  set (s1' := set_dragStart _ s1).
  change (leftPoint s1') with (mkPoint (Fin 250) (Fin 450)).
  change (rightPoint s1') with (mkPoint (Fin 550) (Fin 450)).
  change (apparentPosition s1')
    with (mkPoint (Fin ((250 + 550) / 2))
                  (Fin (450 - cotDeg 31 * (550 - 250) / 2))).
  rewrite !(isNearPoint_Fin s1' 0 0) by reflexivity.
  rewrite (Rltb_false _ 15) by (apply sqrt_ge_15; lra).
  rewrite (Rltb_false _ 15) by (apply sqrt_ge_15; lra).
  rewrite (Rltb_true _ 15).
  2:{ apply sqrt_lt_15.
      pose proof cotDeg_31 as Hcot.
      set (d := 200 - (450 - cotDeg 31 * (550 - 250) / 2 + 0)).
      replace (400 - ((250 + 550) / 2 + 0)) with 0 by lra.
      assert (Hd : -15 < d < 15) by (unfold d; lra).
      assert (Hp : 0 < (15 - d) * (15 + d)) by (apply Rmult_lt_0_compat; lra).
      pose proof (Rle_0_sqr d) as Hsq; unfold Rsqr in Hsq.
      lra. }
  apply flushJobs_idle; try reflexivity.
  unfold anglesChanged; cbn; rewrite !Reqb_true by reflexivity; reflexivity.
Qed.

(** The handler of the move to the canvas position (400, 250): the
    apparent position is the pointer's, both angles are 36.9, and the
    flag is cleared again. *)
Lemma drag_handled :
  let c := run [Mounted; MouseDown (Fin 400) (Fin 200)] initialComponent in
  handleMouseMove (Fin 400) (Fin 250) (state c)
  = set_updatingFromDrag false
      (withAngles (Fin 36.9) (Fin 36.9)
         (set_updatingFromDrag true
            (set_apparentPosition (mkPoint (Fin (400 - 0)) (Fin (250 - 0)))
               (state c)))).
Proof.
  intros c; unfold c; rewrite after_mouseDown; cbn [state].
  set (s2 := set_dragging _ _).
  unfold handleMouseMove, screenToWorld.
  change (dragging s2) with (Some DragApparentPosition).
  change (viewportOffset s2) with (mkPoint (Fin 0) (Fin 0)).
  cbn [x y]; rewrite !sub_Fin; unfold waterLevelY.
  rewrite lt_Fin, Rltb_true by lra.
  rewrite (updateAnglesFromPositions_above _ 250 550 (400 - 0) (250 - 0))
    by (reflexivity || lra).
  replace (450 - (250 - 0)) with 200 by lra.
  replace ((400 - 0 - 250) / 200) with 0.75 by lra.
  replace ((400 - 0 - 550) / 200) with (- (0.75)) by lra.
  destruct (Rabs_atan 0.75 ltac:(lra)) as [-> ->].
  rewrite (toFixed1_36_9 _ atan_075_deg).
  reflexivity.
Qed.

(** C6, what the code does.  From the initial state: the component is
    mounted, the apparent position is grabbed at the canvas position
    (400, 200) and dragged to (400, 250).  The handler puts the apparent
    position at (400, 250) and, with [updatingFromDrag] set, writes 36.9
    into both angles; it clears the flag before it returns.  The angle
    watcher, whose sources these writes have changed, runs once the
    handler has returned: it finds the flag cleared, so its guard does not
    apply, and its recomputation moves the apparent position off the
    point it was dragged to.  The handler's own writes have re-triggered
    the angle watcher. *)
Theorem C6_drag_writes_retrigger_angle_watcher :
  let c := run [Mounted; MouseDown (Fin 400) (Fin 200)] initialComponent in
  let handled := handleMouseMove (Fin 400) (Fin 250) (state c) in
  let after := state (dispatch (MouseMove (Fin 400) (Fin 250)) c) in
  dragging (state c) = Some DragApparentPosition /\
  updatingFromDrag (state c) = false /\
  apparentPosition handled = mkPoint (Fin 400) (Fin 250) /\
  leftAngleDeg handled = Fin 36.9 /\ rightAngleDeg handled = Fin 36.9 /\
  updatingFromDrag handled = false /\
  after = updateApparentFromReal handled /\
  leftAngleDeg after = Fin 36.9 /\ rightAngleDeg after = Fin 36.9 /\
  exists qy, apparentPosition after = mkPoint (Fin 400) (Fin qy) /\ 250 < qy.
Proof.
  intros c handled after.
  pose proof criticalDeg_water as Hcrit.
  assert (Hc : c = run [Mounted; MouseDown (Fin 400) (Fin 200)] initialComponent)
    by reflexivity.
  rewrite after_mouseDown in Hc.
  assert (Hh : handled
               = set_updatingFromDrag false
                   (withAngles (Fin 36.9) (Fin 36.9)
                      (set_updatingFromDrag true
                         (set_apparentPosition
                            (mkPoint (Fin (400 - 0)) (Fin (250 - 0)))
                            (state c))))) by exact drag_handled.
  assert (Hflush : after = updateApparentFromReal handled).
  { unfold after, dispatch; cbn [handle]; fold handled.
    assert (H1 : updatingFromDrag (state (with_state handled c)) = false)
      by (cbn [state with_state]; rewrite Hh; reflexivity).
    assert (H2 : leftAngleDeg (state (with_state handled c)) = Fin 36.9)
      by (cbn [state with_state]; rewrite Hh; reflexivity).
    assert (H3 : rightAngleDeg (state (with_state handled c)) = Fin 36.9)
      by (cbn [state with_state]; rewrite Hh; reflexivity).
    assert (H4 : anglesChanged (with_state handled c) = true).
    { unfold anglesChanged; rewrite H2, H3.
      cbn [anglesSeen with_state]; rewrite Hc; cbn [anglesSeen fst snd].
      cbn; rewrite Reqb_false by lra; reflexivity. }
    assert (H5 : indexSeen (with_state handled c)
                 = refractiveIndex (state (with_state handled c)))
      by (cbn [state with_state indexSeen]; rewrite Hh, Hc; reflexivity).
    assert (H6 : lockSeen (with_state handled c)
                 = lockRealPosition (state (with_state handled c)))
      by (cbn [state with_state lockSeen]; rewrite Hh, Hc; reflexivity).
    rewrite (flushJobs_angles_once _ 36.9 36.9 H1 H2 H3 ltac:(lra) ltac:(lra)
               H4 H5 H6).
    reflexivity. }
  assert (Hupd : updateApparentFromReal handled
                 = set_apparentPosition
                     (mkPoint (Fin ((250 + 550) / 2))
                              (Fin (450 - cotDeg 36.9 * (550 - 250) / 2)))
                     handled).
  { apply (updateApparentFromReal_between_equal handled 1.33 36.9 250 550
             (400 - 0)); try (rewrite Hh, Hc; reflexivity); lra. }
  split; [rewrite Hc; reflexivity |].
  split; [rewrite Hc; reflexivity |].
  split; [rewrite Hh; cbn; f_equal; f_equal; lra |].
  split; [rewrite Hh; reflexivity |].
  split; [rewrite Hh; reflexivity |].
  split; [rewrite Hh; reflexivity |].
  split; [exact Hflush |].
  rewrite Hflush, Hupd.
  split; [rewrite Hh; reflexivity |].
  split; [rewrite Hh; reflexivity |].
  exists (450 - cotDeg 36.9 * (550 - 250) / 2); split.
  - cbn [apparentPosition set_apparentPosition]; f_equal; f_equal; lra.
  - pose proof cotDeg_36_9; lra.
Qed.

(** ** C8: a real position that is not a position *)

(** The mode checkbox has been changed and nothing else: the callback of
    its watcher, [updateApparentFromReal], runs once. *)
Lemma flushJobs_lock_changed (c : Component) :
  anglesChanged c = false ->
  indexSeen c = refractiveIndex (state c) ->
  lockSeen c = negb (lockRealPosition (state c)) ->
  flushJobs c
  = mkComponent (updateApparentFromReal (state c)) (anglesSeen c)
      (indexSeen c) (lockRealPosition (state c)).
Proof.
  intros Ha Hi Hl; unfold flushJobs.
  rewrite flushAngleWatcher_stop by exact Ha.
  rewrite flushRefractiveIndexWatcher_idle by exact Hi.
  unfold flushLockRealPositionWatcher, lockRealPositionWatcher; rewrite Hl.
  destruct (lockRealPosition (state c)); reflexivity.
Qed.

(** Both angles 0: neither side is in total internal reflection, both
    rays run along the normal with slope [-Infinity], [realPosition] is
    the point [(NaN, NaN)], and with the coupling mode on
    [updateApparentFromReal] assigns [(NaN, NaN)] to the apparent
    position. *)
Lemma both_angles_zero (s : State) (n lx rx : R) :
  refractiveIndex s = Fin n -> 1 <= n ->
  leftAngleDeg s = Fin 0 -> rightAngleDeg s = Fin 0 ->
  leftPoint s = mkPoint (Fin lx) waterLevelY ->
  rightPoint s = mkPoint (Fin rx) waterLevelY ->
  leftExceedsCritical s = false /\
  rightExceedsCritical s = false /\
  raysParallel s = true /\
  realPosition s = Some (mkPoint NaN NaN) /\
  (lockRealPosition s = true ->
   updateApparentFromReal s = set_apparentPosition (mkPoint NaN NaN) s).
Proof.
  intros Hidx Hn HaL HaR HpL HpR.
  pose proof (criticalDeg_range n Hn) as Hc.
  assert (HL : leftExceedsCritical s = false).
  { rewrite leftExceedsCritical_eq, Hidx, HaL.
    rewrite exceedsCriticalOf_Fin by lra.
    apply Rleb_false; lra. }
  assert (HR : rightExceedsCritical s = false).
  { rewrite rightExceedsCritical_eq, Hidx, HaR.
    rewrite exceedsCriticalOf_Fin by lra.
    apply Rleb_false; lra. }
  assert (Hz : 0 * PI / 180 = 0) by field.
  assert (HmL : realLeftSlope s = NegInfinity).
  { unfold realLeftSlope; rewrite leftRefractedAngle_eq, Hidx, HaL, HpL.
    rewrite refractedAngleOf_zero by lra.
    unfold waterLevelY.
    apply ray_slope_vertical; rewrite Hz; [apply sin_0 | rewrite cos_0; lra]. }
  assert (HmR : realRightSlope s = NegInfinity).
  { unfold realRightSlope; rewrite rightRefractedAngle_eq, Hidx, HaR, HpR.
    rewrite refractedAngleOf_zero by lra.
    unfold waterLevelY.
    apply ray_slope_vertical; rewrite Hz; [apply sin_0 | rewrite cos_0; lra]. }
  assert (Hreal : realPosition s = Some (mkPoint NaN NaN)).
  { rewrite realPosition_unfold, HL, HR, HmL, HmR.
    cbn [orb]; unfold intersect.
    replace (sub NegInfinity NegInfinity) with NaN by reflexivity.
    rewrite div_NaN_r; reflexivity. }
  split; [exact HL |]. split; [exact HR |].
  split; [unfold raysParallel; rewrite HmL, HmR; reflexivity |].
  split; [exact Hreal |].
  intros Hlock.
  unfold updateApparentFromReal.
  rewrite Hlock, Hreal, HL, HR.
  cbn [negb x y sub add neg ge le waterLevelY orb Math_abs Math_atan2].
  rewrite !airToWaterRad_NaN, HpL, HpR.
  reflexivity.
Qed.

Lemma after_verticalRays :
  run verticalRays initialComponent
  = mkComponent
      (withAngles (Fin 0) (Fin 0)
         (set_lockRealPosition false
            (set_apparentPosition
               (mkPoint (Fin ((250 + 550) / 2))
                        (Fin (450 - cotDeg 31 * (550 - 250) / 2)))
               (withAngles (Fin 31) (Fin 31) initialState))))
      (Fin 0, Fin 0) (Fin 1.33) false.
Proof.
  unfold verticalRays.
  rewrite !run_cons, after_mounted.
  change (run [] ?c) with c.
  set (s1 := set_apparentPosition _ (withAngles (Fin 31) (Fin 31) initialState)).
  (* the checkbox *)
  assert (H2 : dispatch (InputLockRealPosition false)
                 (mkComponent s1 (Fin 31, Fin 31) (Fin 1.33) true)
               = mkComponent (set_lockRealPosition false s1)
                   (Fin 31, Fin 31) (Fin 1.33) false).
  { unfold dispatch; cbn [handle state with_state].
    rewrite flushJobs_lock_changed; try reflexivity.
    unfold anglesChanged; cbn; rewrite !Reqb_true by reflexivity;
      reflexivity. }
  rewrite H2.
  (* the left input *)
  assert (H3 : dispatch (InputLeftAngle (Fin 0))
                 (mkComponent (set_lockRealPosition false s1)
                    (Fin 31, Fin 31) (Fin 1.33) false)
               = mkComponent
                   (set_leftAngleDeg (Fin 0) (set_lockRealPosition false s1))
                   (Fin 0, Fin 31) (Fin 1.33) false).
  { unfold dispatch; cbn [handle state with_state].
    rewrite (flushJobs_angles_once _ 0 31); try reflexivity; try lra.
    unfold anglesChanged; cbn; rewrite Reqb_false by lra; reflexivity. }
  rewrite H3.
  (* the right input *)
  unfold dispatch; cbn [handle state with_state].
  rewrite (flushJobs_angles_once _ 0 0); try reflexivity; try lra.
  unfold anglesChanged; cbn.
  rewrite Reqb_true by reflexivity; rewrite Reqb_false by lra; reflexivity.
Qed.

(** C8, what the code does.  After [verticalRays] both angles are 0 and
    the apparent position is the finite point the mounted hook left.
    The mode checkbox is then switched on; [s] is the state in which
    the callback of its watcher calls [updateApparentFromReal].  In [s]
    no side is in total internal reflection, the two rays are parallel,
    and the real position cannot be computed: [realPosition] is not
    [null] but the point [(NaN, NaN)].  That point passes the guard of
    [updateApparentFromReal], whose tests are [!realPos],
    [realPos.y >= waterLevelY] and the two TIR flags, and the operation
    is not a no-op: it assigns [(NaN, NaN)] to the apparent position,
    which is what the event leaves in the component. *)
Theorem C8_invalid_real_position_overwrites_apparent_position :
  let c := run verticalRays initialComponent in
  let s := handle (InputLockRealPosition true) (state c) in
  lockRealPosition s = true /\
  leftAngleDeg s = Fin 0 /\ rightAngleDeg s = Fin 0 /\
  leftExceedsCritical s = false /\ rightExceedsCritical s = false /\
  raysParallel s = true /\
  apparentPosition s
  = mkPoint (Fin ((250 + 550) / 2)) (Fin (450 - cotDeg 31 * (550 - 250) / 2)) /\
  (exists p, realPosition s = Some p /\
             isNaN (x p) = true /\ isNaN (y p) = true /\
             ge (y p) waterLevelY = false) /\
  state (dispatch (InputLockRealPosition true) c) = updateApparentFromReal s /\
  updateApparentFromReal s <> s /\
  apparentPosition (updateApparentFromReal s) = mkPoint NaN NaN.
Proof.
  intros c s.
  assert (Hc : c = run verticalRays initialComponent) by reflexivity.
  assert (Hs : s = set_lockRealPosition true (state c)) by reflexivity.
  clearbody s; clearbody c.
  rewrite after_verticalRays in Hc; subst c; cbn [state] in Hs.
  destruct (both_angles_zero s 1.33 250 550) as [HL [HR [Hpar [Hreal Hupd]]]];
    try (rewrite Hs; reflexivity); try lra.
  specialize (Hupd ltac:(rewrite Hs; reflexivity)).
  split; [rewrite Hs; reflexivity |].
  split; [rewrite Hs; reflexivity |].
  split; [rewrite Hs; reflexivity |].
  split; [exact HL |]. split; [exact HR |]. split; [exact Hpar |].
  split; [rewrite Hs; reflexivity |].
  split; [exists (mkPoint NaN NaN); repeat split; exact Hreal |].
  split.
  { unfold dispatch; cbn [handle state with_state]; rewrite <- Hs.
    rewrite flushJobs_lock_changed.
    - reflexivity.
    - rewrite Hs; unfold anglesChanged; cbn.
      rewrite !Reqb_true by reflexivity; reflexivity.
    - rewrite Hs; reflexivity.
    - rewrite Hs; reflexivity. }
  split.
  { rewrite Hupd; intros Heq.
    apply (f_equal apparentPosition) in Heq.
    rewrite Hs in Heq; discriminate Heq. }
  rewrite Hupd; reflexivity.
Qed.

(** * The rest of the component *)

(** ** The watchers come to rest *)

Lemma sameValue_eq (a b : num) : sameValue a b = true -> a = b.
Proof.
  destruct a, b; cbn; intros H; try discriminate H; try reflexivity.
  apply Reqb_spec in H; rewrite H; reflexivity.
Qed.

Lemma anglesChanged_false (c : Component) :
  anglesChanged c = false <->
  anglesSeen c = (leftAngleDeg (state c), rightAngleDeg (state c)).
Proof.
  unfold anglesChanged; destruct (anglesSeen c) as [l r]; cbn [fst snd].
  split.
  - intros H; apply negb_false_iff, andb_true_iff in H; destruct H as [H1 H2].
    apply sameValue_eq in H1, H2; rewrite H1, H2; reflexivity.
  - intros H; injection H as -> ->; rewrite !sameValue_refl; reflexivity.
Qed.

Lemma angleWatcherJob_suppressed (c : Component) :
  updatingFromDrag (state c) = true ->
  anglesChanged (angleWatcherJob c) = false.
Proof.
  intros H; apply anglesChanged_false; unfold angleWatcherJob; cbn [state anglesSeen].
  rewrite angleWatcher_suppressed by exact H; reflexivity.
Qed.

(** Two rounds of the angle watcher's job are enough, whatever the
    component. *)
Lemma flushAngleWatcher_settles (fuel : nat) (c : Component) :
  anglesChanged (flushAngleWatcher (S (S fuel)) c) = false.
Proof.
  cbn [flushAngleWatcher].
  destruct (anglesChanged c) eqn:Hch; [| exact Hch].
  destruct (updatingFromDrag (state c)) eqn:Hflag.
  - rewrite angleWatcherJob_suppressed by exact Hflag.
    apply angleWatcherJob_suppressed; exact Hflag.
  - set (c1 := angleWatcherJob c).
    destruct (angleWatcher_running (state c) Hflag) as [HL1 [HR1 Hf1]].
    change (angleWatcher (state c)) with (state c1) in HL1, HR1, Hf1.
    destruct (anglesChanged c1) eqn:Hch1; [| exact Hch1].
    set (c2 := angleWatcherJob c1).
    destruct (angleWatcher_running (state c1) Hf1) as [HL2 [HR2 Hf2]].
    change (angleWatcher (state c1)) with (state c2) in HL2, HR2, Hf2.
    rewrite HL1, clampAngle_idempotent in HL2.
    rewrite HR1, clampAngle_idempotent in HR2.
    assert (Hch2 : anglesChanged c2 = false).
    { apply anglesChanged_false.
      change (anglesSeen c2) with (leftAngleDeg (state c1), rightAngleDeg (state c1)).
      rewrite HL2, HR2, HL1, HR1; reflexivity. }
    rewrite flushAngleWatcher_stop by exact Hch2; exact Hch2.
Qed.

Lemma flushRefractiveIndexWatcher_settles (c : Component) :
  anglesChanged c = false ->
  anglesChanged (flushRefractiveIndexWatcher c) = false /\
  indexSeen (flushRefractiveIndexWatcher c)
  = refractiveIndex (state (flushRefractiveIndexWatcher c)).
Proof.
  intros Hch.
  destruct (flushRefractiveIndexWatcher_angles c) as [HL HR].
  split.
  - apply anglesChanged_false; rewrite HL, HR.
    apply anglesChanged_false in Hch; rewrite <- Hch.
    unfold flushRefractiveIndexWatcher; destruct (sameValue _ _); reflexivity.
  - unfold flushRefractiveIndexWatcher.
    destruct (sameValue _ _) eqn:E.
    + symmetry; apply sameValue_eq; exact E.
    + cbn [state indexSeen]; unfold refractiveIndexWatcher.
      destruct (lockRealPosition (state c)); [| reflexivity].
      rewrite updateApparentFromReal_refractiveIndex; reflexivity.
Qed.

Lemma flushLockRealPositionWatcher_settles (c : Component) :
  anglesChanged c = false ->
  indexSeen c = refractiveIndex (state c) ->
  settled (flushLockRealPositionWatcher c).
Proof.
  intros Hch Hi.
  destruct (flushLockRealPositionWatcher_angles c) as [HL HR].
  unfold settled; split; [| split].
  - apply anglesChanged_false; rewrite HL, HR.
    apply anglesChanged_false in Hch; rewrite <- Hch.
    unfold flushLockRealPositionWatcher; destruct (Bool.eqb _ _); reflexivity.
  - unfold flushLockRealPositionWatcher.
    destruct (Bool.eqb _ _); [exact Hi |].
    cbn [state indexSeen]; unfold lockRealPositionWatcher.
    rewrite updateApparentFromReal_refractiveIndex; exact Hi.
  - unfold flushLockRealPositionWatcher.
    destruct (Bool.eqb _ _) eqn:E.
    + symmetry; apply Bool.eqb_prop; exact E.
    + cbn [state lockSeen]; unfold lockRealPositionWatcher.
      rewrite updateApparentFromReal_lockRealPosition; reflexivity.
Qed.

Lemma flushJobs_settled (c : Component) : settled (flushJobs c).
Proof.
  unfold flushJobs; change RECURSION_LIMIT with (S (S 98)).
  pose proof (flushAngleWatcher_settles 98 c) as H1.
  destruct (flushRefractiveIndexWatcher_settles _ H1) as [H2 H3].
  apply flushLockRealPositionWatcher_settles; assumption.
Qed.

Lemma settled_idle (c : Component) : settled c -> flushJobs c = c.
Proof. intros [Ha [Hi Hl]]; apply flushJobs_idle; assumption. Qed.

Lemma flushAngleWatcher_add (n m : nat) (c : Component) :
  flushAngleWatcher (n + m) c = flushAngleWatcher m (flushAngleWatcher n c).
Proof.
  revert c; induction n as [| n IH]; intros c; [reflexivity |].
  cbn [Nat.add flushAngleWatcher].
  destruct (anglesChanged c) eqn:Hch; [apply IH |].
  rewrite flushAngleWatcher_stop by exact Hch; reflexivity.
Qed.

(** X1.  The jobs that follow an event always come to rest.  Whatever the
    component, the angle watcher runs its callback at most twice (fuel
    beyond two rounds is never used, so the recursion limit is never
    reached); after [flushJobs] no watcher has a change of its sources
    left to react to, and flushing once more does nothing. *)
Theorem watchers_come_to_rest (c : Component) :
  flushAngleWatcher RECURSION_LIMIT c = flushAngleWatcher 2 c /\
  settled (flushJobs c) /\
  flushJobs (flushJobs c) = flushJobs c.
Proof.
  split; [| split].
  - change RECURSION_LIMIT with (2 + 98)%nat.
    rewrite flushAngleWatcher_add.
    apply flushAngleWatcher_stop, (flushAngleWatcher_settles 0).
  - apply flushJobs_settled.
  - apply settled_idle, flushJobs_settled.
Qed.

(** ** What the watchers write *)

Lemma updateApparentFromReal_outsideWatchers (s : State) :
  outsideWatchers (updateApparentFromReal s) = outsideWatchers s.
Proof. destruct (updateApparentFromReal_cases s) as [-> | [p ->]]; reflexivity. Qed.

Lemma angleWatcher_outsideWatchers (s : State) :
  outsideWatchers (angleWatcher s) = outsideWatchers s.
Proof.
  unfold angleWatcher; destruct (updatingFromDrag s); [reflexivity |].
  rewrite updateApparentFromReal_outsideWatchers; reflexivity.
Qed.

Lemma flushAngleWatcher_outsideWatchers (fuel : nat) (c : Component) :
  outsideWatchers (state (flushAngleWatcher fuel c)) = outsideWatchers (state c).
Proof.
  revert c; induction fuel as [| fuel IH]; intros c; cbn [flushAngleWatcher];
    [reflexivity |].
  destruct (anglesChanged c); [| reflexivity].
  rewrite IH; unfold angleWatcherJob; cbn [state].
  apply angleWatcher_outsideWatchers.
Qed.

Lemma flushRefractiveIndexWatcher_outsideWatchers (c : Component) :
  outsideWatchers (state (flushRefractiveIndexWatcher c))
  = outsideWatchers (state c).
Proof.
  unfold flushRefractiveIndexWatcher; destruct (sameValue _ _); [reflexivity |].
  cbn [state]; unfold refractiveIndexWatcher.
  destruct (lockRealPosition (state c)); [| reflexivity].
  apply updateApparentFromReal_outsideWatchers.
Qed.

Lemma flushLockRealPositionWatcher_outsideWatchers (c : Component) :
  outsideWatchers (state (flushLockRealPositionWatcher c))
  = outsideWatchers (state c).
Proof.
  unfold flushLockRealPositionWatcher; destruct (Bool.eqb _ _); [reflexivity |].
  cbn [state]; apply updateApparentFromReal_outsideWatchers.
Qed.

Lemma flushJobs_outsideWatchers (c : Component) :
  outsideWatchers (state (flushJobs c)) = outsideWatchers (state c).
Proof.
  unfold flushJobs.
  rewrite flushLockRealPositionWatcher_outsideWatchers,
          flushRefractiveIndexWatcher_outsideWatchers.
  apply flushAngleWatcher_outsideWatchers.
Qed.

Lemma outsideWatchers_fields (s t : State) :
  outsideWatchers s = outsideWatchers t ->
  refractiveIndex s = refractiveIndex t /\ leftPoint s = leftPoint t /\
  rightPoint s = rightPoint t /\ lockRealPosition s = lockRealPosition t /\
  viewportOffset s = viewportOffset t /\ dragging s = dragging t /\
  dragStart s = dragStart t /\ updatingFromDrag s = updatingFromDrag t /\
  updatingFromAngleChange s = updatingFromAngleChange t.
Proof.
  unfold outsideWatchers; intros H; injection H; intros; repeat split; assumption.
Qed.

(** With the coupling mode off, [updateApparentFromReal] returns at its
    first line. *)
Lemma updateApparentFromReal_unlocked (s : State) :
  lockRealPosition s = false -> updateApparentFromReal s = s.
Proof. intros H; unfold updateApparentFromReal; rewrite H; reflexivity. Qed.

Lemma flushAngleWatcher_unlocked (fuel : nat) (c : Component) :
  lockRealPosition (state c) = false ->
  apparentPosition (state (flushAngleWatcher fuel c))
  = apparentPosition (state c).
Proof.
  revert c; induction fuel as [| fuel IH]; intros c Hlock;
    cbn [flushAngleWatcher]; [reflexivity |].
  destruct (anglesChanged c); [| reflexivity].
  assert (Hjob : apparentPosition (state (angleWatcherJob c))
                 = apparentPosition (state c)
                 /\ lockRealPosition (state (angleWatcherJob c)) = false).
  { unfold angleWatcherJob; cbn [state]; unfold angleWatcher.
    destruct (updatingFromDrag (state c)); [split; [reflexivity | exact Hlock] |].
    rewrite updateApparentFromReal_unlocked by exact Hlock.
    split; [reflexivity | exact Hlock]. }
  destruct Hjob as [Hap Hl]; rewrite IH by exact Hl; exact Hap.
Qed.

Lemma flushJobs_unlocked (c : Component) :
  lockRealPosition (state c) = false ->
  apparentPosition (state (flushJobs c)) = apparentPosition (state c).
Proof.
  intros Hlock; unfold flushJobs.
  set (c1 := flushAngleWatcher RECURSION_LIMIT c).
  assert (H1 : apparentPosition (state c1) = apparentPosition (state c))
    by (apply flushAngleWatcher_unlocked; exact Hlock).
  assert (L1 : lockRealPosition (state c1) = false).
  { destruct (outsideWatchers_fields _ _
                (flushAngleWatcher_outsideWatchers RECURSION_LIMIT c))
      as [_ [_ [_ [H _]]]].
    fold c1 in H; rewrite H; exact Hlock. }
  set (c2 := flushRefractiveIndexWatcher c1).
  assert (H2 : state c2 = state c1).
  { unfold c2, flushRefractiveIndexWatcher; destruct (sameValue _ _);
      [reflexivity |].
    cbn [state]; unfold refractiveIndexWatcher; rewrite L1; reflexivity. }
  assert (H3 : state (flushLockRealPositionWatcher c2) = state c2).
  { unfold flushLockRealPositionWatcher; destruct (Bool.eqb _ _);
      [reflexivity |].
    cbn [state]; unfold lockRealPositionWatcher.
    apply updateApparentFromReal_unlocked; rewrite H2; exact L1. }
  rewrite H3, H2; exact H1.
Qed.

(** X2.  The callbacks of the three watchers assign only to the two
    angles and to the apparent position: the jobs that follow an event
    leave the refractive index, the refraction points, the coupling mode,
    the viewport, the drag in progress and the two flags as the handler
    left them. *)
Theorem watchers_write_angles_and_apparent_only (c : Component) :
  outsideWatchers (state (flushJobs c)) = outsideWatchers (state c).
Proof. apply flushJobs_outsideWatchers. Qed.

(** ** Invariants of the component *)

Lemma run_invariant (P : Component -> Prop) :
  (forall e c, P c -> P (dispatch e c)) ->
  forall events c, P c -> P (run events c).
Proof.
  intros Hstep events; induction events as [| e events IH]; intros c H.
  - exact H.
  - rewrite run_cons; apply IH, Hstep; exact H.
Qed.

Lemma handleMouseDown_cases (sx sy : num) (s : State) :
  exists target,
    handleMouseDown sx sy s
    = set_dragging (Some target) (set_dragStart (mkPoint sx sy) s).
Proof.
  unfold handleMouseDown.
  repeat match goal with
  | |- context [if ?b then _ else _] => destruct b
  | |- context [match ?o with Some _ => _ | None => _ end] => destruct o
  end; eexists; reflexivity.
Qed.

Lemma handle_updatingFromDrag (e : Event) (s : State) :
  updatingFromDrag s = false -> updatingFromDrag (handle e s) = false.
Proof.
  intros H; destruct e; cbn [handle]; try exact H.
  - destruct (handleMouseDown_cases screenX screenY s) as [t ->]; exact H.
  - apply handleMouseMove_releases_flag; exact H.
Qed.

Lemma handle_updatingFromAngleChange (e : Event) (s : State) :
  updatingFromAngleChange (handle e s) = updatingFromAngleChange s.
Proof.
  destruct e; cbn [handle]; try reflexivity.
  - destruct (handleMouseDown_cases screenX screenY s) as [t ->]; reflexivity.
  - unfold handleMouseMove.
    destruct (dragging s) as [[| | | |] |]; try reflexivity.
    + destruct (lt _ _); reflexivity.
    + destruct (_ && _); [| reflexivity].
      cbn [set_updatingFromDrag updatingFromAngleChange].
      match goal with
      | |- updatingFromAngleChange (updateApparentFromReal ?t) = _ =>
        destruct (outsideWatchers_fields _ _
                    (updateApparentFromReal_outsideWatchers t))
          as [_ [_ [_ [_ [_ [_ [_ [_ H]]]]]]]]; rewrite H
      end.
      reflexivity.
Qed.

Lemma dispatch_flags (e : Event) (c : Component) :
  updatingFromDrag (state c) = false ->
  updatingFromDrag (state (dispatch e c)) = false /\
  updatingFromAngleChange (state (dispatch e c))
  = updatingFromAngleChange (state c).
Proof.
  intros H; unfold dispatch.
  destruct (outsideWatchers_fields _ _
              (flushJobs_outsideWatchers (with_state (handle e (state c)) c)))
    as [_ [_ [_ [_ [_ [_ [_ [Hd Ha]]]]]]]].
  rewrite Hd, Ha; cbn [with_state state].
  split; [apply handle_updatingFromDrag; exact H
         | apply handle_updatingFromAngleChange].
Qed.

(** X3.  Whatever the user does, between two events neither flag is
    set: [updatingFromDrag] is back to [false] when a handler returns,
    and [updatingFromAngleChange], which no line of the script assigns,
    keeps its initial [false]. *)
Theorem flags_clear_between_events (events : list Event) :
  updatingFromDrag (state (run events initialComponent)) = false /\
  updatingFromAngleChange (state (run events initialComponent)) = false.
Proof.
  apply (run_invariant
           (fun c => updatingFromDrag (state c) = false /\
                     updatingFromAngleChange (state c) = false)).
  - intros e c [Hd Ha].
    destruct (dispatch_flags e c Hd) as [Hd' Ha'].
    split; [exact Hd' | rewrite Ha'; exact Ha].
  - split; reflexivity.
Qed.

Lemma clampAngle_clamped (a : num) : clamped (clampAngle a).
Proof.
  destruct a as [| | | r].
  - left; reflexivity.
  - right; exists 89.9; split; [apply clampAngle_Infinity | lra].
  - right; exists 0; split; [apply clampAngle_NegInfinity | lra].
  - right; destruct (clampAngle_Fin r) as [r' [H Hr']]; exists r'; split; assumption.
Qed.

Lemma clamped_fixed (a : num) : clamped a -> clampAngle a = a.
Proof.
  intros [-> | [r [-> Hr]]]; [reflexivity | apply clampAngle_in_range; exact Hr].
Qed.

Lemma flushJobs_angles_unchanged (c : Component) :
  anglesChanged c = false ->
  leftAngleDeg (state (flushJobs c)) = leftAngleDeg (state c) /\
  rightAngleDeg (state (flushJobs c)) = rightAngleDeg (state c).
Proof.
  intros Hch; unfold flushJobs.
  rewrite flushAngleWatcher_stop by exact Hch.
  destruct (flushLockRealPositionWatcher_angles (flushRefractiveIndexWatcher c))
    as [-> ->].
  apply flushRefractiveIndexWatcher_angles.
Qed.

(** The state of the angles between two events: the watcher has seen
    them, no drag is writing them, and each is a value the clamp keeps. *)
Lemma dispatch_angles (e : Event) (c : Component) :
  anglesChanged c = false -> updatingFromDrag (state c) = false ->
  clamped (leftAngleDeg (state c)) -> clamped (rightAngleDeg (state c)) ->
  let c' := with_state (handle e (state c)) c in
  anglesChanged (dispatch e c) = false /\
  updatingFromDrag (state (dispatch e c)) = false /\
  clamped (leftAngleDeg (state (dispatch e c))) /\
  clamped (rightAngleDeg (state (dispatch e c))) /\
  leftAngleDeg (state (dispatch e c)) = clampAngle (leftAngleDeg (state c')) /\
  rightAngleDeg (state (dispatch e c)) = clampAngle (rightAngleDeg (state c')).
Proof.
  intros Hch Hflag HL HR c'.
  destruct (flushJobs_settled c') as [Hs _].
  destruct (dispatch_flags e c Hflag) as [Hflag' _].
  assert (Hf : updatingFromDrag (state c') = false)
    by (apply handle_updatingFromDrag; exact Hflag).
  assert (Hang : leftAngleDeg (state (flushJobs c'))
                 = clampAngle (leftAngleDeg (state c')) /\
                 rightAngleDeg (state (flushJobs c'))
                 = clampAngle (rightAngleDeg (state c'))).
  { destruct (anglesChanged c') eqn:Hch'.
    - apply flushJobs_clamps; assumption.
    - destruct (flushJobs_angles_unchanged c' Hch') as [-> ->].
      apply anglesChanged_false in Hch, Hch'.
      change (anglesSeen c') with (anglesSeen c) in Hch'.
      rewrite Hch in Hch'; injection Hch' as HeL HeR.
      unfold c' in *; cbn [with_state state] in *.
      rewrite <- HeL, <- HeR, !clamped_fixed by assumption.
      split; reflexivity. }
  destruct Hang as [HaL HaR].
  change (dispatch e c) with (flushJobs c').
  repeat split; try assumption.
  - rewrite HaL; apply clampAngle_clamped.
  - rewrite HaR; apply clampAngle_clamped.
Qed.

Lemma run_angles (events : list Event) :
  let c := run events initialComponent in
  anglesChanged c = false /\ updatingFromDrag (state c) = false /\
  clamped (leftAngleDeg (state c)) /\ clamped (rightAngleDeg (state c)).
Proof.
  apply (run_invariant
           (fun c => anglesChanged c = false /\
                     updatingFromDrag (state c) = false /\
                     clamped (leftAngleDeg (state c)) /\
                     clamped (rightAngleDeg (state c)))).
  - intros e c [Hch [Hflag [HL HR]]].
    destruct (dispatch_angles e c Hch Hflag HL HR) as [H1 [H2 [H3 [H4 _]]]].
    repeat split; assumption.
  - split; [| split; [reflexivity |]].
    + unfold anglesChanged; cbn; rewrite !Reqb_true by reflexivity; reflexivity.
    + split; right; exists 30; (split; [reflexivity | lra]).
Qed.

(** X4.  Whatever the user does, between two events each of the two
    angles is [NaN] or lies between 0 and 89.9: a value written by a
    drag or typed into a field is clamped by the angle watcher before
    the next event. *)
Theorem angles_clamped_between_events (events : list Event) :
  clamped (leftAngleDeg (state (run events initialComponent))) /\
  clamped (rightAngleDeg (state (run events initialComponent))).
Proof.
  destruct (run_angles events) as [_ [_ [HL HR]]]; split; assumption.
Qed.

Lemma clampAngle_Rmax (v : R) : clampAngle (Fin v) = Fin (Rmax 0 (Rmin 89.9 v)).
Proof.
  unfold clampAngle; cbn [Math_min lt]; unfold Rltb at 1.
  destruct (Rlt_dec v 89.9) as [H | H].
  - rewrite Rmin_right by lra; cbn [Math_max lt]; unfold Rltb.
    destruct (Rlt_dec 0 v); [rewrite Rmax_right by lra | rewrite Rmax_left by lra];
      reflexivity.
  - rewrite Rmin_left by lra; cbn [Math_max lt].
    rewrite Rltb_true by lra; rewrite Rmax_right by lra; reflexivity.
Qed.

(** X5.  A number typed into the left angle field, at any moment: when
    the event is over the left angle is that number brought into the
    range from 0 to 89.9, and the right angle is what it was.  The
    critical angle, which the field names as its maximum, plays no part. *)
Theorem typed_left_angle_is_clamped (events : list Event) (v : R) :
  let c := run events initialComponent in
  let c' := dispatch (InputLeftAngle (Fin v)) c in
  leftAngleDeg (state c') = Fin (Rmax 0 (Rmin 89.9 v)) /\
  rightAngleDeg (state c') = rightAngleDeg (state c).
Proof.
  intros c c'.
  destruct (run_angles events) as [Hch [Hflag [HL HR]]]; fold c in Hch, Hflag, HL, HR.
  destruct (dispatch_angles (InputLeftAngle (Fin v)) c Hch Hflag HL HR)
    as [_ [_ [_ [_ [H1 H2]]]]].
  fold c' in H1, H2; cbn [handle with_state state] in H1, H2.
  split.
  - rewrite H1; cbn [leftAngleDeg set_leftAngleDeg]; apply clampAngle_Rmax.
  - rewrite H2; cbn [rightAngleDeg set_leftAngleDeg]; apply clamped_fixed; exact HR.
Qed.

(** ** The coupling mode switched off *)

Lemma updateAnglesFromPositions_frame (s : State) :
  apparentPosition (updateAnglesFromPositions s) = apparentPosition s /\
  lockRealPosition (updateAnglesFromPositions s) = lockRealPosition s.
Proof. split; reflexivity. Qed.

(** X6.  With the coupling mode off the apparent position stays where
    it is through every event but two: a move of the pointer while the
    apparent position itself is being dragged, and the switching on of
    the mode.  Typed angles, a typed refractive index, drags of the
    refraction points or of the real position and panning do not move
    it. *)
Theorem apparent_position_frozen_when_unlocked (e : Event) (c : Component) :
  lockRealPosition (state c) = false ->
  e <> InputLockRealPosition true ->
  (forall sx sy, e = MouseMove sx sy ->
                 dragging (state c) <> Some DragApparentPosition) ->
  apparentPosition (state (dispatch e c)) = apparentPosition (state c).
Proof.
  intros Hlock Hon Hdrag; unfold dispatch.
  assert (H : apparentPosition (handle e (state c)) = apparentPosition (state c)
              /\ lockRealPosition (handle e (state c)) = false).
  { destruct e; cbn [handle].
    - split; [reflexivity | exact Hlock].
    - destruct (handleMouseDown_cases screenX screenY (state c)) as [t ->].
      split; [reflexivity | exact Hlock].
    - specialize (Hdrag screenX screenY eq_refl).
      unfold handleMouseMove.
      destruct (dragging (state c)) as [[| | | |] |];
        try (split; [reflexivity | exact Hlock]).
      + exfalso; apply Hdrag; reflexivity.
      + rewrite Hlock, andb_false_r; split; [reflexivity | exact Hlock].
    - split; [reflexivity | exact Hlock].
    - split; [reflexivity | exact Hlock].
    - split; [reflexivity | exact Hlock].
    - split; [reflexivity | exact Hlock].
    - split; [reflexivity | exact Hlock].
    - destruct v; [exfalso; apply Hon; reflexivity |].
      split; reflexivity. }
  destruct H as [Hap Hl].
  rewrite flushJobs_unlocked by exact Hl.
  exact Hap.
Qed.

Lemma apparent_position_frozen_when_unlocked_witness :
  let c := setup (set_lockRealPosition false initialState) in
  apparentPosition (state (dispatch (InputLeftAngle (Fin 10)) c))
  = mkPoint (Fin 400) (Fin 200).
Proof.
  intros c.
  apply (apparent_position_frozen_when_unlocked (InputLeftAngle (Fin 10)) c).
  - reflexivity.
  - discriminate.
  - discriminate.
Defined.

(** ** The end of a drag *)

Lemma with_state_same (c : Component) : with_state (state c) c = c.
Proof. destruct c; reflexivity. Qed.

(** X7.  Once the button is released, or the pointer has left the
    canvas, moving the pointer changes nothing: neither the state nor
    what the watchers have seen. *)
Theorem no_drag_after_release (c : Component) (e : Event) (sx sy : num) :
  e = MouseUp \/ e = MouseLeave ->
  dragging (state (dispatch e c)) = None /\
  dispatch (MouseMove sx sy) (dispatch e c) = dispatch e c.
Proof.
  intros He.
  assert (Hd : dragging (state (dispatch e c)) = None).
  { unfold dispatch.
    destruct (outsideWatchers_fields _ _
                (flushJobs_outsideWatchers (with_state (handle e (state c)) c)))
      as [_ [_ [_ [_ [_ [H _]]]]]].
    rewrite H; destruct He as [-> | ->]; reflexivity. }
  split; [exact Hd |].
  unfold dispatch at 1; cbn [handle]; unfold handleMouseMove; rewrite Hd.
  rewrite with_state_same.
  apply settled_idle; unfold dispatch; apply flushJobs_settled.
Qed.

Lemma no_drag_after_release_witness :
  dispatch (MouseMove (Fin 10) (Fin 20)) (dispatch MouseUp initialComponent)
  = dispatch MouseUp initialComponent.
Proof.
  apply (no_drag_after_release initialComponent MouseUp (Fin 10) (Fin 20)).
  left; reflexivity.
Defined.

(** ** Screen and world coordinates *)

(** X8.  With a finite viewport offset, [screenToWorld] and
    [worldToScreen] undo each other on finite coordinates. *)
Theorem screen_world_round_trip (s : State) (ox oy px py : R) :
  viewportOffset s = mkPoint (Fin ox) (Fin oy) ->
  let w := screenToWorld s (Fin px) (Fin py) in
  let v := worldToScreen s (Fin px) (Fin py) in
  worldToScreen s (x w) (y w) = mkPoint (Fin px) (Fin py) /\
  screenToWorld s (x v) (y v) = mkPoint (Fin px) (Fin py).
Proof.
  intros Hoff; unfold screenToWorld, worldToScreen; rewrite Hoff; cbn [x y].
  rewrite !sub_Fin, !add_Fin, !sub_Fin.
  split; f_equal; f_equal; ring.
Qed.

Lemma screen_world_round_trip_witness :
  worldToScreen initialState
    (x (screenToWorld initialState (Fin 3) (Fin 4)))
    (y (screenToWorld initialState (Fin 3) (Fin 4)))
  = mkPoint (Fin 3) (Fin 4).
Proof.
  apply (screen_world_round_trip initialState 0 0 3 4); reflexivity.
Defined.

(** ** Pressing the button *)

(** X9.  A press always starts a drag, of one of the four points or of
    the viewport, and records where it happened; it changes nothing
    else of the state. *)
Theorem press_starts_a_drag (screenX screenY : num) (s : State) :
  exists target,
    handleMouseDown screenX screenY s
    = set_dragging (Some target)
        (set_dragStart (mkPoint screenX screenY) s).
Proof.
  unfold handleMouseDown.
  repeat match goal with
  | |- context [if ?b then _ else _] => destruct b
  | |- context [match ?o with Some _ => _ | None => _ end] => destruct o
  end; eexists; reflexivity.
Qed.

Lemma isNearPoint_dragStart (s : State) (p : Point) (sx sy : num) (q : Point) :
  isNearPoint (set_dragStart p s) sx sy q = isNearPoint s sx sy q.
Proof. reflexivity. Qed.

Lemma add_NaN_l (a : num) : add NaN a = NaN.
Proof. reflexivity. Qed.

Lemma add_NaN_r (a : num) : add a NaN = NaN.
Proof. destruct a; reflexivity. Qed.

Lemma sub_NaN_l (a : num) : sub NaN a = NaN.
Proof. reflexivity. Qed.

Lemma sub_NaN_r (a : num) : sub a NaN = NaN.
Proof. destruct a; reflexivity. Qed.

Lemma mul_NaN_l (a : num) : mul NaN a = NaN.
Proof. reflexivity. Qed.

Lemma div_NaN_l (a : num) : div NaN a = NaN.
Proof. reflexivity. Qed.

(** A point with a [NaN] coordinate is near nothing. *)
Lemma isNearPoint_NaN (s : State) (sx sy : num) (p : Point) :
  x p = NaN \/ y p = NaN -> isNearPoint s sx sy p = false.
Proof.
  intros H; unfold isNearPoint, worldToScreen; cbn [x y].
  destruct H as [-> | ->]; rewrite add_NaN_l, sub_NaN_r.
  - rewrite mul_NaN_l, add_NaN_l; reflexivity.
  - rewrite mul_NaN_l, add_NaN_r; reflexivity.
Qed.

Lemma isNearPoint_distance (s : State) (ox oy sx sy px py : R) :
  viewportOffset s = mkPoint (Fin ox) (Fin oy) ->
  isNearPoint s (Fin sx) (Fin sy) (mkPoint (Fin px) (Fin py))
  = Rltb (screenDistance ox oy sx sy px py) 15.
Proof. apply isNearPoint_Fin. Qed.

(** X10.  The point a press grabs, by the distances on the screen between
    the pointer and the four points (all finite): a refraction point
    within 15 pixels wins over everything else, the left one first; then
    the apparent position; then the real position; a press that is 15
    pixels or more from each of them, or from the first three when the
    real position is absent or has a [NaN] coordinate, grabs the
    viewport. *)
Theorem press_grabs_nearest_by_priority
    (s : State) (ox oy sx sy lx ly rx ry ax ay : R) :
  viewportOffset s = mkPoint (Fin ox) (Fin oy) ->
  leftPoint s = mkPoint (Fin lx) (Fin ly) ->
  rightPoint s = mkPoint (Fin rx) (Fin ry) ->
  apparentPosition s = mkPoint (Fin ax) (Fin ay) ->
  let dist := screenDistance ox oy sx sy in
  let target := dragging (handleMouseDown (Fin sx) (Fin sy) s) in
  (dist lx ly < 15 -> target = Some DragLeftPoint) /\
  (15 <= dist lx ly -> dist rx ry < 15 -> target = Some DragRightPoint) /\
  (15 <= dist lx ly -> 15 <= dist rx ry -> dist ax ay < 15 ->
   target = Some DragApparentPosition) /\
  (15 <= dist lx ly -> 15 <= dist rx ry -> 15 <= dist ax ay ->
   forall px py, realPosition s = Some (mkPoint (Fin px) (Fin py)) ->
   target = if Rltb (dist px py) 15 then Some DragRealPosition
            else Some DragViewport) /\
  (15 <= dist lx ly -> 15 <= dist rx ry -> 15 <= dist ax ay ->
   (realPosition s = None \/
    exists p, realPosition s = Some p /\ (x p = NaN \/ y p = NaN)) ->
   target = Some DragViewport).
Proof.
  intros Hoff HpL HpR Hap dist target.
  unfold target, handleMouseDown.
  rewrite !isNearPoint_dragStart.
  cbn [leftPoint rightPoint apparentPosition set_dragStart].
  rewrite HpL, HpR, Hap.
  rewrite !(isNearPoint_distance s ox oy) by exact Hoff.
  fold dist.
  change (realPosition (set_dragStart (mkPoint (Fin sx) (Fin sy)) s))
    with (realPosition s).
  repeat split.
  - intros H; rewrite Rltb_true by exact H; reflexivity.
  - intros H1 H2; rewrite Rltb_false, Rltb_true by assumption; reflexivity.
  - intros H1 H2 H3.
    rewrite !Rltb_false, Rltb_true by assumption; reflexivity.
  - intros H1 H2 H3 px py Hreal.
    rewrite !Rltb_false by assumption; rewrite Hreal.
    rewrite isNearPoint_dragStart, (isNearPoint_distance s ox oy) by exact Hoff.
    fold dist; destruct (Rltb (dist px py) 15); reflexivity.
  - intros H1 H2 H3 Hreal.
    rewrite !Rltb_false by assumption.
    destruct Hreal as [-> | [p [-> Hnan]]]; [reflexivity |].
    rewrite isNearPoint_dragStart, isNearPoint_NaN by exact Hnan.
    reflexivity.
Qed.

Lemma press_grabs_nearest_by_priority_witness :
  dragging (handleMouseDown (Fin 253) (Fin 454) initialState)
  = Some DragLeftPoint.
Proof.
  destruct (press_grabs_nearest_by_priority initialState 0 0 253 454
              250 450 550 450 400 200 eq_refl eq_refl eq_refl eq_refl)
    as [H _].
  apply H; unfold screenDistance; apply sqrt_lt_15; lra.
Defined.

(** ** Panning *)

(** X11.  Panning follows the pointer: while the viewport is dragged, the
    world point that was under the pointer at [dragStart] is under the
    pointer after the move, the drag goes on from the new pointer
    position, and nothing of the optical state changes. *)
Theorem pan_follows_pointer (s : State) (ox oy dx dy sx sy : R) :
  dragging s = Some DragViewport ->
  viewportOffset s = mkPoint (Fin ox) (Fin oy) ->
  dragStart s = mkPoint (Fin dx) (Fin dy) ->
  let s' := handleMouseMove (Fin sx) (Fin sy) s in
  screenToWorld s' (Fin sx) (Fin sy) = screenToWorld s (Fin dx) (Fin dy) /\
  viewportOffset s' = mkPoint (Fin (ox + (sx - dx))) (Fin (oy + (sy - dy))) /\
  dragStart s' = mkPoint (Fin sx) (Fin sy) /\
  dragging s' = Some DragViewport /\
  scene s' = scene s.
Proof.
  intros Hdrag Hoff Hstart s'.
  unfold s', handleMouseMove; rewrite Hdrag, Hoff, Hstart; cbn [x y].
  rewrite !sub_Fin, !add_Fin.
  unfold screenToWorld; rewrite Hoff.
  cbn [viewportOffset set_dragStart set_viewportOffset x y dragStart dragging].
  rewrite !sub_Fin.
  repeat split; try assumption.
  f_equal; f_equal; ring.
Qed.

Lemma pan_follows_pointer_witness :
  let s := set_dragging (Some DragViewport) initialState in
  screenToWorld (handleMouseMove (Fin 30) (Fin 40) s) (Fin 30) (Fin 40)
  = screenToWorld s (Fin 0) (Fin 0).
Proof.
  intros s.
  apply (pan_follows_pointer s 0 0 0 0 30 40); reflexivity.
Defined.

(** X12.  Panning does not depend on the path of the pointer: two moves
    of the pointer while the viewport is dragged leave the state that
    the second move alone would have left. *)
Theorem pan_composes (s : State) (ox oy dx dy sx1 sy1 sx2 sy2 : R) :
  dragging s = Some DragViewport ->
  viewportOffset s = mkPoint (Fin ox) (Fin oy) ->
  dragStart s = mkPoint (Fin dx) (Fin dy) ->
  handleMouseMove (Fin sx2) (Fin sy2) (handleMouseMove (Fin sx1) (Fin sy1) s)
  = handleMouseMove (Fin sx2) (Fin sy2) s.
Proof.
  intros Hdrag Hoff Hstart.
  unfold handleMouseMove at 2; rewrite Hdrag, Hoff, Hstart; cbn [x y].
  unfold handleMouseMove.
  cbn [dragging set_dragStart set_viewportOffset viewportOffset dragStart x y].
  rewrite Hdrag, Hoff, Hstart; cbn [x y].
  rewrite !sub_Fin, !add_Fin.
  unfold set_dragStart, set_viewportOffset; cbn.
  f_equal; f_equal; f_equal; ring.
Qed.

Lemma pan_composes_witness :
  let s := set_dragging (Some DragViewport) initialState in
  handleMouseMove (Fin 5) (Fin 6) (handleMouseMove (Fin 30) (Fin 40) s)
  = handleMouseMove (Fin 5) (Fin 6) s.
Proof.
  intros s.
  apply (pan_composes s 0 0 0 0 30 40 5 6); reflexivity.
Defined.

(** ** Dragging the real position *)

Lemma updateAnglesFromRealPosition_outsideWatchers (p : Point) (s : State) :
  outsideWatchers (updateAnglesFromRealPosition p s) = outsideWatchers s.
Proof. reflexivity. Qed.

(** X13.  A move of the pointer while the real position is dragged is
    ignored altogether unless the coupling mode is on and the pointer is
    strictly above the interface; when it is taken, it writes the two
    angles and the apparent position only: the refraction points, the
    refractive index, the viewport and the drag in progress are as they
    were. *)
Theorem real_position_drag_guard (screenX screenY : num) (s : State) :
  dragging s = Some DragRealPosition ->
  updatingFromDrag s = false ->
  (lt (y (screenToWorld s screenX screenY)) waterLevelY = false \/
   lockRealPosition s = false ->
   handleMouseMove screenX screenY s = s) /\
  outsideWatchers (handleMouseMove screenX screenY s) = outsideWatchers s.
Proof.
  intros Hdrag Hflag; unfold handleMouseMove; rewrite Hdrag.
  split.
  - intros [H | H]; rewrite H; [| rewrite andb_false_r]; reflexivity.
  - destruct (_ && _); [| reflexivity].
    unfold outsideWatchers at 1; cbn [set_updatingFromDrag refractiveIndex
      leftPoint rightPoint lockRealPosition viewportOffset dragging dragStart
      updatingFromDrag updatingFromAngleChange].
    match goal with
    | |- context [updateApparentFromReal ?t] =>
      destruct (outsideWatchers_fields _ _
                  (updateApparentFromReal_outsideWatchers t))
        as [-> [-> [-> [-> [-> [-> [-> [_ ->]]]]]]]]
    end.
    unfold outsideWatchers; rewrite Hflag; reflexivity.
Qed.

Lemma real_position_drag_guard_witness :
  let s := set_dragging (Some DragRealPosition) initialState in
  handleMouseMove (Fin 400) (Fin 450) s = s.
Proof.
  intros s.
  destruct (real_position_drag_guard (Fin 400) (Fin 450) s eq_refl eq_refl)
    as [H _].
  apply H; left.
  unfold screenToWorld, s, waterLevelY; cbn [viewportOffset set_dragging
    initialState x y].
  rewrite sub_Fin, lt_Fin; apply Rltb_false; lra.
Defined.

(** ** Dragging a point *)

(** What [handleMouseMove] itself assigns in the three branches that
    drag a point (finite viewport offset and pointer position). *)
Lemma handleMouseMove_point (s : State) (ox oy sx sy : R) :
  viewportOffset s = mkPoint (Fin ox) (Fin oy) ->
  let s' := handleMouseMove (Fin sx) (Fin sy) s in
  (dragging s = Some DragLeftPoint ->
   leftPoint s' = mkPoint (Fin (sx - ox)) waterLevelY /\
   rightPoint s' = rightPoint s /\ apparentPosition s' = apparentPosition s /\
   lockRealPosition s' = lockRealPosition s /\
   viewportOffset s' = viewportOffset s) /\
  (dragging s = Some DragRightPoint ->
   rightPoint s' = mkPoint (Fin (sx - ox)) waterLevelY /\
   leftPoint s' = leftPoint s /\ apparentPosition s' = apparentPosition s /\
   lockRealPosition s' = lockRealPosition s /\
   viewportOffset s' = viewportOffset s) /\
  (dragging s = Some DragApparentPosition -> sy - oy < 450 ->
   apparentPosition s' = mkPoint (Fin (sx - ox)) (Fin (sy - oy)) /\
   leftPoint s' = leftPoint s /\ rightPoint s' = rightPoint s /\
   lockRealPosition s' = lockRealPosition s /\
   viewportOffset s' = viewportOffset s).
Proof.
  intros Hoff s'; unfold s', handleMouseMove, screenToWorld.
  rewrite Hoff; cbn [x y]; rewrite !sub_Fin.
  split; [| split].
  - intros ->.
    cbn [leftPoint rightPoint apparentPosition viewportOffset
         lockRealPosition set_updatingFromDrag updateAnglesFromPositions
         set_leftAngleDeg set_rightAngleDeg set_leftPoint x y].
    repeat split; exact Hoff.
  - intros ->.
    cbn [leftPoint rightPoint apparentPosition viewportOffset
         lockRealPosition set_updatingFromDrag updateAnglesFromPositions
         set_leftAngleDeg set_rightAngleDeg set_rightPoint x y].
    repeat split; exact Hoff.
  - intros -> Hy.
    unfold waterLevelY; rewrite lt_Fin, Rltb_true by exact Hy.
    cbn [leftPoint rightPoint apparentPosition viewportOffset
         lockRealPosition set_updatingFromDrag updateAnglesFromPositions
         set_leftAngleDeg set_rightAngleDeg set_apparentPosition x y].
    repeat split; exact Hoff.
Qed.

(** X14.  A dragged point, after the whole event: the handler and the
    jobs of the watchers it has queued (finite viewport offset and
    pointer position).  A refraction point follows the pointer
    horizontally and stays on the interface, whatever the height of the
    pointer and whichever the coupling mode; the other refraction point
    stays where it was, and so does the apparent position when the
    coupling mode is off.  The apparent position, dragged above the
    interface, leaves both refraction points where they were, and with
    the coupling mode off it ends under the pointer in both
    coordinates.  (With the mode on, the angle watcher moves it again
    after the handler: C6.) *)
Theorem dragged_point_follows_pointer (c : Component) (ox oy sx sy : R) :
  viewportOffset (state c) = mkPoint (Fin ox) (Fin oy) ->
  let s := state c in
  let s' := state (dispatch (MouseMove (Fin sx) (Fin sy)) c) in
  (dragging s = Some DragLeftPoint ->
   leftPoint s' = mkPoint (Fin (sx - ox)) waterLevelY /\
   x (worldToScreen s' (x (leftPoint s')) (y (leftPoint s'))) = Fin sx /\
   rightPoint s' = rightPoint s /\
   (lockRealPosition s = false -> apparentPosition s' = apparentPosition s)) /\
  (dragging s = Some DragRightPoint ->
   rightPoint s' = mkPoint (Fin (sx - ox)) waterLevelY /\
   x (worldToScreen s' (x (rightPoint s')) (y (rightPoint s'))) = Fin sx /\
   leftPoint s' = leftPoint s /\
   (lockRealPosition s = false -> apparentPosition s' = apparentPosition s)) /\
  (dragging s = Some DragApparentPosition -> sy - oy < 450 ->
   leftPoint s' = leftPoint s /\ rightPoint s' = rightPoint s /\
   (lockRealPosition s = false ->
    apparentPosition s' = mkPoint (Fin (sx - ox)) (Fin (sy - oy)) /\
    worldToScreen s' (x (apparentPosition s')) (y (apparentPosition s'))
    = mkPoint (Fin sx) (Fin sy))).
Proof.
  intros Hoff s s'.
  assert (Hoff' : viewportOffset s = mkPoint (Fin ox) (Fin oy)) by exact Hoff.
  destruct (handleMouseMove_point s ox oy sx sy Hoff) as [HL [HR HA]].
  set (h := handleMouseMove (Fin sx) (Fin sy) s) in *.
  assert (Hs' : s' = state (flushJobs (with_state h c))) by reflexivity.
  destruct (outsideWatchers_fields _ _
              (flushJobs_outsideWatchers (with_state h c)))
    as [_ [HpL [HpR [_ [Hv _]]]]].
  rewrite <- Hs' in HpL, HpR, Hv; cbn [state with_state] in HpL, HpR, Hv.
  assert (Hap : lockRealPosition h = false ->
                apparentPosition s' = apparentPosition h).
  { intros Hlock; rewrite Hs'.
    rewrite flushJobs_unlocked by exact Hlock; reflexivity. }
  split; [| split].
  - intros Hd; destruct (HL Hd) as [H1 [H2 [H3 [H4 H5]]]].
    split; [rewrite HpL; exact H1 |].
    split.
    { unfold worldToScreen; rewrite Hv, H5, Hoff', HpL, H1.
      cbn [x y]; rewrite add_Fin; f_equal; ring. }
    split; [rewrite HpR; exact H2 |].
    intros Hlock; rewrite Hap by (rewrite H4; exact Hlock); exact H3.
  - intros Hd; destruct (HR Hd) as [H1 [H2 [H3 [H4 H5]]]].
    split; [rewrite HpR; exact H1 |].
    split.
    { unfold worldToScreen; rewrite Hv, H5, Hoff', HpR, H1.
      cbn [x y]; rewrite add_Fin; f_equal; ring. }
    split; [rewrite HpL; exact H2 |].
    intros Hlock; rewrite Hap by (rewrite H4; exact Hlock); exact H3.
  - intros Hd Hy; destruct (HA Hd Hy) as [H1 [H2 [H3 [H4 H5]]]].
    split; [rewrite HpL; exact H2 |].
    split; [rewrite HpR; exact H3 |].
    intros Hlock.
    assert (Hq : apparentPosition s' = mkPoint (Fin (sx - ox)) (Fin (sy - oy)))
      by (rewrite Hap by (rewrite H4; exact Hlock); exact H1).
    split; [exact Hq |].
    unfold worldToScreen; rewrite Hv, H5, Hoff', Hq.
    cbn [x y]; rewrite !add_Fin; f_equal; f_equal; ring.
Qed.

Lemma dragged_point_follows_pointer_witness :
  let c := with_state (set_dragging (Some DragLeftPoint) initialState)
             initialComponent in
  leftPoint (state (dispatch (MouseMove (Fin 300) (Fin 123)) c))
  = mkPoint (Fin (300 - 0)) waterLevelY.
Proof.
  intros c.
  destruct (dragged_point_follows_pointer c 0 0 300 123 eq_refl) as [H _].
  apply H; reflexivity.
Defined.

(** ** The angles the drags write *)

Lemma Ratan2_bounds (vy vx : R) : - PI < Ratan2 vy vx <= PI.
Proof.
  pose proof PI_RGT_0 as Hpi.
  pose proof (atan_bound (vy / vx)) as Hb.
  unfold Ratan2, Rltb, Rleb.
  destruct (Rlt_dec 0 vx) as [Hx | Hx]; [lra |].
  destruct (Rlt_dec vx 0) as [Hx' | Hx'].
  - destruct (Rle_dec 0 vy) as [Hy | Hy].
    + assert (H : atan (vy / vx) <= 0); [| lra].
      rewrite <- atan_0.
      assert (Hq : vy / vx <= 0).
      { pose proof (Rinv_lt_0_compat vx Hx') as Hinv.
        unfold Rdiv; nra. }
      destruct Hq as [Hq | ->]; [left; apply atan_increasing; exact Hq | lra].
    + assert (H : 0 < atan (vy / vx)); [| lra].
      rewrite <- atan_0; apply atan_increasing.
      replace (vy / vx) with ((- vy) / (- vx)) by (field; lra).
      apply Rdiv_lt_0_compat; lra.
  - destruct (Rlt_dec 0 vy); [lra |].
    destruct (Rlt_dec vy 0); lra.
Qed.

Lemma Rabs_Ratan2 (vy vx : R) : 0 <= Rabs (Ratan2 vy vx) <= PI.
Proof.
  pose proof (Ratan2_bounds vy vx) as H.
  split; [apply Rabs_pos |].
  unfold Rabs; destruct (Rcase_abs _); lra.
Qed.

Lemma Rabs_Ratan2_up (vy vx : R) : 0 < vx -> Rabs (Ratan2 vy vx) < PI / 2.
Proof.
  intros H; rewrite Ratan2_right by exact H.
  pose proof (atan_bound (vy / vx)) as Hb.
  unfold Rabs; destruct (Rcase_abs _); lra.
Qed.

(** [toFixed(1)] keeps a number between two multiples of one tenth
    between them, and moves it by a twentieth at most. *)
Lemma toFixed1_between (w : R) (lo hi : Z) :
  0 <= w <= 1000 -> IZR lo <= w * 10 <= IZR hi ->
  exists k, toFixed1 (Fin w) = Fin (IZR k / 10) /\ (lo <= k <= hi)%Z /\
            w - 0.05 < IZR k / 10 <= w + 0.05.
Proof.
  intros Hw [Hlo Hhi].
  pose proof (Zfloor_bound (w * 10 + / 2)) as Hb.
  set (k := Zfloor (w * 10 + / 2)) in *.
  exists k; split; [apply toFixed1_eq; assumption |].
  split; [| lra].
  split.
  - assert (H : (lo < k + 1)%Z) by (apply lt_IZR; rewrite plus_IZR; lra).
    lia.
  - assert (H : (k < hi + 1)%Z) by (apply lt_IZR; rewrite plus_IZR; lra).
    lia.
Qed.

Lemma deg_of_rad_range (t b : R) :
  0 <= t <= b * PI / 180 -> 0 <= t * 180 / PI <= b.
Proof.
  intros [H0 H1]; pose proof PI_RGT_0 as Hpi.
  split.
  - apply Rmult_le_pos; [lra | left; apply Rinv_0_lt_compat; exact Hpi].
  - apply Rmult_le_reg_r with PI; [exact Hpi |].
    replace (t * 180 / PI * PI) with (t * 180) by (field; lra).
    lra.
Qed.

(** The angle in degrees of a vector, as both functions compute it,
    rounded to one decimal. *)
Lemma vector_angle_range (dx dy : R) :
  exists k,
    toFixed1 (Fin (Rabs (Ratan2 dx dy) * 180 / PI)) = Fin (IZR k / 10) /\
    (0 <= k <= 1800)%Z /\ (0 < dy -> (k <= 900)%Z).
Proof.
  pose proof PI_RGT_0 as Hpi.
  pose proof (Rabs_Ratan2 dx dy) as Hr.
  destruct (deg_of_rad_range (Rabs (Ratan2 dx dy)) 180 ltac:(lra)) as [H0 H1].
  destruct (Rlt_dec 0 dy) as [Hdy | Hdy].
  - pose proof (Rabs_Ratan2_up dx dy Hdy) as Hup.
    destruct (deg_of_rad_range (Rabs (Ratan2 dx dy)) 90 ltac:(lra)) as [_ H2].
    destruct (toFixed1_between (Rabs (Ratan2 dx dy) * 180 / PI) 0 900)
      as [k [Hk [Hrange _]]]; [lra | lra |].
    exists k; split; [exact Hk |]; split; [lia | intros _; lia].
  - destruct (toFixed1_between (Rabs (Ratan2 dx dy) * 180 / PI) 0 1800)
      as [k [Hk [Hrange _]]]; [lra | lra |].
    exists k; split; [exact Hk |]; split; [lia | intros H; contradiction].
Qed.

(** X15.  The angles [updateAnglesFromPositions] writes, for finite
    points: each is a whole number of tenths of a degree, from 0 to 180,
    and at most 90 when the apparent position is strictly above the
    refraction point of that side. *)
Theorem updateAnglesFromPositions_range (s : State) (lx ly rx ry ax ay : R) :
  leftPoint s = mkPoint (Fin lx) (Fin ly) ->
  rightPoint s = mkPoint (Fin rx) (Fin ry) ->
  apparentPosition s = mkPoint (Fin ax) (Fin ay) ->
  exists kL kR : Z,
    leftAngleDeg (updateAnglesFromPositions s) = Fin (IZR kL / 10) /\
    rightAngleDeg (updateAnglesFromPositions s) = Fin (IZR kR / 10) /\
    (0 <= kL <= 1800)%Z /\ (0 <= kR <= 1800)%Z /\
    (ay < ly -> (kL <= 900)%Z) /\ (ay < ry -> (kR <= 900)%Z).
Proof.
  intros HpL HpR Hap.
  unfold updateAnglesFromPositions.
  cbn [leftAngleDeg rightAngleDeg set_leftAngleDeg set_rightAngleDeg].
  rewrite HpL, HpR, Hap; cbn [x y].
  rewrite !sub_Fin; cbn [neg Math_atan2 Math_abs]; rewrite !toDeg_Fin.
  destruct (vector_angle_range (ax - lx) (- (ay - ly))) as [kL [-> [HkL HkL']]].
  destruct (vector_angle_range (ax - rx) (- (ay - ry))) as [kR [-> [HkR HkR']]].
  exists kL, kR.
  split; [reflexivity |]. split; [reflexivity |].
  split; [exact HkL |]. split; [exact HkR |].
  split; intros H; [apply HkL' | apply HkR']; lra.
Qed.

Lemma updateAnglesFromPositions_range_witness :
  exists kL kR : Z,
    leftAngleDeg (updateAnglesFromPositions initialState)
    = Fin (IZR kL / 10) /\
    rightAngleDeg (updateAnglesFromPositions initialState)
    = Fin (IZR kR / 10) /\
    (0 <= kL <= 1800)%Z /\ (0 <= kR <= 1800)%Z /\
    (200 < 450 -> (kL <= 900)%Z) /\ (200 < 450 -> (kR <= 900)%Z).
Proof.
  apply (updateAnglesFromPositions_range initialState 250 450 550 450 400 200);
    reflexivity.
Defined.

(** Snell's law into water, on an angle between 0 and 180 degrees, gives
    an angle between 0 and the critical angle. *)
Lemma airToWaterRad_bound (s : State) (n t : R) :
  refractiveIndex s = Fin n -> 1 <= n -> 0 <= t <= PI ->
  exists w, airToWaterRad s (Fin t) = Fin w /\
            0 <= w * 180 / PI <= criticalDeg n /\
            w = asin (1 / n * sin t).
Proof.
  intros Hs Hn Ht.
  pose proof PI_RGT_0 as Hpi.
  destruct (inv_index_range n Hn) as [Hi0 Hi1].
  assert (Hsin : 0 <= sin t <= 1).
  { split; [apply sin_ge_0; lra | pose proof (SIN_bound t); lra]. }
  assert (Hu : 0 <= 1 / n * sin t <= 1 / n) by (split; nra).
  unfold airToWaterRad, airIndex; rewrite Hs, div_Fin by lra.
  cbn [Math_sin]; rewrite mul_Fin, Math_asin_Fin by lra.
  eexists; split; [reflexivity |]. split; [| reflexivity].
  assert (H0 : 0 <= asin (1 / n * sin t)) by (apply asin_nonneg; lra).
  assert (H1 : asin (1 / n * sin t) <= asin (1 / n))
    by (apply asin_monotone; lra).
  unfold criticalDeg.
  split.
  - apply Rmult_le_pos; [lra | left; apply Rinv_0_lt_compat; exact Hpi].
  - apply Rmult_le_compat_r; [left; apply Rinv_0_lt_compat; exact Hpi | lra].
Qed.

(** X16.  The angles [updateAnglesFromRealPosition] writes, for a finite
    position, finite refraction points and an index of 1 or more: each
    is a whole number of tenths of a degree, from 0 to the critical
    angle plus the twentieth of a degree that the rounding can add. *)
Theorem updateAnglesFromRealPosition_bound
    (s : State) (n lx ly rx ry px py : R) :
  refractiveIndex s = Fin n -> 1 <= n ->
  leftPoint s = mkPoint (Fin lx) (Fin ly) ->
  rightPoint s = mkPoint (Fin rx) (Fin ry) ->
  let s' := updateAnglesFromRealPosition (mkPoint (Fin px) (Fin py)) s in
  exists kL kR : Z,
    leftAngleDeg s' = Fin (IZR kL / 10) /\
    rightAngleDeg s' = Fin (IZR kR / 10) /\
    0 <= IZR kL / 10 <= criticalDeg n + 0.05 /\
    0 <= IZR kR / 10 <= criticalDeg n + 0.05.
Proof.
  intros Hs Hn HpL HpR s'.
  pose proof (criticalDeg_range n Hn) as Hc.
  unfold s', updateAnglesFromRealPosition.
  cbn [leftAngleDeg rightAngleDeg set_leftAngleDeg set_rightAngleDeg].
  rewrite HpL, HpR; cbn [x y].
  rewrite !sub_Fin; cbn [neg Math_atan2 Math_abs].
  destruct (airToWaterRad_bound s n _ Hs Hn
              (Rabs_Ratan2 (px - lx) (- (py - ly)))) as [wL [-> [HwL _]]].
  destruct (airToWaterRad_bound s n _ Hs Hn
              (Rabs_Ratan2 (px - rx) (- (py - ry)))) as [wR [-> [HwR _]]].
  rewrite !toDeg_Fin.
  destruct (toFixed1_between (wL * 180 / PI) 0 900)
    as [kL [-> [HkL HcL]]]; [lra | lra |].
  destruct (toFixed1_between (wR * 180 / PI) 0 900)
    as [kR [-> [HkR HcR]]]; [lra | lra |].
  destruct HkL as [HkL _]; destruct HkR as [HkR _].
  apply IZR_le in HkL, HkR.
  exists kL, kR.
  repeat split; try reflexivity; lra.
Qed.

Lemma updateAnglesFromRealPosition_bound_witness :
  exists kL kR : Z,
    leftAngleDeg
      (updateAnglesFromRealPosition (mkPoint (Fin 400) (Fin 300)) initialState)
    = Fin (IZR kL / 10) /\
    rightAngleDeg
      (updateAnglesFromRealPosition (mkPoint (Fin 400) (Fin 300)) initialState)
    = Fin (IZR kR / 10) /\
    0 <= IZR kL / 10 <= criticalDeg 1.33 + 0.05 /\
    0 <= IZR kR / 10 <= criticalDeg 1.33 + 0.05.
Proof.
  apply (updateAnglesFromRealPosition_bound initialState 1.33
           250 450 550 450 400 300); try reflexivity; lra.
Defined.

(** ** A real position dragged to grazing incidence *)

Lemma sin_atan_steep (v : R) : 200 <= v -> 0.99998 <= sin (atan v).
Proof.
  intros Hv.
  pose proof (atan_bound v) as Hb.
  assert (Hc : 0 < cos (atan v)) by (apply cos_gt_0; lra).
  pose proof (tan_atan v) as Ht; unfold tan in Ht.
  assert (Hs : sin (atan v) = v * cos (atan v)).
  { rewrite <- Ht at 2; field; lra. }
  pose proof (sin2_cos2 (atan v)) as H1; unfold Rsqr in H1.
  set (c := cos (atan v)) in *; set (z := sin (atan v)) in *.
  assert (Hz : 0 < z) by (rewrite Hs; nra).
  assert (Hcz : 200 * c <= z) by (rewrite Hs; nra).
  assert (Hc2 : 40000 * (c * c) <= z * z) by nra.
  assert (Hz2 : 0.999975 <= z * z) by lra.
  destruct (Rle_dec 0.99998 z) as [H | H]; [exact H |].
  exfalso; nra.
Qed.

Lemma Rabs_atan_Rabs (q : R) : Rabs (atan q) = atan (Rabs q).
Proof.
  destruct (Rle_dec 0 q) as [H | H].
  - rewrite (Rabs_right q) by lra; apply Rabs_atan; exact H.
  - rewrite (Rabs_left q) by lra.
    replace q with (- - q) at 1 by ring.
    apply Rabs_atan; lra.
Qed.

(** The angle in water of a ray that is as steep as 200 to 1, in water
    of index 1.33: it is printed as 48.8. *)
Lemma grazing_water_angle (s : State) (dx h : R) :
  refractiveIndex s = Fin 1.33 -> 0 < h -> 200 * h <= Rabs dx ->
  toFixed1
    (div (mul (airToWaterRad s (Fin (Rabs (Ratan2 dx h)))) (Fin 180)) Math_PI)
  = Fin 48.8.
Proof.
  intros Hs Hh Hsteep.
  pose proof PI_bounds as [Pl Pu].
  destruct (airToWaterRad_bound s 1.33 _ Hs ltac:(lra) (Rabs_Ratan2 dx h))
    as [w [-> [Hw Heq]]].
  rewrite toDeg_Fin.
  pose proof criticalDeg_water as Hcw.
  rewrite Ratan2_right, Rabs_atan_Rabs in Heq by exact Hh.
  assert (Hq : 200 <= Rabs (dx / h)).
  { unfold Rdiv; rewrite Rabs_mult, (Rabs_right (/ h))
      by (left; apply Rinv_0_lt_compat; exact Hh).
    apply Rmult_le_reg_r with h; [exact Hh |].
    rewrite Rmult_assoc, Rinv_l by lra; lra. }
  pose proof (sin_atan_steep _ Hq) as Hsin.
  pose proof (SIN_bound (atan (Rabs (dx / h)))) as Hsb.
  assert (Hlow : 48.75 < w * 180 / PI).
  { rewrite Heq.
    apply asin_deg_lower with (hi := 48.75 * 3.1416 / 180); lra. }
  rewrite (toFixed1_eq (w * 180 / PI) 488) by lra.
  f_equal; lra.
Qed.

(** X17.  In water of index 1.33, a real position dragged so close to
    the interface that the ray to the left refraction point is as steep
    as 200 to 1: the handler writes 48.8 degrees, the critical angle
    rounded up, into the left angle; that is total internal reflection,
    so the real position the pointer holds is gone ([null]) when the
    handler returns, and the apparent position has not moved. *)
Theorem grazing_real_drag_loses_real_position
    (s : State) (lx ox oy sx sy : R) :
  dragging s = Some DragRealPosition ->
  lockRealPosition s = true ->
  refractiveIndex s = Fin 1.33 ->
  leftPoint s = mkPoint (Fin lx) waterLevelY ->
  viewportOffset s = mkPoint (Fin ox) (Fin oy) ->
  sy - oy < 450 ->
  200 * (450 - (sy - oy)) <= Rabs (sx - ox - lx) ->
  let s' := handleMouseMove (Fin sx) (Fin sy) s in
  leftAngleDeg s' = Fin 48.8 /\
  leftExceedsCritical s' = true /\
  realPosition s' = None /\
  apparentPosition s' = apparentPosition s.
Proof.
  intros Hdrag Hlock Hs HpL Hoff Hy Hsteep s'.
  pose proof criticalDeg_water as Hcw.
  set (s1 := set_updatingFromDrag true s).
  set (s2 := updateAnglesFromRealPosition
               (mkPoint (Fin (sx - ox)) (Fin (sy - oy))) s1).
  assert (HaL : leftAngleDeg s2 = Fin 48.8).
  { unfold s2, updateAnglesFromRealPosition.
    cbn [leftAngleDeg set_leftAngleDeg set_rightAngleDeg].
    change (leftPoint s1) with (leftPoint s); rewrite HpL.
    unfold waterLevelY; cbn [x y].
    rewrite !sub_Fin; cbn [neg Math_atan2 Math_abs].
    replace (- (sy - oy - 450)) with (450 - (sy - oy)) by ring.
    apply grazing_water_angle; [exact Hs | lra | exact Hsteep]. }
  assert (Hex : leftExceedsCritical s2 = true).
  { unfold leftExceedsCritical.
    rewrite (criticalAngle_Fin s2 1.33) by (exact Hs || lra).
    rewrite HaL, ge_Fin; apply Rleb_true; lra. }
  assert (Hreal : realPosition s2 = None)
    by (unfold realPosition; rewrite Hex; reflexivity).
  assert (Hupd : updateApparentFromReal s2 = s2).
  { unfold updateApparentFromReal.
    change (lockRealPosition s2) with (lockRealPosition s).
    rewrite Hlock, Hreal; reflexivity. }
  assert (Hs' : s' = set_updatingFromDrag false s2).
  { unfold s', handleMouseMove; rewrite Hdrag.
    unfold screenToWorld; rewrite Hoff; cbn [x y].
    rewrite !sub_Fin; unfold waterLevelY; rewrite lt_Fin.
    rewrite Rltb_true by exact Hy; rewrite Hlock; cbn [andb].
    fold s1; fold s2; rewrite Hupd; reflexivity. }
  rewrite Hs'.
  split; [exact HaL |]. split; [exact Hex |]. split; [exact Hreal | reflexivity].
Qed.

Lemma grazing_real_drag_loses_real_position_witness :
  let s := set_dragging (Some DragRealPosition) initialState in
  realPosition (handleMouseMove (Fin 800) (Fin 449) s) = None.
Proof.
  intros s.
  apply (grazing_real_drag_loses_real_position s 250 0 0 800 449);
    try reflexivity; try lra.
  replace (800 - 0 - 250) with 550 by ring.
  rewrite Rabs_right; lra.
Defined.

(** ** The messages of the page *)

Lemma lt_le (a b : num) : lt a b = true -> le a b = true.
Proof.
  destruct a, b; cbn; intros H; try discriminate H; try reflexivity.
  apply Rltb_spec in H; apply Rleb_true; lra.
Qed.

Lemma lt_irrefl (a : num) : lt a a = false.
Proof. destruct a; cbn; try reflexivity; apply Rltb_false; lra. Qed.

(** X18.  When the page shows "Left: Total internal reflection" the left
    side is in total internal reflection for the script as well: its
    flag is set, its refracted angle is [NaN] and there is no real
    position.  The converse fails at one point: an angle equal to a
    finite critical angle sets the flag and shows no message. *)
Theorem left_message_implies_total_internal_reflection (s : State) :
  (leftTotalInternalReflectionShown s = true ->
   leftExceedsCritical s = true /\ leftRefractedAngle s = NaN /\
   realPosition s = None) /\
  (leftAngleDeg s = criticalAngle s -> isFinite (criticalAngle s) = true ->
   leftExceedsCritical s = true /\ leftTotalInternalReflectionShown s = false).
Proof.
  split.
  - intros H; apply lt_le in H.
    assert (Hex : leftExceedsCritical s = true) by exact H.
    split; [exact Hex |].
    unfold leftRefractedAngle, realPosition; rewrite Hex.
    split; reflexivity.
  - intros Heq Hfin.
    unfold leftExceedsCritical, leftTotalInternalReflectionShown, ge.
    rewrite Heq, lt_irrefl.
    destruct (criticalAngle s); try discriminate Hfin.
    split; [apply Rleb_true; lra | reflexivity].
Qed.

Lemma left_message_implies_total_internal_reflection_witness :
  realPosition (set_leftAngleDeg (Fin 60) initialState) = None.
Proof.
  destruct (left_message_implies_total_internal_reflection
              (set_leftAngleDeg (Fin 60) initialState)) as [H _].
  apply H.
  unfold leftTotalInternalReflectionShown.
  rewrite (criticalAngle_Fin _ 1.33) by (reflexivity || lra).
  cbn [leftAngleDeg set_leftAngleDeg]; rewrite lt_Fin.
  pose proof criticalDeg_water; apply Rltb_true; lra.
Defined.

(** ** The apparent position is the farther one *)

Lemma cotDeg_decreasing (a b : R) :
  0 < a -> a <= b -> b < 90 -> cotDeg b <= cotDeg a.
Proof.
  intros Ha Hab Hb.
  pose proof PI_RGT_0 as Hpi.
  destruct (acute_sin_cos a ltac:(lra)) as [Hsa Hca].
  destruct (acute_sin_cos b ltac:(lra)) as [Hsb Hcb].
  assert (Hra : 0 < a * PI / 180 < PI / 2) by (split; nra).
  assert (Hrb : 0 < b * PI / 180 < PI / 2) by (split; nra).
  assert (Hab' : a * PI / 180 <= b * PI / 180) by nra.
  assert (Hs : sin (a * PI / 180) <= sin (b * PI / 180))
    by (apply sin_incr_1; lra).
  assert (Hc : cos (b * PI / 180) <= cos (a * PI / 180))
    by (apply cos_decr_1; lra).
  unfold cotDeg.
  apply Rmult_le_reg_r with (sin (a * PI / 180) * sin (b * PI / 180));
    [apply Rmult_lt_0_compat; assumption |].
  replace (cos (b * PI / 180) / sin (b * PI / 180)
           * (sin (a * PI / 180) * sin (b * PI / 180)))
    with (cos (b * PI / 180) * sin (a * PI / 180)) by (field; lra).
  replace (cos (a * PI / 180) / sin (a * PI / 180)
           * (sin (a * PI / 180) * sin (b * PI / 180)))
    with (cos (a * PI / 180) * sin (b * PI / 180)) by (field; lra).
  nra.
Qed.

(** The height at which two converging rays cross grows with each of
    their cotangents. *)
Lemma crossing_height_monotone (kL kR kL' kR' d : R) :
  0 < kL' <= kL -> 0 < kR' <= kR -> 0 <= d ->
  kL' * kR' * d / (kL' + kR') <= kL * kR * d / (kL + kR).
Proof.
  intros HL HR Hd.
  apply Rmult_le_reg_r with ((kL' + kR') * (kL + kR)); [nra |].
  replace (kL' * kR' * d / (kL' + kR') * ((kL' + kR') * (kL + kR)))
    with (kL' * kR' * d * (kL + kR)) by (field; lra).
  replace (kL * kR * d / (kL + kR) * ((kL' + kR') * (kL + kR)))
    with (kL * kR * d * (kL' + kR')) by (field; lra).
  assert (H1 : 0 <= kL' * (kR - kR') * kL) by (repeat apply Rmult_le_pos; lra).
  assert (H2 : 0 <= kR' * (kL - kL') * kR) by (repeat apply Rmult_le_pos; lra).
  assert (H3 : kL' * kR' * (kL + kR) <= kL * kR * (kL' + kR')) by nra.
  replace (kL' * kR' * d * (kL + kR)) with (kL' * kR' * (kL + kR) * d) by ring.
  replace (kL * kR * d * (kL' + kR')) with (kL * kR * (kL' + kR') * d) by ring.
  apply Rmult_le_compat_r; assumption.
Qed.

(** X19.  With the apparent position between the two refraction points
    and both angles above 0 and below the critical angle (index 1 or
    more, coupling mode on): the real position exists, both it and the
    apparent position that [updateApparentFromReal] derives from it lie
    between the refraction points and above the interface, and the
    apparent position is at least as far from the interface as the real
    one. *)
Theorem apparent_position_is_farther (s : State) (n aL aR lx rx ax : R) :
  lockRealPosition s = true ->
  refractiveIndex s = Fin n -> 1 <= n ->
  leftAngleDeg s = Fin aL -> rightAngleDeg s = Fin aR ->
  0 < aL -> aL < criticalDeg n -> 0 < aR -> aR < criticalDeg n ->
  leftPoint s = mkPoint (Fin lx) waterLevelY ->
  rightPoint s = mkPoint (Fin rx) waterLevelY ->
  lx < rx ->
  x (apparentPosition s) = Fin ax -> lx <= ax < rx ->
  exists px py qx qy,
    realPosition s = Some (mkPoint (Fin px) (Fin py)) /\
    apparentPosition (updateApparentFromReal s) = mkPoint (Fin qx) (Fin qy) /\
    lx < px < rx /\ lx < qx < rx /\
    qy <= py < 450.
Proof.
  intros Hlock Hs Hn HaL HaR HL0 HLc HR0 HRc HpL HpR Hlr Hax Hbetween.
  pose proof (criticalDeg_range n Hn) as Hc.
  destruct (updateApparentFromReal_between s n aL aR lx rx ax)
    as [Hupd [Hqx [Hqy [px [py [Hreal [Hpx Hpy]]]]]]]; try assumption.
  destruct (realPosition_finite_inv s n aL aR lx rx px py)
    as [rL [rR [bL [bR [HrL [HrR [HrL90 [HrR90 [HlineL HlineR]]]]]]]]];
    try assumption.
  pose proof (refracted_valid n aL Hn ltac:(lra) HLc) as HvL.
  pose proof (refracted_valid n aR Hn ltac:(lra) HRc) as HvR.
  rewrite <- HrL in HvL; rewrite <- HrR in HvR.
  pose proof (cotDeg_pos rL HrL90) as HkL.
  pose proof (cotDeg_pos rR HrR90) as HkR.
  pose proof (cotDeg_decreasing aL rL HL0 ltac:(lra) ltac:(lra)) as HdL.
  pose proof (cotDeg_decreasing aR rR HR0 ltac:(lra) ltac:(lra)) as HdR.
  rewrite slope_cotDeg in HlineL, HlineR by assumption.
  assert (HhL : 450 - py = cotDeg rL * (px - lx)).
  { destruct bL; unfold direction in HlineL; [exfalso; nra | lra]. }
  assert (HhR : 450 - py = cotDeg rR * (rx - px)).
  { destruct bR; unfold direction in HlineR; [lra | exfalso; nra]. }
  assert (Hh : 450 - py
               = cotDeg rL * cotDeg rR * (rx - lx) / (cotDeg rL + cotDeg rR)).
  { apply Rmult_eq_reg_r with (cotDeg rL + cotDeg rR); [| lra].
    replace (cotDeg rL * cotDeg rR * (rx - lx) / (cotDeg rL + cotDeg rR)
             * (cotDeg rL + cotDeg rR))
      with (cotDeg rL * cotDeg rR * (rx - lx)) by (field; lra).
    nra. }
  pose proof (crossing_height_monotone (cotDeg aL) (cotDeg aR)
                (cotDeg rL) (cotDeg rR) (rx - lx)
                ltac:(lra) ltac:(lra) ltac:(lra)) as Hmono.
  exists px, py; eexists; eexists.
  split; [exact Hreal |].
  split; [rewrite Hupd; reflexivity |].
  split; [exact Hpx |]. split; [exact Hqx |].
  split; [lra | exact Hpy].
Qed.

Lemma apparent_position_is_farther_witness :
  exists px py qx qy,
    realPosition initialState = Some (mkPoint (Fin px) (Fin py)) /\
    apparentPosition (updateApparentFromReal initialState)
    = mkPoint (Fin qx) (Fin qy) /\
    250 < px < 550 /\ 250 < qx < 550 /\ qy <= py < 450.
Proof.
  pose proof criticalDeg_water as Hcw.
  apply (apparent_position_is_farther initialState 1.33 30 30 250 550 400);
    try reflexivity; lra.
Defined.

(** ** The reflected ray *)

(** X20.  [drawReflectedRay] draws the same ray whichever side it is
    told the incident ray is on: the negated angle and the negated
    direction cancel.  From a finite point and for a finite angle [a],
    the ray ends 100 pixels away at
    [(x + 100 sin a, y + 100 cos a)]. *)
Theorem drawReflectedRay_ignores_side
    (point : Point) (incidentAngleDeg : num) :
  drawReflectedRay point incidentAngleDeg true
  = drawReflectedRay point incidentAngleDeg false /\
  forall px py a isLeft,
    In (lineTo (Fin (px + 100 * sin (a * PI / 180)))
               (Fin (py + 100 * cos (a * PI / 180))))
       (drawReflectedRay (mkPoint (Fin px) (Fin py)) (Fin a) isLeft).
Proof.
  split.
  - unfold drawReflectedRay.
    destruct (div (mul incidentAngleDeg Math_PI) (Fin 180)) as [| | | t];
      try reflexivity.
    cbn [neg Math_sin Math_cos]; rewrite !mul_Fin.
    rewrite sin_neg, cos_neg.
    replace (100 * - sin t * -1) with (100 * sin t * 1) by ring.
    reflexivity.
  - intros px py a isLeft; unfold drawReflectedRay; rewrite toRad_Fin.
    destruct isLeft; cbn [neg Math_sin Math_cos x y];
      rewrite ?sin_neg, ?cos_neg, !mul_Fin, !add_Fin.
    + replace (px + 100 * - sin (a * PI / 180) * -1)
        with (px + 100 * sin (a * PI / 180)) by ring.
      cbn [In]; tauto.
    + replace (px + 100 * sin (a * PI / 180) * 1)
        with (px + 100 * sin (a * PI / 180)) by ring.
      cbn [In]; tauto.
Qed.

(** ** The grid *)

Lemma le_Fin (a b : R) : le (Fin a) (Fin b) = Rleb a b.
Proof. reflexivity. Qed.

Lemma forUpTo_more_fuel (fuel : nat) (from to step : num)
    (body : num -> list Command) (cmds : list Command) :
  forUpTo fuel from to step body = Some cmds ->
  forUpTo (S fuel) from to step body = Some cmds.
Proof.
  revert from cmds; induction fuel as [| fuel IH]; intros from cmds.
  - cbn [forUpTo]; destruct (le from to); [discriminate | trivial].
  - intros H; cbn [forUpTo] in H.
    change (forUpTo (S (S fuel)) from to step body)
      with (if le from to then
              match forUpTo (S fuel) (add from step) to step body with
              | Some rest => Some (body from ++ rest)
              | None => None
              end
            else Some []).
    destruct (le from to); [| exact H].
    destruct (forUpTo fuel (add from step) to step body) as [rest |] eqn:E;
      [| discriminate H].
    rewrite (IH _ _ E); exact H.
Qed.

Lemma forUpTo_enough_fuel (n m : nat) (from to step : num)
    (body : num -> list Command) (cmds : list Command) :
  forUpTo n from to step body = Some cmds -> (n <= m)%nat ->
  forUpTo m from to step body = Some cmds.
Proof.
  intros H Hle; induction Hle as [| m Hle IH]; [exact H |].
  apply forUpTo_more_fuel; exact IH.
Qed.

(** The loop from a finite start to a finite end in steps of 50: it
    ends, and each round starts a whole number of steps after the
    start, at or before the end. *)
Lemma forUpTo_finite (body : num -> list Command) (m : nat) :
  forall a b : R, b - a < 50 * INR m ->
  exists cmds,
    forUpTo m (Fin a) (Fin b) (Fin 50) body = Some cmds /\
    forall c, In c cmds ->
      exists k : nat, In c (body (Fin (a + 50 * INR k))) /\
                      a + 50 * INR k <= b.
Proof.
  induction m as [| m IH]; intros a b Hm.
  - cbn [INR] in Hm; cbn [forUpTo]; rewrite le_Fin, Rleb_false by lra.
    exists []; split; [reflexivity | intros c []].
  - cbn [forUpTo]; rewrite le_Fin.
    destruct (Rle_dec a b) as [Hab | Hab].
    + rewrite Rleb_true by exact Hab.
      rewrite add_Fin.
      destruct (IH (a + 50) b) as [rest [Hrest Hin]].
      { rewrite S_INR in Hm; lra. }
      rewrite Hrest; eexists; split; [reflexivity |].
      intros c Hc; apply in_app_or in Hc; destruct Hc as [Hc | Hc].
      * exists 0%nat; cbn [INR].
        replace (a + 50 * 0) with a by ring.
        split; [exact Hc | exact Hab].
      * destruct (Hin c Hc) as [k [Hk Hle]].
        exists (S k); rewrite S_INR.
        replace (a + 50 * (INR k + 1)) with (a + 50 + 50 * INR k) by ring.
        split; assumption.
    + rewrite Rleb_false by lra.
      exists []; split; [reflexivity | intros c []].
Qed.

Lemma enough_rounds (a b : R) : exists m : nat, b - a < 50 * INR m.
Proof.
  destruct (archimed ((b - a) / 50)) as [Hup _].
  exists (Z.to_nat (up ((b - a) / 50))).
  destruct (Z_lt_le_dec (up ((b - a) / 50)) 0) as [Hneg | Hpos].
  - apply IZR_lt in Hneg.
    pose proof (pos_INR (Z.to_nat (up ((b - a) / 50)))); lra.
  - rewrite INR_IZR_INZ, Z2Nat.id by exact Hpos; lra.
Qed.

(** A loop that starts from [NaN] does not run. *)
Lemma forUpTo_NaN (fuel : nat) (to step : num) (body : num -> list Command) :
  forUpTo fuel NaN to step body = Some [].
Proof. destruct fuel; reflexivity. Qed.

(** The remainder by 50 lies strictly between -50 and 50, and differs
    from the dividend by a multiple of 50. *)
Lemma rem_50 (p : R) :
  exists (r : R) (k : Z),
    rem (Fin p) (Fin 50) = Fin r /\ -50 < r < 50 /\ p - r = 50 * IZR k.
Proof.
  unfold rem; rewrite Reqb_false by lra.
  exists (p - 50 * IZR (Ztrunc (p / 50))), (Ztrunc (p / 50)).
  split; [reflexivity |]. split; [| ring].
  unfold Ztrunc, Rltb.
  destruct (Rlt_dec (p / 50) 0) as [H | H].
  - pose proof (Zceil_bound (p / 50)) as Hb; lra.
  - pose proof (Zfloor_bound (p / 50)) as Hb; lra.
Qed.

Lemma rem_nonfinite (a b : num) : isFinite a = false -> rem a b = NaN.
Proof. destruct a, b; cbn; intros H; try reflexivity; discriminate H. Qed.

(** One axis of the grid, for the viewport offset [o] along it and a
    finite extent [e] of the canvas: the loop ends; for a finite offset
    each of its rounds starts above -100 in world coordinates and at a
    multiple of 50 on the screen; for any other offset it does not
    run. *)
Lemma grid_axis (o : num) (e : R) (body : num -> list Command) :
  exists (N : nat) (cmds : list Command),
    (forall fuel, (N <= fuel)%nat ->
       forUpTo fuel (sub (rem (neg o) (Fin 50)) (Fin 50))
         (add (sub (Fin e) o) (Fin 50)) (Fin 50) body = Some cmds) /\
    forall c, In c cmds ->
      exists (t v : R) (k : Z),
        o = Fin t /\ In c (body (Fin v)) /\ -100 < v /\ v + t = 50 * IZR k.
Proof.
  destruct o as [| | | t].
  - exists 0%nat, []; split; [intros fuel _; apply forUpTo_NaN | intros c []].
  - exists 0%nat, []; split; [intros fuel _; apply forUpTo_NaN | intros c []].
  - exists 0%nat, []; split; [intros fuel _; apply forUpTo_NaN | intros c []].
  - cbn [neg]; destruct (rem_50 (- t)) as [r [k0 [-> [Hr Hk0]]]].
    rewrite !sub_Fin, add_Fin.
    destruct (enough_rounds (r - 50) (e - t + 50)) as [m Hm].
    destruct (forUpTo_finite body m _ _ Hm) as [cmds [Hcmds Hin]].
    exists m, cmds; split.
    + intros fuel Hfuel; apply (forUpTo_enough_fuel m); assumption.
    + intros c Hc; destruct (Hin c Hc) as [j [Hj _]].
      exists t, (r - 50 + 50 * INR j), (Z.of_nat j - k0 - 1)%Z.
      split; [reflexivity |]. split; [exact Hj |].
      pose proof (pos_INR j) as Hpos.
      split; [lra |].
      rewrite !minus_IZR, <- INR_IZR_INZ; lra.
Qed.

Lemma drawGrid_runs (s : State) (w h : R) :
  exists (N : nat) (vertical horizontal : list Command),
    (forall fuel, (N <= fuel)%nat ->
       drawGrid fuel s (Fin w) (Fin h)
       = Some ([strokeStyle "#2a2a2a"%string; lineWidth (Fin 0.5)]
               ++ vertical ++ horizontal)) /\
    (forall px py, In (moveTo px py) vertical ->
       exists (ox vx : R) (k : Z),
         x (viewportOffset s) = Fin ox /\ px = Fin vx /\
         -100 < vx /\ vx + ox = 50 * IZR k) /\
    (forall px py, In (moveTo px py) horizontal ->
       exists (oy vy : R) (k : Z),
         y (viewportOffset s) = Fin oy /\ py = Fin vy /\
         -100 < vy /\ vy + oy = 50 * IZR k) /\
    (forall c, In c (vertical ++ horizontal) ->
       c = beginPath \/ c = stroke \/
       (exists px py, c = moveTo px py) \/ (exists px py, c = lineTo px py)).
Proof.
  unfold drawGrid.
  set (startX := sub (rem (neg (x (viewportOffset s))) (Fin 50)) (Fin 50)).
  set (startY := sub (rem (neg (y (viewportOffset s))) (Fin 50)) (Fin 50)).
  set (endX := add (sub (Fin w) (x (viewportOffset s))) (Fin 50)).
  set (endY := add (sub (Fin h) (y (viewportOffset s))) (Fin 50)).
  set (bodyX := fun vx => [beginPath; moveTo vx startY; lineTo vx endY; stroke]).
  set (bodyY := fun vy => [beginPath; moveTo startX vy; lineTo endX vy; stroke]).
  destruct (grid_axis (x (viewportOffset s)) w bodyX) as [Nx [vertical [Hx HinX]]].
  destruct (grid_axis (y (viewportOffset s)) h bodyY)
    as [Ny [horizontal [Hy HinY]]].
  fold startX endX in Hx; fold startY endY in Hy.
  exists (Nat.max Nx Ny), vertical, horizontal.
  split; [| split; [| split]].
  - intros fuel Hfuel.
    rewrite Hx, Hy by lia; reflexivity.
  - intros px py Hc.
    destruct (HinX _ Hc) as [t [v [k [Ht [Hv [Hlow Hk]]]]]].
    exists t, v, k; split; [exact Ht |].
    unfold bodyX in Hv; cbn [In] in Hv.
    destruct Hv as [Hv | [Hv | [Hv | [Hv | []]]]]; try discriminate Hv.
    injection Hv as Hpx _; split; [symmetry; exact Hpx | split; assumption].
  - intros px py Hc.
    destruct (HinY _ Hc) as [t [v [k [Ht [Hv [Hlow Hk]]]]]].
    exists t, v, k; split; [exact Ht |].
    unfold bodyY in Hv; cbn [In] in Hv.
    destruct Hv as [Hv | [Hv | [Hv | [Hv | []]]]]; try discriminate Hv.
    injection Hv as _ Hpy; split; [symmetry; exact Hpy | split; assumption].
  - intros c Hc; apply in_app_or in Hc.
    assert (Hbody : forall body : num -> list Command,
              (forall v, exists p1 p2 q1 q2,
                  body v = [beginPath; moveTo p1 p2; lineTo q1 q2; stroke]) ->
              forall v, In c (body v) ->
              c = beginPath \/ c = stroke \/
              (exists px py, c = moveTo px py) \/
              (exists px py, c = lineTo px py)).
    { intros body Hb v Hv; destruct (Hb v) as [p1 [p2 [q1 [q2 Heq]]]].
      rewrite Heq in Hv; cbn [In] in Hv.
      destruct Hv as [<- | [<- | [<- | [<- | []]]]]; eauto 6. }
    destruct Hc as [Hc | Hc].
    + destruct (HinX _ Hc) as [_ [v [_ [_ [Hv _]]]]].
      refine (Hbody bodyX _ (Fin v) Hv).
      intros v'; unfold bodyX; eauto 6.
    + destruct (HinY _ Hc) as [_ [v [_ [_ [Hv _]]]]].
      refine (Hbody bodyY _ (Fin v) Hv).
      intros v'; unfold bodyY; eauto 6.
Qed.

(** X21.  The grid, on a canvas of finite size and whatever the viewport
    offset: both loops of [drawGrid] end.  Every vertical line is drawn
    at a world abscissa above -100 whose position on the screen is a
    multiple of 50, and every horizontal line likewise: the grid keeps
    its place on the screen while the scene is panned, and it never
    reaches the part of the world left of -100 or above -100. *)
Theorem drawGrid_lines (s : State) (w h : R) :
  exists (N : nat) (vertical horizontal : list Command),
    (forall fuel, (N <= fuel)%nat ->
       drawGrid fuel s (Fin w) (Fin h)
       = Some ([strokeStyle "#2a2a2a"%string; lineWidth (Fin 0.5)]
               ++ vertical ++ horizontal)) /\
    (forall px py, In (moveTo px py) vertical ->
       exists (ox vx : R) (k : Z),
         x (viewportOffset s) = Fin ox /\ px = Fin vx /\
         -100 < vx /\ vx + ox = 50 * IZR k) /\
    (forall px py, In (moveTo px py) horizontal ->
       exists (oy vy : R) (k : Z),
         y (viewportOffset s) = Fin oy /\ py = Fin vy /\
         -100 < vy /\ vy + oy = 50 * IZR k).
Proof.
  destruct (drawGrid_runs s w h) as [N [vertical [horizontal [H1 [H2 [H3 _]]]]]].
  exists N, vertical, horizontal; repeat split; assumption.
Qed.

(** ** The real position on the canvas *)

Lemma calculateRayPoint_NaN (p : Point) (len : num) (isLeft : bool) :
  calculateRayPoint p NaN len isLeft = mkPoint NaN NaN.
Proof.
  unfold calculateRayPoint; cbn [mul div Math_sin Math_cos].
  rewrite !mul_NaN_r, mul_NaN_l, add_NaN_r, sub_NaN_r; reflexivity.
Qed.

Lemma slope_NaN (p : Point) : slope p (mkPoint NaN NaN) = NaN.
Proof. reflexivity. Qed.

Lemma intersect_NaN_l (p1 p2 : Point) (m2 : num) :
  x (intersect p1 NaN p2 m2) = NaN.
Proof. reflexivity. Qed.

Lemma intersect_NaN_r (p1 p2 : Point) (m1 : num) :
  x (intersect p1 m1 p2 NaN) = NaN.
Proof.
  unfold intersect; cbn [x].
  rewrite mul_NaN_l, sub_NaN_l, !sub_NaN_r; reflexivity.
Qed.

Lemma isNaN_false (a : num) : isNaN a = false <-> a <> NaN.
Proof. destruct a; cbn; split; congruence. Qed.

(** A real position whose abscissa is a number comes from two refracted
    angles that are numbers, on two sides below the critical angle. *)
Lemma realPosition_number (s : State) (p : Point) :
  realPosition s = Some p -> isNaN (x p) = false ->
  leftExceedsCritical s = false /\ rightExceedsCritical s = false /\
  isNaN (leftRefractedAngle s) = false /\
  isNaN (rightRefractedAngle s) = false.
Proof.
  rewrite realPosition_unfold; intros Hreal Hx.
  destruct (leftExceedsCritical s || rightExceedsCritical s) eqn:Hex;
    [discriminate Hreal |].
  apply orb_false_iff in Hex; destruct Hex as [HexL HexR].
  split; [exact HexL |]. split; [exact HexR |].
  injection Hreal as <-.
  apply isNaN_false in Hx.
  split; apply isNaN_false; intros Hnan; apply Hx.
  - unfold realLeftSlope; rewrite Hnan, calculateRayPoint_NaN, slope_NaN.
    apply intersect_NaN_l.
  - unfold realRightSlope; rewrite Hnan, calculateRayPoint_NaN, slope_NaN.
    apply intersect_NaN_r.
Qed.

(** The conditions under which [drawScene] draws the real position. *)
Lemma drawRealPosition_drawn (s : State) (p : Point) :
  realPosition s = Some p ->
  isNaN (x p) = false -> isNaN (y p) = false ->
  lt (y p) waterLevelY = true ->
  In (fillText (Literal "I (Real)"%string) (add (x p) (Fin 15)) (y p))
     (drawRealPosition s) /\
  In (fillText (Degrees (leftRefractedAngle s))
        (sub (x (leftPoint s)) (Fin 40)) (sub (y (leftPoint s)) (Fin 15)))
     (drawRealPosition s) /\
  In (fillText (Degrees (rightRefractedAngle s))
        (add (x (rightPoint s)) (Fin 30)) (sub (y (rightPoint s)) (Fin 15)))
     (drawRealPosition s).
Proof.
  intros Hreal Hx Hy Hlt.
  destruct (realPosition_number s p Hreal Hx) as [HexL [HexR [HnL HnR]]].
  unfold drawRealPosition.
  rewrite Hreal, Hx, Hy, Hlt, HexL, HexR, HnL, HnR; cbn [negb andb].
  repeat split; apply in_or_app; [left | right | right]; cbn [In]; tauto.
Qed.

Lemma drawRealPosition_marker (s : State) (px py : num) :
  In (fillText (Literal "I (Real)"%string) px py) (drawRealPosition s) ->
  exists p, realPosition s = Some p /\
            isNaN (x p) = false /\ isNaN (y p) = false /\
            lt (y p) waterLevelY = true.
Proof.
  unfold drawRealPosition.
  destruct (realPosition s) as [p |]; [| intros []].
  destruct (isNaN (x p)) eqn:Hx; [intros [] |].
  destruct (isNaN (y p)) eqn:Hy; [intros [] |].
  destruct (lt (y p) waterLevelY) eqn:Hlt; [| intros []].
  intros _; exists p; repeat split; assumption.
Qed.

Lemma drawAngle_no_literal (center : Point) (a : num) (color : string)
    (isLeft : bool) (t : string) (px py : num) :
  ~ In (fillText (Literal t) px py) (drawAngle center a color isLeft).
Proof.
  unfold drawAngle; cbn [In]; intros H.
  repeat (destruct H as [H | H]; [discriminate H |]); exact H.
Qed.

Lemma drawReflectedRay_no_text (point : Point) (a : num) (isLeft : bool)
    (t : Text) (px py : num) :
  ~ In (fillText t px py) (drawReflectedRay point a isLeft).
Proof.
  unfold drawReflectedRay; cbn [In]; intros H.
  repeat (destruct H as [H | H]; [discriminate H |]); exact H.
Qed.

Lemma app_before (A : Type) (a rest b t : list A) :
  rest = b ++ t -> a ++ rest = (a ++ b) ++ t.
Proof. intros ->; apply app_assoc. Qed.

(** [drawScene] ends with the real position and [restore]; before that,
    the only literal text it writes is the label of the apparent
    position. *)
Lemma drawScene_sequence (canvas : Canvas) (s : State) (grid : list Command) :
  (forall t px py, ~ In (fillText t px py) grid) ->
  exists before,
    (forall fuel,
       drawGrid fuel s (width canvas) (height canvas) = Some grid ->
       drawScene fuel (Some canvas) s
       = Some (before ++ drawRealPosition s ++ [restore])) /\
    forall t px py,
      In (fillText (Literal t) px py) before -> t = "I' (Apparent)"%string.
Proof.
  intros Hgrid.
  eexists; split.
  - intros fuel Hfuel; unfold drawScene; rewrite Hfuel.
    f_equal; do 9 apply app_before.
    symmetry; apply app_nil_l.
  - intros t px py H.
    repeat (apply in_app_or in H; destruct H as [H | H]).
    + cbn [In] in H.
      repeat (destruct H as [H | H]; [discriminate H |]); destruct H.
    + exfalso; exact (Hgrid _ _ _ H).
    + cbn [In] in H.
      repeat (destruct H as [H | H];
              [first [discriminate H
                     | injection H as Ht _ _; symmetry; exact Ht] |]).
      destruct H.
    + exfalso; exact (drawAngle_no_literal _ _ _ _ _ _ _ H).
    + exfalso; exact (drawAngle_no_literal _ _ _ _ _ _ _ H).
    + destruct (leftExceedsCritical s); [| destruct H].
      exfalso; exact (drawAngle_no_literal _ _ _ _ _ _ _ H).
    + destruct (rightExceedsCritical s); [| destruct H].
      exfalso; exact (drawAngle_no_literal _ _ _ _ _ _ _ H).
    + destruct (leftExceedsCritical s); [| destruct H].
      exfalso; exact (drawReflectedRay_no_text _ _ _ _ _ _ H).
    + destruct (rightExceedsCritical s); [| destruct H].
      exfalso; exact (drawReflectedRay_no_text _ _ _ _ _ _ H).
    + destruct H.
Qed.

Lemma drawScene_real_position_runs (s : State) (w h : R) :
  exists (N : nat) (cmds : list Command),
    forall fuel, (N <= fuel)%nat ->
      drawScene fuel (Some (mkCanvas (Fin w) (Fin h))) s = Some cmds.
Proof.
  destruct (drawGrid_runs s w h) as [N [vertical [horizontal [Hrun _]]]].
  exists N; eexists; intros fuel Hfuel.
  unfold drawScene; cbn [width height]; rewrite (Hrun fuel Hfuel).
  reflexivity.
Qed.

(** X22.  What [drawScene] shows of the real position, on a canvas of
    finite size.  The function ends, and the label "I (Real)", with the
    point and the two refracted rays, is among what it has drawn exactly
    when the real position exists, has no [NaN] coordinate and is
    strictly above the interface; whenever that label is drawn, so are
    the two refracted angles beside the refraction points (the two
    [isNaN] tests that guard them never fail there). *)
Theorem drawScene_real_position (s : State) (w h : R) :
  exists (N : nat) (cmds : list Command),
    (forall fuel, (N <= fuel)%nat ->
       drawScene fuel (Some (mkCanvas (Fin w) (Fin h))) s = Some cmds) /\
    ((exists px py, In (fillText (Literal "I (Real)"%string) px py) cmds) <->
     (exists p, realPosition s = Some p /\
                isNaN (x p) = false /\ isNaN (y p) = false /\
                lt (y p) waterLevelY = true)) /\
    ((exists px py, In (fillText (Literal "I (Real)"%string) px py) cmds) ->
     In (fillText (Degrees (leftRefractedAngle s))
           (sub (x (leftPoint s)) (Fin 40)) (sub (y (leftPoint s)) (Fin 15)))
        cmds /\
     In (fillText (Degrees (rightRefractedAngle s))
           (add (x (rightPoint s)) (Fin 30)) (sub (y (rightPoint s)) (Fin 15)))
        cmds).
Proof.
  destruct (drawGrid_runs s w h)
    as [N [vertical [horizontal [Hrun [_ [_ Hshape]]]]]].
  set (grid := [strokeStyle "#2a2a2a"%string; lineWidth (Fin 0.5)]
               ++ vertical ++ horizontal) in *.
  assert (Hgrid : forall t px py, ~ In (fillText t px py) grid).
  { intros t px py H; unfold grid in H.
    apply in_app_or in H; destruct H as [H | H].
    - cbn [In] in H; destruct H as [H | [H | []]]; discriminate H.
    - destruct (Hshape _ H) as [E | [E | [[qx [qy E]] | [qx [qy E]]]]];
        discriminate E. }
  destruct (drawScene_sequence (mkCanvas (Fin w) (Fin h)) s grid Hgrid)
    as [before [Hscene Hbefore]].
  assert (Hmarker :
            forall px py,
              In (fillText (Literal "I (Real)"%string) px py)
                 (before ++ drawRealPosition s ++ [restore]) ->
              exists p, realPosition s = Some p /\
                        isNaN (x p) = false /\ isNaN (y p) = false /\
                        lt (y p) waterLevelY = true).
  { intros px py H.
    apply in_app_or in H; destruct H as [H | H].
    - apply Hbefore in H; discriminate H.
    - apply in_app_or in H; destruct H as [H | H].
      + apply (drawRealPosition_marker s px py); exact H.
      + cbn [In] in H; destruct H as [H | []]; discriminate H. }
  exists N, (before ++ drawRealPosition s ++ [restore]).
  split; [| split].
  - intros fuel Hfuel; apply Hscene; cbn [width height].
    apply Hrun; exact Hfuel.
  - split.
    + intros [px [py H]]; apply (Hmarker px py); exact H.
    + intros [p [Hreal [Hx [Hy Hlt]]]].
      destruct (drawRealPosition_drawn s p Hreal Hx Hy Hlt) as [H _].
      eexists; eexists.
      apply in_or_app; right; apply in_or_app; left; exact H.
  - intros [px [py H]].
    destruct (Hmarker px py H) as [p [Hreal [Hx [Hy Hlt]]]].
    destruct (drawRealPosition_drawn s p Hreal Hx Hy Hlt) as [_ [HL HR]].
    split; apply in_or_app; right; apply in_or_app; left; assumption.
Qed.

(** ** The arc and the label of an angle *)

(** X23.  Where [drawAngle] writes the value of an angle [a] (finite,
    at a finite centre): 39 pixels from the centre, in the direction
    that is half of [a] away from the vertical, on the side of the ray. *)
Theorem drawAngle_label (cx cy a : R) (color : string) (isLeft : bool) :
  In (fillText (Degrees (Fin a))
        (Fin (cx + direction isLeft * 39 * sin (a * PI / 180 / 2)))
        (Fin (cy - 39 * cos (a * PI / 180 / 2))))
     (drawAngle (mkPoint (Fin cx) (Fin cy)) (Fin a) color isLeft).
Proof.
  pose proof PI_RGT_0 as Hpi.
  unfold drawAngle; rewrite toRad_Fin; unfold Math_PI; cbn [neg x y].
  rewrite (div_Fin (- PI) 2) by lra.
  set (r := a * PI / 180).
  assert (Hc : forall u, cos (- PI / 2 + u) = sin u).
  { intros u; replace (- PI / 2 + u) with (- (PI / 2 - u)) by field.
    rewrite cos_neg; apply cos_shift. }
  assert (Hs : forall u, sin (- PI / 2 + u) = - cos u).
  { intros u; replace (- PI / 2 + u) with (- (PI / 2 - u)) by field.
    rewrite sin_neg, sin_shift; reflexivity. }
  destruct isLeft; unfold direction.
  - rewrite sub_Fin, add_Fin, div_Fin by lra.
    cbn [Math_cos Math_sin]; rewrite !mul_Fin, !add_Fin.
    replace ((- PI / 2 + (- PI / 2 - r)) / 2) with (- PI / 2 + - (r / 2))
      by field.
    rewrite Hc, Hs, sin_neg, cos_neg.
    replace (cx + 30 * 1.3 * - sin (r / 2)) with (cx + -1 * 39 * sin (r / 2))
      by lra.
    replace (cy + 30 * 1.3 * - cos (r / 2)) with (cy - 39 * cos (r / 2))
      by lra.
    cbn [In]; tauto.
  - rewrite !add_Fin, div_Fin by lra.
    cbn [Math_cos Math_sin]; rewrite !mul_Fin, !add_Fin.
    replace ((- PI / 2 + (- PI / 2 + r)) / 2) with (- PI / 2 + r / 2)
      by field.
    rewrite Hc, Hs.
    replace (cx + 30 * 1.3 * sin (r / 2)) with (cx + 1 * 39 * sin (r / 2))
      by lra.
    replace (cy + 30 * 1.3 * - cos (r / 2)) with (cy - 39 * cos (r / 2))
      by lra.
    cbn [In]; tauto.
Qed.

(** ** An index below 1 on the canvas *)

Lemma Math_min_NaN_r (a : num) : Math_min a NaN = NaN.
Proof. destruct a; reflexivity. Qed.

Lemma drawAngle_NaN (center : Point) (color : string) (isLeft : bool) :
  In (arc (x center) (y center) (Fin 30) (div (neg Math_PI) (Fin 2)) NaN isLeft)
     (drawAngle center NaN color isLeft) /\
  In (fillText (Degrees NaN) NaN NaN) (drawAngle center NaN color isLeft).
Proof.
  unfold drawAngle; rewrite mul_NaN_l, div_NaN_l.
  assert (He : (if isLeft then sub (div (neg Math_PI) (Fin 2)) NaN
                else add (div (neg Math_PI) (Fin 2)) NaN) = NaN)
    by (destruct isLeft; [apply sub_NaN_r | apply add_NaN_r]).
  rewrite He, add_NaN_r, div_NaN_l.
  cbn [Math_cos Math_sin]; rewrite !mul_NaN_r, !add_NaN_r.
  split; cbn [In]; tauto.
Qed.

(** The two arcs of the incident angles are part of every scene. *)
Lemma drawScene_incident_arcs (fuel : nat) (canvas : Canvas) (s : State)
    (cmds : list Command) (c : Command) :
  drawScene fuel (Some canvas) s = Some cmds ->
  In c (drawAngle (leftPoint s) (Math_min (leftAngleDeg s) (criticalAngle s))
          "#ffffff"%string (lt (x (apparentPosition s)) (x (leftPoint s)))) \/
  In c (drawAngle (rightPoint s)
          (Math_min (rightAngleDeg s) (criticalAngle s))
          "#ffffff"%string (lt (x (apparentPosition s)) (x (rightPoint s)))) ->
  In c cmds.
Proof.
  unfold drawScene.
  destruct (drawGrid fuel s (width canvas) (height canvas)) as [grid |];
    [| discriminate].
  intros H Hc.
  match type of H with
  | Some ?l = Some _ => assert (E : cmds = l) by (symmetry; congruence)
  end.
  rewrite E; clear H E.
  do 3 (apply in_or_app; right).
  destruct Hc as [Hc | Hc].
  - apply in_or_app; left; exact Hc.
  - apply in_or_app; right; apply in_or_app; left; exact Hc.
Qed.

(** X24.  A refractive index strictly between -1 and 1 (the field
    accepts it): the critical angle is [NaN], and so is the angle with
    which [drawScene] draws the arc and writes the label of each
    incident angle, whatever the two angles are. *)
Theorem drawScene_index_below_one (s : State) (n w h : R) :
  refractiveIndex s = Fin n -> -1 < n < 1 ->
  exists (N : nat) (cmds : list Command),
    (forall fuel, (N <= fuel)%nat ->
       drawScene fuel (Some (mkCanvas (Fin w) (Fin h))) s = Some cmds) /\
    In (fillText (Degrees NaN) NaN NaN) cmds /\
    In (arc (x (leftPoint s)) (y (leftPoint s)) (Fin 30)
          (div (neg Math_PI) (Fin 2)) NaN
          (lt (x (apparentPosition s)) (x (leftPoint s)))) cmds /\
    In (arc (x (rightPoint s)) (y (rightPoint s)) (Fin 30)
          (div (neg Math_PI) (Fin 2)) NaN
          (lt (x (apparentPosition s)) (x (rightPoint s)))) cmds.
Proof.
  intros Hs Hn.
  destruct (drawScene_real_position_runs s w h) as [N [cmds Hrun]].
  exists N, cmds; split; [exact Hrun |].
  pose proof (Hrun N (le_n N)) as Hscene.
  pose proof (criticalAngle_NaN s n Hs Hn) as Hcrit.
  pose proof (fun c => drawScene_incident_arcs N (mkCanvas (Fin w) (Fin h))
                          s cmds c Hscene) as Hin.
  rewrite Hcrit, !Math_min_NaN_r in Hin.
  split; [| split].
  - apply Hin; left; apply drawAngle_NaN.
  - apply Hin; left; apply drawAngle_NaN.
  - apply Hin; right; apply drawAngle_NaN.
Qed.

Lemma drawScene_index_below_one_witness :
  exists (N : nat) (cmds : list Command),
    (forall fuel, (N <= fuel)%nat ->
       drawScene fuel (Some mountedCanvas)
         (set_refractiveIndex (Fin 0.5) initialState) = Some cmds) /\
    In (fillText (Degrees NaN) NaN NaN) cmds.
Proof.
  destruct (drawScene_index_below_one
              (set_refractiveIndex (Fin 0.5) initialState) 0.5 800 600
              eq_refl ltac:(lra)) as [N [cmds [H1 [H2 _]]]].
  exists N, cmds; split; assumption.
Defined.

(** ** The real position stays between the refraction points *)

Lemma nonfinite_mul_l (a b : num) :
  isFinite a = false -> isFinite (mul a b) = false.
Proof.
  destruct a, b; intros H; try reflexivity; try discriminate;
    apply nonfinite_inf_times.
Qed.

Lemma nonfinite_sub_r (a b : num) :
  isFinite b = false -> isFinite (sub a b) = false.
Proof. destruct a, b; intros H; try reflexivity; discriminate. Qed.

Lemma nonfinite_div_l (a b : num) :
  isFinite a = false -> isFinite (div a b) = false.
Proof.
  destruct a, b; intros H; try reflexivity; try discriminate;
    cbn; destruct (Rltb _ _); reflexivity.
Qed.

(** A line without a finite slope meets no line in a point with a finite
    abscissa. *)
Lemma intersect_nonfinite_slope (p1 p2 : Point) (m1 m2 : num) :
  isFinite m1 = false \/ isFinite m2 = false ->
  isFinite (x (intersect p1 m1 p2 m2)) = false.
Proof.
  intros H; unfold intersect; cbn [x].
  apply nonfinite_div_l.
  destruct H as [H | H].
  - apply nonfinite_sub_l, nonfinite_sub_l, nonfinite_mul_l; exact H.
  - apply nonfinite_sub_r, nonfinite_sub_l, nonfinite_mul_l; exact H.
Qed.

(** The ray of an angle of 0 degrees is vertical. *)
Lemma vertical_ray_slope (n lx : R) (isLeft : bool) :
  1 <= n ->
  slope (mkPoint (Fin lx) waterLevelY)
    (calculateRayPoint (mkPoint (Fin lx) waterLevelY)
       (refractedAngleOf (Fin n) (Fin 0)) (Fin 1000) isLeft)
  = NegInfinity.
Proof.
  intros Hn; rewrite refractedAngleOf_zero by exact Hn.
  unfold waterLevelY; apply ray_slope_vertical;
    replace (0 * PI / 180) with 0 by field.
  - apply sin_0.
  - rewrite cos_0; lra.
Qed.

(** A real position with finite coordinates comes from two angles
    strictly between 0 and the critical angle. *)
Lemma realPosition_finite_angles (s : State) (n aL aR lx rx px py : R) :
  refractiveIndex s = Fin n -> 1 <= n ->
  leftAngleDeg s = Fin aL -> rightAngleDeg s = Fin aR ->
  0 <= aL -> 0 <= aR ->
  leftPoint s = mkPoint (Fin lx) waterLevelY ->
  rightPoint s = mkPoint (Fin rx) waterLevelY ->
  realPosition s = Some (mkPoint (Fin px) (Fin py)) ->
  0 < aL < criticalDeg n /\ 0 < aR < criticalDeg n.
Proof.
  intros Hs Hn HaL HaR HL0 HR0 HpL HpR Hreal.
  destruct (Rle_dec (criticalDeg n) aL) as [HcL | HcL].
  { exfalso; unfold realPosition in Hreal.
    rewrite leftExceedsCritical_eq, Hs, HaL, exceedsCriticalOf_Fin in Hreal
      by exact Hn.
    rewrite Rleb_true in Hreal by exact HcL; discriminate Hreal. }
  destruct (Rle_dec (criticalDeg n) aR) as [HcR | HcR].
  { exfalso; unfold realPosition in Hreal.
    rewrite rightExceedsCritical_eq, Hs, HaR, (exceedsCriticalOf_Fin n aR)
      in Hreal by exact Hn.
    rewrite Rleb_true, orb_true_r in Hreal by exact HcR; discriminate Hreal. }
  assert (Hnonfinite :
            isFinite (realLeftSlope s) = false \/
            isFinite (realRightSlope s) = false -> False).
  { intros H.
    rewrite realPosition_unfold in Hreal.
    destruct (leftExceedsCritical s || rightExceedsCritical s);
      [discriminate Hreal |].
    match type of Hreal with
    | Some ?p = _ =>
      assert (Hp : p = mkPoint (Fin px) (Fin py)) by congruence
    end.
    pose proof (intersect_nonfinite_slope (leftPoint s) (rightPoint s) _ _ H)
      as Hx.
    rewrite Hp in Hx; discriminate Hx. }
  destruct (Req_dec_T aL 0) as [HzL | HzL].
  { exfalso; apply Hnonfinite; left.
    unfold realLeftSlope.
    rewrite leftRefractedAngle_eq, Hs, HaL, HpL, HzL.
    rewrite vertical_ray_slope by exact Hn; reflexivity. }
  destruct (Req_dec_T aR 0) as [HzR | HzR].
  { exfalso; apply Hnonfinite; right.
    unfold realRightSlope.
    rewrite rightRefractedAngle_eq, Hs, HaR, HpR, HzR.
    rewrite vertical_ray_slope by exact Hn; reflexivity. }
  lra.
Qed.

Lemma realPosition_in_span (s : State) (n aL aR lx rx ax px py : R) :
  refractiveIndex s = Fin n -> 1 <= n ->
  leftAngleDeg s = Fin aL -> rightAngleDeg s = Fin aR ->
  0 <= aL -> 0 <= aR ->
  leftPoint s = mkPoint (Fin lx) waterLevelY ->
  rightPoint s = mkPoint (Fin rx) waterLevelY ->
  lx < rx ->
  x (apparentPosition s) = Fin ax -> lx <= ax < rx ->
  realPosition s = Some (mkPoint (Fin px) (Fin py)) ->
  lx < px < rx /\ py < 450.
Proof.
  intros Hs Hn HaL HaR HL0 HR0 HpL HpR Hlr Hax Hbetween Hreal.
  destruct (realPosition_finite_angles s n aL aR lx rx px py)
    as [HvL HvR]; try assumption.
  set (t := set_lockRealPosition true s).
  destruct (updateApparentFromReal_between t n aL aR lx rx ax)
    as [_ [_ [_ [qx [qy [Hreal' Hq]]]]]];
    try assumption; try reflexivity; try lra.
  change (realPosition t) with (realPosition s) in Hreal'.
  rewrite Hreal in Hreal'; injection Hreal' as -> ->.
  exact Hq.
Qed.

(** X25.  Wherever the two angles come from (index 1 or more, angles not
    negative, distinct refraction points on the interface): when the
    apparent position is horizontally from the left refraction point up
    to the right one, a real position with finite coordinates lies
    strictly between the two points and strictly above the interface. *)
Theorem real_position_within_span (s : State) (n aL aR lx rx ax px py : R) :
  refractiveIndex s = Fin n -> 1 <= n ->
  leftAngleDeg s = Fin aL -> rightAngleDeg s = Fin aR ->
  0 <= aL -> 0 <= aR ->
  leftPoint s = mkPoint (Fin lx) waterLevelY ->
  rightPoint s = mkPoint (Fin rx) waterLevelY ->
  lx < rx ->
  x (apparentPosition s) = Fin ax -> lx <= ax < rx ->
  realPosition s = Some (mkPoint (Fin px) (Fin py)) ->
  lx < px < rx /\ py < 450.
Proof. apply realPosition_in_span. Qed.

Lemma real_position_within_span_witness :
  exists px py,
    realPosition initialState = Some (mkPoint (Fin px) (Fin py)) /\
    250 < px < 550 /\ py < 450.
Proof.
  pose proof criticalDeg_water as Hcw.
  destruct (updateApparentFromReal_between initialState 1.33 30 30 250 550 400)
    as [_ [_ [_ [px [py [Hreal _]]]]]]; try reflexivity; try lra.
  exists px, py; split; [exact Hreal |].
  apply (real_position_within_span initialState 1.33 30 30 250 550 400 px py);
    try reflexivity; try lra.
  exact Hreal.
Defined.

(** The angles [updateAnglesFromRealPosition] writes are finite and not
    negative. *)
Lemma updateAnglesFromRealPosition_angles
    (s : State) (n lx ly rx ry px py : R) :
  refractiveIndex s = Fin n -> 1 <= n ->
  leftPoint s = mkPoint (Fin lx) (Fin ly) ->
  rightPoint s = mkPoint (Fin rx) (Fin ry) ->
  let s' := updateAnglesFromRealPosition (mkPoint (Fin px) (Fin py)) s in
  exists aL aR,
    leftAngleDeg s' = Fin aL /\ rightAngleDeg s' = Fin aR /\
    0 <= aL /\ 0 <= aR.
Proof.
  intros Hs Hn HpL HpR s'.
  pose proof (criticalDeg_range n Hn) as Hc.
  unfold s', updateAnglesFromRealPosition.
  cbn [leftAngleDeg rightAngleDeg set_leftAngleDeg set_rightAngleDeg].
  rewrite HpL, HpR; cbn [x y].
  rewrite !sub_Fin; cbn [neg Math_atan2 Math_abs].
  destruct (airToWaterRad_bound s n _ Hs Hn
              (Rabs_Ratan2 (px - lx) (- (py - ly)))) as [wL [-> [HwL _]]].
  destruct (airToWaterRad_bound s n _ Hs Hn
              (Rabs_Ratan2 (px - rx) (- (py - ry)))) as [wR [-> [HwR _]]].
  rewrite !toDeg_Fin.
  destruct (toFixed1_between (wL * 180 / PI) 0 900)
    as [kL [-> [HkL _]]]; [lra | lra |].
  destruct (toFixed1_between (wR * 180 / PI) 0 900)
    as [kR [-> [HkR _]]]; [lra | lra |].
  destruct HkL as [HkL _]; destruct HkR as [HkR _].
  apply IZR_le in HkL, HkR.
  exists (IZR kL / 10), (IZR kR / 10).
  repeat split; try reflexivity; lra.
Qed.

(** X26.  The real position cannot be dragged out from between the
    refraction points.  With the coupling mode on, an index of 1 or
    more and the apparent position horizontally from the left
    refraction point up to the right one: wherever above the interface
    the pointer takes the real position, the real position that results
    is absent, or has a coordinate that is no finite number, or lies
    strictly between the two refraction points and above the interface;
    so a pointer outside that span does not hold it. *)
Theorem real_drag_stays_within_span
    (s : State) (n lx rx ax ox oy sx sy : R) :
  dragging s = Some DragRealPosition ->
  lockRealPosition s = true ->
  refractiveIndex s = Fin n -> 1 <= n ->
  leftPoint s = mkPoint (Fin lx) waterLevelY ->
  rightPoint s = mkPoint (Fin rx) waterLevelY ->
  lx < rx ->
  x (apparentPosition s) = Fin ax -> lx <= ax < rx ->
  viewportOffset s = mkPoint (Fin ox) (Fin oy) ->
  sy - oy < 450 ->
  let s' := handleMouseMove (Fin sx) (Fin sy) s in
  realPosition s' = None \/
  (exists p, realPosition s' = Some p /\
             (isFinite (x p) = false \/ isFinite (y p) = false)) \/
  (exists px py, realPosition s' = Some (mkPoint (Fin px) (Fin py)) /\
                 lx < px < rx /\ py < 450).
Proof.
  intros Hdrag Hlock Hs Hn HpL HpR Hlr Hax Hbetween Hoff Hy s'.
  destruct (realPosition s') as [[qx qy] |] eqn:Hreal; [| left; reflexivity].
  right.
  destruct qx as [| | | px];
    try (left; eexists; split; [reflexivity | left; reflexivity]).
  destruct qy as [| | | py];
    try (left; eexists; split; [reflexivity | right; reflexivity]).
  right; exists px, py; split; [reflexivity |].
  set (s1 := set_updatingFromDrag true s).
  set (s2 := updateAnglesFromRealPosition
               (mkPoint (Fin (sx - ox)) (Fin (sy - oy))) s1).
  assert (Hs' : s' = set_updatingFromDrag false (updateApparentFromReal s2)).
  { unfold s', handleMouseMove; rewrite Hdrag.
    unfold screenToWorld; rewrite Hoff; cbn [x y].
    rewrite !sub_Fin; unfold waterLevelY; rewrite lt_Fin.
    rewrite Rltb_true by exact Hy; rewrite Hlock; reflexivity. }
  destruct (updateAnglesFromRealPosition_angles s1 n lx 450 rx 450
              (sx - ox) (sy - oy) Hs Hn HpL HpR)
    as [aL [aR [HaL [HaR [HL0 HR0]]]]].
  fold s2 in HaL, HaR.
  set (s3 := updateApparentFromReal s2) in *.
  assert (HaL3 : leftAngleDeg s3 = Fin aL)
    by (unfold s3; rewrite updateApparentFromReal_leftAngleDeg; exact HaL).
  assert (HaR3 : rightAngleDeg s3 = Fin aR)
    by (unfold s3; rewrite updateApparentFromReal_rightAngleDeg; exact HaR).
  assert (HpL3 : leftPoint s3 = mkPoint (Fin lx) waterLevelY)
    by (unfold s3; rewrite updateApparentFromReal_leftPoint; exact HpL).
  assert (HpR3 : rightPoint s3 = mkPoint (Fin rx) waterLevelY)
    by (unfold s3; rewrite updateApparentFromReal_rightPoint; exact HpR).
  assert (Hs3 : refractiveIndex s3 = Fin n)
    by (unfold s3; rewrite updateApparentFromReal_refractiveIndex; exact Hs).
  rewrite Hs' in Hreal.
  change (realPosition (set_updatingFromDrag false s3))
    with (realPosition s3) in Hreal.
  destruct (realPosition_finite_angles s3 n aL aR lx rx px py)
    as [HvL HvR]; try assumption.
  destruct (updateApparentFromReal_between s2 n aL aR lx rx ax)
    as [Hupd [Hq _]]; try assumption; try lra.
  apply (realPosition_in_span s3 n aL aR lx rx
           ((cotDeg aL * lx + cotDeg aR * rx) / (cotDeg aL + cotDeg aR)));
    try assumption; try lra.
  unfold s3; rewrite Hupd; reflexivity.
Qed.

Lemma real_drag_stays_within_span_witness :
  let s' :=
    handleMouseMove (Fin 100) (Fin 300)
      (set_dragging (Some DragRealPosition) initialState) in
  realPosition s' = None \/
  (exists p, realPosition s' = Some p /\
             (isFinite (x p) = false \/ isFinite (y p) = false)) \/
  (exists px py, realPosition s' = Some (mkPoint (Fin px) (Fin py)) /\
                 250 < px < 550 /\ py < 450).
Proof.
  apply (real_drag_stays_within_span
           (set_dragging (Some DragRealPosition) initialState)
           1.33 250 550 400 0 0 100 300);
    try reflexivity; lra.
Defined.

(** ** The apparent position does not depend on the index *)

(** X27.  In a valid configuration (coupling mode on, index 1 or more,
    both angles above 0 and below the critical angle, the apparent
    position horizontally from the left refraction point up to the
    right one), the apparent position that [updateApparentFromReal]
    derives is where the rays of the two incident angles cross: it
    depends on the angles and the refraction points only.  So the update
    is idempotent, and after it a change of the refractive index that
    keeps both angles below the critical angle leaves the apparent
    position where it is. *)
Theorem apparent_position_independent_of_index
    (s : State) (n n' aL aR lx rx ax : R) :
  lockRealPosition s = true ->
  refractiveIndex s = Fin n -> 1 <= n ->
  leftAngleDeg s = Fin aL -> rightAngleDeg s = Fin aR ->
  0 < aL -> aL < criticalDeg n -> 0 < aR -> aR < criticalDeg n ->
  leftPoint s = mkPoint (Fin lx) waterLevelY ->
  rightPoint s = mkPoint (Fin rx) waterLevelY ->
  lx < rx ->
  x (apparentPosition s) = Fin ax -> lx <= ax < rx ->
  1 <= n' -> aL < criticalDeg n' -> aR < criticalDeg n' ->
  let s' := updateApparentFromReal s in
  updateApparentFromReal s' = s' /\
  updateApparentFromReal (set_refractiveIndex (Fin n') s')
  = set_refractiveIndex (Fin n') s'.
Proof.
  intros Hlock Hs Hn HaL HaR HL0 HLc HR0 HRc HpL HpR Hlr Hax Hbetween
         Hn' HLc' HRc' s'.
  destruct (updateApparentFromReal_between s n aL aR lx rx ax)
    as [Hupd [Hq _]]; try assumption.
  set (qx := (cotDeg aL * lx + cotDeg aR * rx) / (cotDeg aL + cotDeg aR)) in *.
  set (qy := 450 - cotDeg aL * cotDeg aR * (rx - lx) / (cotDeg aL + cotDeg aR))
    in *.
  unfold s'; rewrite Hupd.
  split.
  - destruct (updateApparentFromReal_between
                (set_apparentPosition (mkPoint (Fin qx) (Fin qy)) s)
                n aL aR lx rx qx) as [Hupd' _];
      try assumption; try reflexivity; lra.
  - destruct (updateApparentFromReal_between
                (set_refractiveIndex (Fin n')
                   (set_apparentPosition (mkPoint (Fin qx) (Fin qy)) s))
                n' aL aR lx rx qx) as [Hupd' _];
      try assumption; try reflexivity; lra.
Qed.

Lemma criticalDeg_1_2 : 30 < criticalDeg 1.2.
Proof.
  pose proof PI_bounds as [Pl Pu].
  unfold criticalDeg.
  apply asin_deg_lower with (hi := 30 * 3.1416 / 180); lra.
Qed.

Lemma apparent_position_independent_of_index_witness :
  let s' := updateApparentFromReal initialState in
  updateApparentFromReal s' = s' /\
  updateApparentFromReal (set_refractiveIndex (Fin 1.2) s')
  = set_refractiveIndex (Fin 1.2) s'.
Proof.
  pose proof criticalDeg_water as Hcw.
  pose proof criticalDeg_1_2 as Hc12.
  apply (apparent_position_independent_of_index
           initialState 1.33 1.2 30 30 250 550 400);
    try reflexivity; lra.
Defined.
